(** * Structural utilities of elegy ([elegy/utils.py]) and the generalized
    module adapters, as a shallow embedding.

    Python values are modelled as follows.
    - [str] is [string]; [str(i)] for an integer is stdpp's [pretty].
    - a [set] of strings is a [gset string].
    - a [dict] is an association list in insertion order whose keys are
      pairwise distinct ([PyDict]).
    - an exception is a constructor of [exn], carried by the error monad
      [pyres]. *)

From Stdlib Require Import ZArith Floats.SpecFloat.
From stdpp Require Import base option list gmap strings pretty.

(** ** Exceptions and results *)

Inductive exn : Type :=
  | ValueError (msg : string)
  | KeyError
  | IndexError
  | TypeError
  | OverflowError
  | MissingParameterError
  | UnsupportedModuleError.

Inductive pyres (A : Type) : Type :=
  | Ok (x : A)
  | Raise (e : exn).
Arguments Ok {A} x.
Arguments Raise {A} e.

Definition pybind {A B} (r : pyres A) (k : A → pyres B) : pyres B :=
  match r with
  | Ok x => k x
  | Raise e => Raise e
  end.

Definition raises {A} (r : pyres A) : Prop := ∃ e, r = Raise e.

(** ** Python dictionaries

    Insertion-ordered association lists; a well-formed dictionary has
    pairwise distinct keys ([wf]). *)

Module PyDict.
Section ops.
Context {K : Type} `{EqDecision K} {A : Type}.

Definition t : Type := list (K * A).

Definition keys (d : t) : list K := fst <$> d.

Definition wf (d : t) : Prop := NoDup (keys d).

(** [d.get(k)]: [None] when [k] is not a key. *)
Fixpoint get (k : K) (d : t) : option A :=
  match d with
  | [] => None
  | (k', v) :: d' => if decide (k = k') then Some v else get k d'
  end.

(** [k in d] *)
Definition contains (k : K) (d : t) : bool := bool_decide (k ∈ keys d).

(** [d[k] = v]: the value is replaced where the key stands, a new key
    goes to the end. *)
Fixpoint set (k : K) (v : A) (d : t) : t :=
  match d with
  | [] => [(k, v)]
  | (k', v') :: d' =>
      if decide (k = k') then (k', v) :: d' else (k', v') :: set k v d'
  end.

(** [del d[k]], as done by [d.pop(k)] *)
Fixpoint remove (k : K) (d : t) : t :=
  match d with
  | [] => []
  | (k', v') :: d' =>
      if decide (k = k') then d' else (k', v') :: remove k d'
  end.

(** [d.update(b)], also [{**d, **b}] *)
Definition update (d b : t) : t :=
  foldl (λ acc kv, set kv.1 kv.2 acc) d b.

(** A dict display or comprehension [{k: v for ...}]: the items are
    inserted one after the other into an empty dictionary. *)
Definition of_items (items : list (K * A)) : t := update [] items.
End ops.
Arguments t : clear implicits.
End PyDict.

(** ** Nested structures and paths *)

(** A path segment ([types.Path] is a tuple of [str] or [int]). *)
Inductive segment : Type :=
  | SStr (s : string)
  | SInt (i : Z).

Global Instance segment_eq_dec : EqDecision segment.
Proof. solve_decision. Defined.

Definition Path : Type := list segment.

(** [str(segment)] *)
Definition str (s : segment) : string :=
  match s with
  | SStr s => s
  | SInt i => pretty i
  end.

#[local] Unset Elimination Schemes.

(** A nested structure of lists, tuples and dicts; everything else is a
    leaf. *)
Inductive tree (V : Type) : Type :=
  | TLeaf (v : V)
  | TList (l : list (tree V))
  | TTuple (l : list (tree V))
  | TDict (d : list (segment * tree V)).
#[local] Set Elimination Schemes.
Arguments TLeaf {V} v.
Arguments TList {V} l.
Arguments TTuple {V} l.
Arguments TDict {V} d.

(** [for i, x in enumerate(l)] around a generator body [f i x]: what the
    bodies yield, one index after the other, counting from [i]. *)
Fixpoint flat_mapi {A B} (f : nat → A → list B) (i : nat) (l : list A)
    : list B :=
  match l with
  | [] => []
  | x :: l' => f i x ++ flat_mapi f (S i) l'
  end.

Module Paths.
Section paths.
Context {V : Type}.

(** [_leaf_paths(path, inputs)]; [yield from] appends what the
    recursive call yields. *)
Fixpoint _leaf_paths (path : Path) (inputs : tree V)
    : list (Path * V) :=
  match inputs with
  | TList l | TTuple l =>
      flat_mapi (λ i value,
        _leaf_paths (path ++ [SInt (Z.of_nat i)]) value) 0 l
  | TDict d =>
      flat_map (λ item : segment * tree V,
        _leaf_paths (path ++ [item.1]) item.2) d
  | TLeaf v => [(path, v)]
  end.

Definition leaf_paths (inputs : tree V) : list (Path * V) :=
  _leaf_paths [] inputs.

(** [_flatten_names(path, inputs)]: the list and tuple branch passes
    [path] on as it is. *)
Fixpoint _flatten_names (path : Path) (inputs : tree V)
    : list (Path * V) :=
  match inputs with
  | TList l | TTuple l =>
      flat_mapi (λ (i : nat) value, _flatten_names path value) 0 l
  | TDict d =>
      flat_map (λ item : segment * tree V,
        _flatten_names (path ++ [item.1]) item.2) d
  | TLeaf v => [(path, v)]
  end.

(** ["/".join(map(str, path))] *)
Definition join_path (p : Path) : string :=
  String.concat "/" (str <$> p).

Definition flatten_names (inputs : tree V) : list (string * V) :=
  (λ pv : Path * V, (join_path pv.1, pv.2))
    <$> _flatten_names [] inputs.

(** Modelled from the spec: the inverse direction of "Path
    flatten/unflatten" (section 4.6), of which the sources hold only
    [leaf_paths].  The pairs are written one after the other into a
    nested dictionary, every path segment being used as a key; a pair
    with the empty path is the structure itself. *)
Fixpoint insert_at (p : Path) (v : V) (t : tree V) : tree V :=
  match p with
  | [] => TLeaf v
  | k :: p' =>
      let d := match t with TDict d => d | _ => [] end in
      let sub := default (TDict []) (PyDict.get k d) in
      TDict (PyDict.set k (insert_at p' v sub) d)
  end.

(** Modelled from the spec: writing a list of pairs into a
    structure, for [unflatten]. *)
Definition unflatten_into (t : tree V) (pairs : list (Path * V))
    : tree V :=
  foldl (λ t pv, insert_at pv.1 pv.2 t) t pairs.

(** Modelled from the spec: "unflatten" of section 4.6, which is not
    in the sources; it starts from the empty dict. *)
Definition unflatten (pairs : list (Path * V)) : tree V :=
  unflatten_into (TDict []) pairs.

(** The pairs of [_flatten_names] before their paths are joined. *)
Definition name_paths (t : tree V) : list (Path * V) :=
  _flatten_names [] t.

(** The items of a list or tuple seen as those of a dict keyed by
    position, counting from [i]. *)
Fixpoint enumerate (i : nat) (l : list (tree V))
    : list (segment * tree V) :=
  match l with
  | [] => []
  | x :: l' => (SInt (Z.of_nat i), x) :: enumerate (S i) l'
  end.

(** What [unflatten] makes of the items of a dict: an item without
    leaves is gone, the others are rebuilt from their own pairs. *)
Definition rebuilt (d : list (segment * tree V))
    : list (segment * tree V) :=
  flat_map (λ item : segment * tree V,
    match leaf_paths item.2 with
    | [] => []
    | ps => [(item.1, unflatten ps)]
    end) d.

(** [under pre] puts the segments [pre] in front of a pair's path. *)
Definition under (pre : Path) (pv : Path * V) : Path * V :=
  (pre ++ pv.1, pv.2).

(** Every dict of the structure has pairwise distinct keys, as every
    Python dict has. *)
Fixpoint well_formed (t : tree V) : bool :=
  match t with
  | TLeaf _ => true
  | TList l | TTuple l => forallb well_formed l
  | TDict d =>
      bool_decide (NoDup (PyDict.keys d))
      && forallb (λ item : segment * tree V, well_formed item.2) d
  end.

(** Structures made of leaves and non-empty dicts only. *)
Fixpoint dicts_only (t : tree V) : bool :=
  match t with
  | TLeaf _ => true
  | TList _ | TTuple _ => false
  | TDict d =>
      bool_decide (d ≠ [])
      && forallb (λ item : segment * tree V, dicts_only item.2) d
  end.

(** One level of nesting on the way from a structure to one of its
    leaves: the position in a list or tuple, or the key in a dict. *)
Inductive level : Type :=
  | AtIndex (i : nat)
  | AtKey (k : segment).

(** [leaf_at t levels v]: the leaf [v] sits in [t] under the levels
    [levels], outermost first. *)
Inductive leaf_at : tree V → list level → V → Prop :=
  | leaf_at_leaf v : leaf_at (TLeaf v) [] v
  | leaf_at_list l i x levels v :
      l !! i = Some x → leaf_at x levels v →
      leaf_at (TList l) (AtIndex i :: levels) v
  | leaf_at_tuple l i x levels v :
      l !! i = Some x → leaf_at x levels v →
      leaf_at (TTuple l) (AtIndex i :: levels) v
  | leaf_at_dict d k x levels v :
      (k, x) ∈ d → leaf_at x levels v →
      leaf_at (TDict d) (AtKey k :: levels) v.

(** One segment per level: the integer index of a list or tuple
    element, the key of a dict entry. *)
Definition segment_of (lv : level) : segment :=
  match lv with
  | AtIndex i => SInt (Z.of_nat i)
  | AtKey k => k
  end.

(** The keys among the levels, the list and tuple levels left out. *)
Definition key_of (lv : level) : option segment :=
  match lv with
  | AtIndex _ => None
  | AtKey k => Some k
  end.
End paths.
Arguments level : clear implicits.
End Paths.

(** ** get_path_params *)

Module PathParams.
Section get.
Context {V : Type}.

(** [leaf[key]] for a value that is no list, tuple or dict: what a
    leaf does when indexed is its own business (an array returns an
    element, a number raises [TypeError]). *)
Variable leaf_getitem : V → segment → pyres V.

(** [l[i]] on a list or tuple: negative indices count from the end. *)
Definition seq_getitem (l : list (tree V)) (key : segment)
    : pyres (tree V) :=
  match key with
  | SStr _ => Raise TypeError
  | SInt i =>
      let n := Z.of_nat (length l) in
      let j := (if decide (i < 0) then i + n else i)%Z in
      if decide (0 ≤ j < n)%Z
      then match l !! Z.to_nat j with
           | Some x => Ok x
           | None => Raise IndexError
           end
      else Raise IndexError
  end.

(** [params[key]] *)
Definition getitem (params : tree V) (key : segment) : pyres (tree V) :=
  match params with
  | TDict d =>
      match PyDict.get key d with
      | Some x => Ok x
      | None => Raise KeyError
      end
  | TList l | TTuple l => seq_getitem l key
  | TLeaf v => pybind (leaf_getitem v key) (λ x, Ok (TLeaf x))
  end.

(** [get_path_params(path, params)].  The result [Ok None] is the
    [return None] of the handler, [Ok (Some x)] is [return params]. *)
Fixpoint get_path_params (path : Path) (params : tree V)
    : pyres (option (tree V)) :=
  match path with
  | [] => Ok (Some params)
  | key :: path' =>
      match getitem params key with
      | Ok params' => get_path_params path' params'
      | Raise _ (* except BaseException *) => Ok None
      end
  end.

(** [reaches params path x]: indexing [params] with the segments of
  [path], in order, succeeds at every step and ends in [x]. *)
Inductive reaches : tree V → Path → tree V → Prop :=
| reaches_here t : reaches t [] t
| reaches_step t key t' path x :
    getitem t key = Ok t' →
    reaches t' path x →
    reaches t (key :: path) x.

(** [fails_at params path]: some segment of [path] fails to index the
  value reached by the segments before it. *)
Definition fails_at (params : tree V) (path : Path) : Prop :=
∃ before key after t e,
  path = before ++ key :: after ∧
  reaches params before t ∧
  getitem t key = Raise e.
End get.
End PathParams.

(** ** merge_params *)

(** [[f(a, b) for a, b in zip(la, lb)]], stopping at the first exception. *)
Fixpoint zip_with_raising {A B C} (f : A → B → pyres C)
    (la : list A) (lb : list B) : pyres (list C) :=
  match la, lb with
  | a :: la', b :: lb' =>
      pybind (f a b) (λ x,
      pybind (zip_with_raising f la' lb') (λ rest, Ok (x :: rest)))
  | _, _ => Ok []
  end.

Module Merge.
Section merge.
Context {V : Type}.

(** The items of the dict comprehension of [merge_params] for the
    keys of [a]: [a[key]] when [key not in b], else
    [merge(a[key], b[key])]. *)
Fixpoint merge_items (merge : tree V → tree V → pyres (tree V))
    (db da : list (segment * tree V))
    : pyres (list (segment * tree V)) :=
  match da with
  | [] => Ok []
  | (key, va) :: da' =>
      pybind
        (match PyDict.get key db with
         | None => Ok va
         | Some vb => merge va vb
         end) (λ v,
      pybind (merge_items merge db da') (λ rest, Ok ((key, v) :: rest)))
  end.

(** [merge_params(a, b)].  The dict comprehension runs over
    [set(a) | set(b)], whose order is that of the hash table; here the
    keys of [a] come first and the keys only [b] has (for them the
    item is [b[key]]) follow.  What is proved of the result is stated
    through [PyDict.get], membership or permutations, and so holds
    for any order of the keys. *)
Fixpoint merge_params (a b : tree V) : pyres (tree V) :=
  match a, b with
  | TDict da, TDict db =>
      pybind (merge_items merge_params db da) (λ items,
      Ok (TDict (items ++
        filter (λ item, item.1 ∉ PyDict.keys da) db)))
  | TList la, TList lb =>
      if decide (length la ≠ length lb)
      then Raise (ValueError "Cannot merge two lists of different lengths")
      else pybind (zip_with_raising merge_params la lb) (λ l,
           Ok (TList l))
  | TTuple la, TTuple lb =>
      if decide (length la ≠ length lb)
      then Raise (ValueError "Cannot merge two tuples of different lengths")
      else pybind (zip_with_raising merge_params la lb) (λ l,
           Ok (TTuple l))
  | _, _ => Raise (ValueError "Cannot merge structs")
  end.

(** Two values that cannot be merged as they stand: two lists or two
    tuples of different lengths, or two values that fit none of the
    rules dict with dict, list with list, tuple with tuple. *)
Definition incompatible (a b : tree V) : Prop :=
  match a, b with
  | TDict _, TDict _ => False
  | TList la, TList lb | TTuple la, TTuple lb => length la ≠ length lb
  | _, _ => True
  end.

(** [conflict_at p a b]: the path [p] exists in both trees, through
    dicts with dicts, lists with lists and tuples with tuples, and
    the values it leads to are incompatible. *)
Inductive conflict_at : Path → tree V → tree V → Prop :=
  | conflict_here a b : incompatible a b → conflict_at [] a b
  | conflict_in_dict k p da db x y :
      PyDict.get k da = Some x → PyDict.get k db = Some y →
      conflict_at p x y →
      conflict_at (k :: p) (TDict da) (TDict db)
  | conflict_in_list i p la lb x y :
      la !! i = Some x → lb !! i = Some y →
      conflict_at p x y →
      conflict_at (SInt (Z.of_nat i) :: p) (TList la) (TList lb)
  | conflict_in_tuple i p la lb x y :
      la !! i = Some x → lb !! i = Some y →
      conflict_at p x y →
      conflict_at (SInt (Z.of_nat i) :: p) (TTuple la) (TTuple lb).

(** [merged a b m]: [m] has every key of [a] and of [b]; a value only
    one of them has is taken from it, a value both have is merged in
    the same way; lists and tuples are merged item by item. *)
Inductive merged : tree V → tree V → tree V → Prop :=
  | merged_dict da db dm :
      (∀ k x, PyDict.get k da = Some x → PyDict.get k db = None →
              PyDict.get k dm = Some x) →
      (∀ k y, PyDict.get k da = None → PyDict.get k db = Some y →
              PyDict.get k dm = Some y) →
      (∀ k x y, PyDict.get k da = Some x → PyDict.get k db = Some y →
                ∃ z, PyDict.get k dm = Some z ∧ merged x y z) →
      (∀ k, PyDict.get k da = None → PyDict.get k db = None →
            PyDict.get k dm = None) →
      merged (TDict da) (TDict db) (TDict dm)
  | merged_list la lb lm :
      Forall3 merged la lb lm → merged (TList la) (TList lb) (TList lm)
  | merged_tuple la lb lm :
      Forall3 merged la lb lm →
      merged (TTuple la) (TTuple lb) (TTuple lm).

(** Either the merge raises and there is a conflict, or it returns a
    merged tree and there is none. *)
Definition settled (a b : tree V) : Prop :=
  (raises (merge_params a b) ∧ ∃ p, conflict_at p a b) ∨
  (∃ m, merge_params a b = Ok m ∧ merged a b m ∧
        ∀ p, ¬ conflict_at p a b).

(** What [merge_items] returns stands item by item against [da]. *)
Definition item_merged (db : list (segment * tree V))
    (item item' : segment * tree V) : Prop :=
  item'.1 = item.1 ∧
  match PyDict.get item.1 db with
  | None => item'.2 = item.2
  | Some y => merged item.2 y item'.2 ∧ ∀ p, ¬ conflict_at p item.2 y
  end.
End merge.
End Merge.

(** ** get_unique_name *)

Module UniqueName.

(** [f"{name}_{i}"] *)
Definition suffixed (name : string) (i : nat) : string :=
  name +:+ "_" +:+ pretty i.

(** The [while f"{name}_{i}" in names: i += 1] loop, started at [i].
    [fuel] bounds the number of tests of the loop condition. *)
Fixpoint while_taken (fuel : nat) (names : gset string) (name : string)
    (i : nat) : option nat :=
  match fuel with
  | 0 => None
  | S fuel' =>
      if decide (suffixed name i ∈ names)
      then while_taken fuel' names name (S i)
      else Some i
  end.

(** [get_unique_name(names, name)]: the pair of the set after the call
    and the returned name.  The loop is run with [S (size names)] tests,
    which [while_taken_enough] shows is always enough. *)
Definition get_unique_name (names : gset string) (name : string)
    : option (gset string * string) :=
  if decide (name ∈ names) then
    i ← while_taken (S (size names)) names name 1;
    let name' := suffixed name i in
    Some ({[name']} ∪ names, name')
  else Some ({[name]} ∪ names, name).

(** Feeding a list of candidates to one set, in order. *)
Fixpoint feed (names : gset string) (cands : list string)
    : option (gset string * list string) :=
  match cands with
  | [] => Some (names, [])
  | c :: cands' =>
      '(names1, r) ← get_unique_name names c;
      '(names2, rs) ← feed names1 cands';
      Some (names2, r :: rs)
  end.

End UniqueName.

(** ** merge_with_unique_names

    The dicts are objects in a store: a reference is a position in the
    list of all dicts made so far, [a.copy()] and [dict(a)] make a new
    object, and [output[name] = value] rewrites the object [output]
    refers to. *)

Module MergeNames.
Abbreviation ref := nat.
Abbreviation store A := (list (PyDict.t string A)).

Section merge.
Context {A : Type}.

(** [dict(d)], [d.copy()]: the new reference and the store with the
    new object. *)
Definition new_dict (d : PyDict.t string A) (h : store A)
    : ref * store A :=
  (length h, h ++ [d]).

(** The loop [for name, value in b.items():
    output[get_unique_name(names, name)] = value]. *)
Fixpoint assign_unique (output : ref) (items : list (string * A))
    (names : gset string) (h : store A)
    : option (gset string * store A) :=
  match items with
  | [] => Some (names, h)
  | (name, value) :: items' =>
      '(names', name') ← UniqueName.get_unique_name names name;
      d ← h !! output;
      assign_unique output items' names'
        (<[output := PyDict.set name' value d]> h)
  end.

(** [_merge_with_unique_names(a, b)] *)
Definition _merge_with_unique_names (a b : ref) (h : store A)
    : option (ref * store A) :=
  let names : gset string := ∅ in
  da ← h !! a;
  let '(output, h) := new_dict da h in
  db ← h !! b;
  '(_, h) ← assign_unique output db names h;
  Some (output, h).

(** The loop [for b in rest: a = _merge_with_unique_names(a, b)]. *)
Fixpoint merge_rest (a : ref) (rest : list ref) (h : store A)
    : option (ref * store A) :=
  match rest with
  | [] => Some (a, h)
  | b :: rest' =>
      '(a', h') ← _merge_with_unique_names a b h;
      merge_rest a' rest' h'
  end.

(** [merge_with_unique_names(a, *rest)] *)
Definition merge_with_unique_names (a : ref) (rest : list ref)
    (h : store A) : option (ref * store A) :=
  da ← h !! a;
  let '(a, h) := new_dict da h in
  merge_rest a rest h.
End merge.
End MergeNames.

(** ** inject_dependencies *)

Module Inject.
(** The kinds of [inspect.Parameter]. *)
Inductive param_kind : Type :=
  | POSITIONAL_ONLY
  | POSITIONAL_OR_KEYWORD
  | VAR_POSITIONAL
  | KEYWORD_ONLY
  | VAR_KEYWORD.

Global Instance param_kind_eq_dec : EqDecision param_kind.
Proof. solve_decision. Defined.

(** [inspect.Parameter]: the name and the kind of a declared
    parameter. *)
Record Param : Type := { name : string; kind : param_kind }.

Section inject.
(** [A] are the argument values, [R] is what a call gives (a value
    or an exception). *)
Context {A R : Type}.

(** A callable: the parameters [inspect.signature] reports for it,
    what calling it with [*args] and [**kwargs] does, and its
    [_signature_f] attribute when it has one. *)
Inductive callable : Type :=
  | Callable (parameters : list Param)
             (call : list A → PyDict.t string A → R)
             (_signature_f : option callable).

Definition call (f : callable) : list A → PyDict.t string A → R :=
  match f with Callable _ c _ => c end.

Fixpoint get_signature_f_recursive (f : callable) : callable :=
  match f with
  | Callable _ _ (Some g) => get_signature_f_recursive g
  | Callable _ _ None => f
  end.

(** [list(inspect.signature(f).parameters.values())] *)
Definition get_function_args (f : callable) : list Param :=
  match f with Callable ps _ _ => ps end.

(** [for old, new in rename.items():
       if old in kwargs: kwargs[new] = kwargs.pop(old)] *)
Definition rename_kwargs (rename : PyDict.t string string)
    (kwargs : PyDict.t string A) : PyDict.t string A :=
  foldl (λ kwargs item,
    let '(old, new) := item in
    match PyDict.get old kwargs with
    | Some v => PyDict.set new v (PyDict.remove old kwargs)
    | None => kwargs
    end) kwargs rename.

(** [any(arg.kind == inspect.Parameter.VAR_KEYWORD for arg in f_params)] *)
Definition has_var_keyword (f_params : list Param) : bool :=
  existsb (λ arg, bool_decide (kind arg = VAR_KEYWORD)) f_params.

(** [{arg: kwargs[arg] for arg in kwarg_names
      if arg not in arg_names and arg in kwargs}] *)
Definition declared_only (arg_names kwarg_names : list string)
    (kwargs : PyDict.t string A) : PyDict.t string A :=
  PyDict.of_items
    (omap (λ arg,
       if decide (arg ∉ arg_names)
       then (λ v, (arg, v)) <$> PyDict.get arg kwargs
       else None) kwarg_names).

(** The [wrapper] closure of [inject_dependencies]. *)
Definition wrapper (f : callable) (f_params : list Param)
    (rename : option (PyDict.t string string))
    (args : list A) (kwargs : PyDict.t string A) : R :=
  let n_args := length args in
  let arg_names := name <$> take n_args f_params in
  let kwarg_names := name <$> drop n_args f_params in
  let kwargs :=
    match rename with
    | Some rename => rename_kwargs rename kwargs
    | None => kwargs
    end in
  let kwargs :=
    if negb (has_var_keyword f_params)
    then declared_only arg_names kwarg_names kwargs
    else kwargs in
  call f args kwargs.

(** [inject_dependencies(f, signature_f, rename)].  By
    [functools.wraps(signature_f)] the wrapper reports the signature
    of [signature_f]. *)
Definition inject_dependencies (f : callable)
    (signature_f : option callable)
    (rename : option (PyDict.t string string)) : callable :=
  let signature_f := default f signature_f in
  let signature_f := get_signature_f_recursive signature_f in
  let f_params := get_function_args signature_f in
  Callable f_params (wrapper f f_params rename) None.
End inject.
Arguments callable : clear implicits.
End Inject.

(** *** What the adapter forwards, in the words of the specification

    The keyword arguments are seen as a bag, the value passed under each
    name; the renaming, the reference signature and the binding of
    positional arguments are defined on their own, to be compared with
    what [inject_dependencies] does. *)

Module Forwarding.
Import Inject.

Section forwarding.
Context {A R : Type}.




End forwarding.

(** The signature declares the name [k]. *)
Definition declares (f_params : list Param) (k : string) : Prop :=
  k ∈ name <$> f_params.

Global Instance declares_dec f_params k : Decision (declares f_params k).
Proof. unfold declares. apply _. Defined.



End Forwarding.

(** ** Sizes in the summary

    A Python [float] is an IEEE 754 binary64 number, here the standard
    library's [spec_float] with 53 bits of precision and exponents up
    to 1024; the operations round to nearest, ties to even. *)

Module Float64.
Definition prec : Z := 53.
Definition emax : Z := 1024.

(** [float(n)] for an [int]: the nearest float, and [OverflowError]
    when that is out of range. *)
Definition of_int (n : Z) : pyres spec_float :=
  match binary_normalize prec emax n 0 false with
  | S754_infinity _ => Raise OverflowError
  | x => Ok x
  end.

(** The literals [1e3], [1e6] and [1e9], which are floats with these
    integer values. *)
Definition literal (n : Z) : spec_float :=
  binary_normalize prec emax n 0 false.

(** [n / y] for an [int] [n] and a [float] [y]. *)
Definition int_truediv (n : Z) (y : spec_float) : pyres spec_float :=
  pybind (of_int n) (λ x, Ok (SFdiv prec emax x y)).

(** The integer nearest to ten times the float [m * 2^e], a tie going
    to the even one. *)
Definition tenths (m : positive) (e : Z) : N :=
  match e with
  | Zneg k =>
      let num := (10 * Npos m)%N in
      let den := (2 ^ Npos k)%N in
      let q := (num `div` den)%N in
      let r := (num `mod` den)%N in
      match (2 * r ?= den)%N with
      | Lt => q
      | Eq => if N.even q then q else (q + 1)%N
      | Gt => (q + 1)%N
      end
  | _ => (10 * Npos m * 2 ^ Z.to_N e)%N
  end.
End Float64.

(** What the rounding of [SpecFloat] is measured against: a
    non-negative rational [P / Q]. *)

Module Rounding.
(** The record of a right shift stands for [P / Q]: its integer part,
    the first bit after the point, and whether anything follows. *)
Definition stands_for (P Q : Z) (mrs : shr_record) : Prop :=
  shr_m mrs = (P `div` Q)%Z ∧
  shr_r mrs = Z.odd ((2 * P) `div` Q) ∧
  shr_s mrs = negb ((2 * P) `mod` Q =? 0)%Z.

(** [m] is the integer part of [P / Q], and [l] tells where the rest
    lies: nowhere, below the half, on it or above. *)
Definition located (P Q m : Z) (l : location) : Prop :=
  m = (P `div` Q)%Z ∧
  l = if (P `mod` Q =? 0)%Z then loc_Exact
      else loc_Inexact (2 * (P `mod` Q) ?= Q)%Z.
End Rounding.

Module Format.
Import Stdlib.Strings.Ascii.

(** The [,] option of a format: a comma before every group of three
    digits, counted from the right. *)
Fixpoint commas (digits : string) : string :=
  match digits with
  | EmptyString => EmptyString
  | String c rest =>
      String c
        (if bool_decide (String.length rest ≠ 0
                         ∧ String.length rest `mod` 3 = 0)
         then "," +:+ commas rest
         else commas rest)
  end.

(** [f"{n:,}"] for an [int] *)
Definition format_int (n : Z) : string :=
  match n with
  | Zneg p => "-" +:+ commas (pretty (Npos p))
  | _ => commas (pretty (Z.to_N n))
  end.

Definition sign (s : bool) : string := if s then "-" else "".

(** [f"{x:,.1f}"] for a [float]: the decimal expansion of the float
    rounded to one place, ties to even. *)
Definition format_float_1 (x : spec_float) : string :=
  match x with
  | S754_zero s => sign s +:+ "0.0"
  | S754_finite s m e =>
      let t := Float64.tenths m e in
      sign s +:+ commas (pretty (t `div` 10)%N) +:+ "."
        +:+ pretty (t `mod` 10)%N
  | S754_infinity s => sign s +:+ "inf"
  | S754_nan => "nan"
  end.

(** [format_size(size)] for an [int] [size].  An [int] compares with
    a [float] by value, so [size > 1e9] is the comparison of
    integers. *)
Definition format_size (size : Z) : pyres string :=
  pybind
    (if decide (size > 10 ^ 9)%Z then
       pybind (Float64.int_truediv size (Float64.literal (10 ^ 9))) (λ q,
       Ok (format_float_1 q, "GB"))
     else if decide (size > 10 ^ 6)%Z then
       pybind (Float64.int_truediv size (Float64.literal (10 ^ 6))) (λ q,
       Ok (format_float_1 q, "MB"))
     else if decide (size > 10 ^ 3)%Z then
       pybind (Float64.int_truediv size (Float64.literal (10 ^ 3))) (λ q,
       Ok (format_float_1 q, "KB"))
     else Ok (format_int size, "B"))
    (λ '(count, units),
     Ok ("[dim]" +:+ count +:+ " " +:+ units +:+ "[/dim]")).

(** A leaf of the parameters: an array with its number of elements
    [x.size] and the bytes of one element [x.dtype.itemsize]. *)
Record ndarray : Type := { size : Z; itemsize : Z }.

(** [jax.tree_leaves(params)], of the tensor engine: the leaves of the
    structure (the sums below do not depend on their order). *)
Definition tree_leaves (params : tree ndarray) : list ndarray :=
  snd <$> Paths.leaf_paths params.

Definition sum (l : list Z) : Z := foldl Z.add 0%Z l.

Definition parameters_count (params : tree ndarray) : Z :=
  sum (size <$> tree_leaves params).

Definition parameters_bytes (params : tree ndarray) : Z :=
  sum ((λ x, size x * itemsize x)%Z <$> tree_leaves params).

Definition format_count_and_size (params : tree ndarray)
    (add_padding : bool) : pyres string :=
  let padding := if add_padding then "{pad}" else "" in
  let count := parameters_count params in
  let size := parameters_bytes params in
  if decide (count > 0)%Z then
    pybind (format_size size) (λ formatted,
    Ok ("[green]" +:+ format_int count +:+ "[/]" +:+ padding +:+ "    "
        +:+ formatted))
  else Ok "".

(** *** What a formatted size says

    The strings are read back as numbers, and the number shown is
    compared with the exact quotient. *)

(** The decimal digits. *)
Definition is_digit (c : ascii) : bool :=
  let n := N_of_ascii c in (48 <=? n)%N && (n <=? 57)%N.

Fixpoint digits_only (s : string) : bool :=
  match s with
  | EmptyString => true
  | String c s' => is_digit c && digits_only s'
  end.

(** A number as it is read: the string without its thousands
    separators. *)
Fixpoint without_commas (s : string) : string :=
  match s with
  | EmptyString => EmptyString
  | String c s' =>
      if decide (c = ","%char) then without_commas s'
      else String c (without_commas s')
  end.

(** [shows t size T]: the number [t / 10], of one decimal place, is
    [size / T] rounded to that place.  The quotient is computed in
    floats, so the distance allowed is half a unit of the place shown
    and the relative error [2 ^ -51] of the two float operations:
    [|t / 10 - size / T| ≤ 1 / 20 + (size / T) / 2 ^ 51]. *)
Definition shows (t size T : Z) : Prop :=
  (2 ^ 51 * Z.abs (t * T - 10 * size) ≤ 2 ^ 50 * T + 10 * size)%Z.
End Format.

(** ** The generalized module adapters

    The adapters ([HaikuModule], [LinenModule]) and [generalize] are not
    among the sources at hand, which hold their tests; they are modelled
    from sections 4.1 to 4.4 of the specification, and the modules under
    test from [haiku_module_test.py] and [linen_module_test.py]. *)

Module Adapters.
(** The values the test modules compute with. *)
Inductive value : Type :=
  | VNone
  | VBool (b : bool)
  | VInt (n : Z)
  | VFloat (x : spec_float).

Definition to_float (v : value) : pyres spec_float :=
  match v with
  | VFloat x => Ok x
  | VInt n => Float64.of_int n
  | VBool b => Float64.of_int (if b then 1 else 0)
  | VNone => Raise TypeError
  end.

(** [a * b] and [a + b] on numbers. *)
Definition mul (a b : value) : pyres value :=
  match a, b with
  | VInt m, VInt n => Ok (VInt (m * n))
  | _, _ =>
      pybind (to_float a) (λ x, pybind (to_float b) (λ y,
      Ok (VFloat (SFmul Float64.prec Float64.emax x y))))
  end.

Definition add (a b : value) : pyres value :=
  match a, b with
  | VInt m, VInt n => Ok (VInt (m + n))
  | _, _ =>
      pybind (to_float a) (λ x, pybind (to_float b) (λ y,
      Ok (VFloat (SFadd Float64.prec Float64.emax x y))))
  end.

(** A collection: nested dicts of values, read and written by path. *)
Definition lookup_path (p : Path) (t : tree value) : option value :=
  match PathParams.get_path_params (λ _ _, Raise TypeError) p t with
  | Ok (Some (TLeaf v)) => Some v
  | _ => None
  end.

Definition store_path (p : Path) (v : value) (t : tree value)
    : tree value :=
  Paths.insert_at p v t.

(** A traced computation: it reads and writes a context [C] and may
    raise. *)
Definition traced (C A : Type) : Type := C → pyres (A * C).

Definition ret {C A} (x : A) : traced C A := λ c, Ok (x, c).

Definition bind {C A B} (m : traced C A) (k : A → traced C B)
    : traced C B :=
  λ c, pybind (m c) (λ '(x, c'), k x c').

Definition lift {C A} (r : pyres A) : traced C A :=
  λ c, pybind r (λ x, Ok (x, c)).

(** Binding the parameter [name], declared at position [pos], of a
    call [f( *args, **kwargs)]. *)
Definition argument (pos : nat) (name : string) (args : list value)
    (kwargs : PyDict.t string value) : pyres value :=
  match args !! pos with
  | Some v => Ok v
  | None =>
      match PyDict.get name kwargs with
      | Some v => Ok v
      | None => Raise TypeError
      end
  end.

(** A function without [**kwargs] refuses a keyword it does not
    declare. *)
Definition only_declared (declared : list string)
    (kwargs : PyDict.t string value) : pyres unit :=
  if forallb (λ k, bool_decide (k ∈ declared)) (PyDict.keys kwargs)
  then Ok tt else Raise TypeError.

(** *** Adapter A: the imperative style *)

(** Modelled from the spec: the context of a trace of Adapter A
    (section 4.3), whose code is not in the sources.  During a trace
    the module registers parameters and state by name under the scope
    of the module being called.  At [init] ([hk_recording]) a
    registration records the initial value; at [apply] it returns the
    value the caller supplied.  What [set_state] writes is the current
    state, which [apply] returns and [init] does not. *)
Record hk_context : Type := {
  hk_scope : Path;
  hk_params : tree value;
  hk_initial : tree value;
  hk_current : tree value;
  hk_recording : bool
}.

(** Modelled from the spec: registering and reading a parameter
    (section 4.3). *)
Definition get_parameter (name : string) (init : value)
    : traced hk_context value :=
  λ c,
    let p := hk_scope c ++ [SStr name] in
    match lookup_path p (hk_params c) with
    | Some v => Ok (v, c)
    | None =>
        if hk_recording c
        then Ok (init, {| hk_scope := hk_scope c;
                          hk_params := store_path p init (hk_params c);
                          hk_initial := hk_initial c;
                          hk_current := hk_current c;
                          hk_recording := true |})
        else Raise MissingParameterError
    end.

(** Modelled from the spec: registering and reading a state value
    (section 4.3). *)
Definition get_state (name : string) (init : value)
    : traced hk_context value :=
  λ c,
    let p := hk_scope c ++ [SStr name] in
    match lookup_path p (hk_current c) with
    | Some v => Ok (v, c)
    | None =>
        if hk_recording c
        then Ok (init, {| hk_scope := hk_scope c;
                          hk_params := hk_params c;
                          hk_initial := store_path p init (hk_initial c);
                          hk_current := store_path p init (hk_current c);
                          hk_recording := true |})
        else Raise MissingParameterError
    end.

(** Modelled from the spec: the "set state" operation (section 4.3). *)
Definition set_state (name : string) (v : value)
    : traced hk_context unit :=
  λ c,
    let p := hk_scope c ++ [SStr name] in
    Ok (tt, {| hk_scope := hk_scope c;
               hk_params := hk_params c;
               hk_initial := hk_initial c;
               hk_current := store_path p v (hk_current c);
               hk_recording := hk_recording c |}).

(** Modelled from the spec: calling a module instance named [name],
    whose registrations are keyed by path, under its name (section
    4.3). *)
Definition in_module {A} (name : string) (body : traced hk_context A)
    : traced hk_context A :=
  λ c,
    pybind (body {| hk_scope := hk_scope c ++ [SStr name];
                    hk_params := hk_params c;
                    hk_initial := hk_initial c;
                    hk_current := hk_current c;
                    hk_recording := hk_recording c |}) (λ '(x, c'),
    Ok (x, {| hk_scope := hk_scope c;
              hk_params := hk_params c';
              hk_initial := hk_initial c';
              hk_current := hk_current c';
              hk_recording := hk_recording c' |})).

(** Modelled from the spec: a function of the imperative style, with
    its declared parameters. *)
Definition hk_function : Type :=
  Inject.callable value (traced hk_context value).

(** *** Adapter B: the declarative style *)

(** Modelled from the spec: the context of a call under Adapter B
    (section 4.4), whose code is not in the sources.  The variables of
    a module live in named collections, the parameters in the
    collection ["params"].  At [init] ([ln_binding]) a declaration
    binds the initial value; at [apply] the supplied values are bound
    and the collections are mutable. *)
Record linen_context : Type := {
  ln_variables : tree value;
  ln_binding : bool
}.

(** Modelled from the spec: [self.has_variable(col, name)], the query
    for prior existence (section 4.4). *)
Definition has_variable (col name : string)
    : traced linen_context bool :=
  λ c, Ok (bool_decide
             (is_Some (lookup_path [SStr col; SStr name] (ln_variables c))),
           c).

(** Modelled from the spec: [self.variable(col, name, init)], the
    variable-registration call; it returns the reference to the
    variable (section 4.4). *)
Definition variable (col name : string) (init : value)
    : traced linen_context Path :=
  λ c,
    let p := [SStr col; SStr name] in
    match lookup_path p (ln_variables c) with
    | Some _ => Ok (p, c)
    | None =>
        if ln_binding c
        then Ok (p, {| ln_variables := store_path p init (ln_variables c);
                       ln_binding := true |})
        else Raise MissingParameterError
    end.

(** Modelled from the spec: [v.value], reading a variable. *)
Definition read (v : Path) : traced linen_context value :=
  λ c,
    match lookup_path v (ln_variables c) with
    | Some x => Ok (x, c)
    | None => Raise MissingParameterError
    end.

(** Modelled from the spec: [v.value = x], reassigning a variable. *)
Definition write (v : Path) (x : value) : traced linen_context unit :=
  λ c, Ok (tt, {| ln_variables := store_path v x (ln_variables c);
                  ln_binding := ln_binding c |}).

(** Modelled from the spec: [self.param(name, init)], a parameter
    bound lazily (section 4.4). *)
Definition param (name : string) (init : value)
    : traced linen_context value :=
  bind (variable "params" name init) read.

(** Modelled from the spec: a module of the declarative style, with
    the declared parameters of its [__call__]. *)
Definition linen_module : Type :=
  Inject.callable value (traced linen_context value).

(** Modelled from the spec: the collection ["params"] of the
    variables. *)
Definition params_of (variables : tree value) : tree value :=
  match variables with
  | TDict d => default (TDict []) (PyDict.get (SStr "params") d)
  | _ => TDict []
  end.

(** Modelled from the spec: the collections other than ["params"]. *)
Definition states_of (variables : tree value) : tree value :=
  match variables with
  | TDict d => TDict (PyDict.remove (SStr "params") d)
  | _ => TDict []
  end.

(** Modelled from the spec: the variables made of the supplied
    parameters and states. *)
Definition variables_of (params states : tree value) : tree value :=
  match states with
  | TDict d => TDict (PyDict.set (SStr "params") params d)
  | _ => TDict [(SStr "params", params)]
  end.

(** *** The generalized interface and the dispatch *)

(** Modelled from the spec: the generalized module interface (section
    4.1), implemented by one adapter per style. *)
Inductive GeneralizedModule : Type :=
  | HaikuModule (f : hk_function)
  | LinenModule (m : linen_module).

(** Modelled from the spec: the result of [init] and of [apply], the
    output, the parameters and the states (section 4.1). *)
Definition outcome : Type := pyres (value * tree value * tree value).

(** Modelled from the spec: [gm.init(rng)( *args, **kwargs)]
    (sections 4.1, 4.3 and 4.4).  The module is called through
    [inject_dependencies], as the tests call it with a keyword it does
    not declare. *)
Definition init (gm : GeneralizedModule) (args : list value)
    (kwargs : PyDict.t string value) : outcome :=
  match gm with
  | HaikuModule f =>
      pybind
        (Inject.call (Inject.inject_dependencies f None None) args kwargs
           {| hk_scope := []; hk_params := TDict [];
              hk_initial := TDict []; hk_current := TDict [];
              hk_recording := true |}) (λ '(y, c),
      Ok (y, hk_params c, hk_initial c))
  | LinenModule m =>
      pybind
        (Inject.call (Inject.inject_dependencies m None None) args kwargs
           {| ln_variables := TDict []; ln_binding := true |}) (λ '(y, c),
      Ok (y, params_of (ln_variables c), states_of (ln_variables c)))
  end.

(** Modelled from the spec: [gm.apply(params, states, ...)( *args,
    **kwargs)] (sections 4.1, 4.3 and 4.4). *)
Definition apply (gm : GeneralizedModule) (params states : tree value)
    (args : list value) (kwargs : PyDict.t string value) : outcome :=
  match gm with
  | HaikuModule f =>
      pybind
        (Inject.call (Inject.inject_dependencies f None None) args kwargs
           {| hk_scope := []; hk_params := params;
              hk_initial := states; hk_current := states;
              hk_recording := false |}) (λ '(y, c),
      Ok (y, hk_params c, hk_current c))
  | LinenModule m =>
      pybind
        (Inject.call (Inject.inject_dependencies m None None) args kwargs
           {| ln_variables := variables_of params states;
              ln_binding := false |}) (λ '(y, c),
      Ok (y, params_of (ln_variables c), states_of (ln_variables c)))
  end.

(** Modelled from the spec: a module value with its capability markers
    (section 4.2), that is what it is when seen as a generalized
    module, as a function of the imperative style, as a module of the
    declarative style. *)
Record module_value : Type := {
  as_generalized : option GeneralizedModule;
  as_hk_function : option hk_function;
  as_linen_module : option linen_module
}.

(** Modelled from the spec: [generalize(module)] (section 4.2), which
    is not in the sources; the markers are tried in this order, the
    first that is there decides. *)
Definition generalize (m : module_value) : pyres GeneralizedModule :=
  match as_generalized m with
  | Some gm => Ok gm
  | None =>
      match as_hk_function m with
      | Some f => Ok (HaikuModule f)
      | None =>
          match as_linen_module m with
          | Some l => Ok (LinenModule l)
          | None => Raise UnsupportedModuleError
          end
      end
  end.

(** *** The modules of the tests *)

Definition float (n : Z) : value := VFloat (Float64.literal n).

(** [haiku_module_test.py]: the module [M] of [test_basic], called by
    [f(x, initializing, rng)]. *)
Definition hk_M (x : value) : traced hk_context value :=
  bind (get_state "n" (VInt 0)) (λ n,
  bind (get_parameter "w" (float 2)) (λ w,
  bind (lift (add n (VInt 1))) (λ n1,
  bind (set_state "n" n1) (λ _,
  lift (mul x w))))).

Definition hk_f : hk_function :=
  Inject.Callable
    [ {| Inject.name := "x"; Inject.kind := Inject.POSITIONAL_OR_KEYWORD |};
      {| Inject.name := "initializing";
         Inject.kind := Inject.POSITIONAL_OR_KEYWORD |};
      {| Inject.name := "rng"; Inject.kind := Inject.POSITIONAL_OR_KEYWORD |} ]
    (λ args kwargs,
       bind (lift (only_declared ["x"; "initializing"; "rng"] kwargs)) (λ _,
       bind (lift (argument 0 "x" args kwargs)) (λ x,
       bind (lift (argument 1 "initializing" args kwargs)) (λ _,
       bind (lift (argument 2 "rng" args kwargs)) (λ _,
       in_module "m" (hk_M x))))))
    None.

(** [linen_module_test.py]: the module [M] of [test_basic]. *)
Definition linen_M : linen_module :=
  Inject.Callable
    [ {| Inject.name := "x"; Inject.kind := Inject.POSITIONAL_OR_KEYWORD |} ]
    (λ args kwargs,
       bind (lift (only_declared ["x"] kwargs)) (λ _,
       bind (lift (argument 0 "x" args kwargs)) (λ x,
       bind (has_variable "batch_stats" "n") (λ initialized,
       bind (variable "batch_stats" "n" (VInt 0)) (λ vn,
       bind (param "w" (float 2)) (λ w,
       bind (if initialized
             then bind (read vn) (λ n,
                  bind (lift (add n (VInt 1))) (write vn))
             else ret tt) (λ _,
       lift (mul x w))))))))
    None.
End Adapters.

(** * Further definitions

    The rest of [elegy/utils.py], and what the further properties are
    stated with. *)

Module MergeKept.
(** [kept a]: whenever [a] merges with a tree [b], both with distinct
    keys in their dicts, the merged tree has distinct keys too and its
    leaves are those of [a] and those of [b], at their paths. *)
Definition kept {V} (a : tree V) : Prop :=
  ∀ b m, Paths.well_formed a = true → Paths.well_formed b = true →
         Merge.merge_params a b = Ok m →
         Paths.well_formed m = true ∧
         ∀ p v, (p, v) ∈ Paths.leaf_paths m ↔
                (p, v) ∈ Paths.leaf_paths a ∨ (p, v) ∈ Paths.leaf_paths b.
End MergeKept.

(** The exceptions of the functions below that [exn] does not have. *)
Inductive builtin_error : Type :=
  | AssertionError
  | AttributeError.

(** ** get_input_args *)

Module InputArgs.
Section get.
Context {A : Type}.

(** The input [x] of a model: a tuple of positional inputs, a dict of
    named inputs, or anything else (an array). *)
Inductive input : Type :=
  | InTuple (xs : list A)
  | InDict (d : PyDict.t string A)
  | InOther (x : A).

(** [get_input_args(x, states=..., initializing=..., training=...)]:
    the pair [(args, apply_kwargs)]. *)
Definition get_input_args (x : input) (states initializing training : A)
    : list A * PyDict.t string A :=
  let '(args, kwargs) :=
    match x with
    | InTuple xs => (xs, [])
    | InDict d => ([], d)
    | InOther x => ([x], [])
    end in
  let apply_kwargs :=
    PyDict.of_items [("states", states);
                     ("initializing", initializing);
                     ("training", training)] in
  let apply_kwargs := PyDict.update apply_kwargs kwargs in
  (args, apply_kwargs).
End get.
Arguments input : clear implicits.
End InputArgs.

(** ** get_parameter *)

Module Collections.
Section collections.
Context {V : Type}.

(** [types.ParameterCollection] at one module: the parameters of each
    collection by name. *)
Definition ParameterCollection : Type :=
  PyDict.t string (PyDict.t string V).

(** The list comprehension of [get_parameter]:
    [[(collection, parameters[name]) for collection, parameters in
      collections.items() if name in parameters]]. *)
Definition named (collections : ParameterCollection) (name : string)
    : list (string * V) :=
  omap (λ item : string * PyDict.t string V,
          (λ v, (item.1, v)) <$> PyDict.get name item.2) collections.

(** [get_parameter(collections, name)]: the collection and the value
    of [types.Parameter(collection=..., value=...)]. *)
Definition get_parameter (collections : ParameterCollection)
    (name : string) : pyres (string * V) :=
  let parameters := named collections name in
  if decide (length parameters = 0) then
    Raise (ValueError "No parameters named")
  else if decide (2 ≤ length parameters) then
    Raise (ValueError "Multiple parameters named")
  else
    match parameters with
    | [(collection, value)] => Ok (collection, value)
    | _ => Raise (ValueError "not enough values to unpack")
    end.
End collections.
End Collections.

(** ** maybe_expand_dims *)

Module ExpandDims.
(** An array: its shape and its elements in row-major order. *)
Record ndarray (A : Type) : Type := { shape : list nat; flat : list A }.
Arguments shape {A} _.
Arguments flat {A} _.

(** [np.prod(a.shape)] *)
Definition prod (s : list nat) : nat := foldr Nat.mul 1 s.

(** [a.ndim] *)
Definition ndim {A} (a : ndarray A) : nat := length (shape a).

(** [a[..., None]]: one more axis of length 1 at the end, the elements
    as they are. *)
Definition new_last_axis {A} (a : ndarray A) : ndarray A :=
  {| shape := shape a ++ [1]; flat := flat a |}.

(** [maybe_expand_dims(a, b)]; the [assert] raises [AssertionError]. *)
Definition maybe_expand_dims {A} (a b : ndarray A)
    : ndarray A * ndarray A + builtin_error :=
  if decide (prod (shape a) = prod (shape b)) then
    let a := if decide (ndim a < ndim b) then new_last_axis a else a in
    let b := if decide (ndim b < ndim a) then new_last_axis b else b in
    inl (a, b)
  else inr AssertionError.
End ExpandDims.

(** ** unwrap_filter *)

Module Unwrap.
(** [types.Parameter]: a value tagged with the collection it belongs
    to. *)
Record Parameter_ (V : Type) : Type :=
  { collection : string; value : V }.
Arguments collection {V} _.
Arguments value {V} _.

Section unwrap.
Context {V : Type}.

(** The loop of [unwrap_filter] over [parameters.items()], with
    [unwrap] for the recursive call. *)
Fixpoint unwrap_items
    (f : Parameter_ V → bool)
    (unwrap : tree (Parameter_ V) → tree V + builtin_error)
    (items : list (segment * tree (Parameter_ V)))
    : list (segment * tree V) + builtin_error :=
  match items with
  | [] => inl []
  | (name, parameter) :: items' =>
      match parameter with
      | TLeaf p =>
          match unwrap_items f unwrap items' with
          | inl outputs =>
              inl (if f p then (name, TLeaf (value p)) :: outputs
                   else outputs)
          | inr e => inr e
          end
      | _ =>
          match unwrap parameter with
          | inl sub =>
              match unwrap_items f unwrap items' with
              | inl outputs => inl ((name, sub) :: outputs)
              | inr e => inr e
              end
          | inr e => inr e
          end
      end
  end.

(** [unwrap_filter(f, parameters)]: the leaves are the values of
    type [types.Parameter]; anything else that is no dict has no
    [items] and raises [AttributeError]. *)
Fixpoint unwrap_filter (f : Parameter_ V → bool)
    (parameters : tree (Parameter_ V)) : tree V + builtin_error :=
  match parameters with
  | TDict d =>
      match unwrap_items f (unwrap_filter f) d with
      | inl outputs => inl (TDict outputs)
      | inr e => inr e
      end
  | _ => inr AttributeError
  end.

(** Structures made of dicts and parameters only, as a tree of
    parameters is. *)
Fixpoint dicts_and_leaves {X} (t : tree X) : bool :=
  match t with
  | TLeaf _ => true
  | TList _ | TTuple _ => false
  | TDict d =>
      forallb (λ item : segment * tree X, dicts_and_leaves item.2) d
  end.

(** What [unwrap_filter] makes of a pair of [leaf_paths]: the value
    under the same path when [f] holds of the parameter, nothing
    otherwise. *)
Definition kept_pair (f : Parameter_ V → bool)
    (pv : Path * Parameter_ V) : option (Path * V) :=
  if f pv.2 then Some (pv.1, value pv.2) else None.

(** What [unwrap_filter] makes of the item [orig] of a dict. *)
Definition unwrapped_item (f : Parameter_ V → bool)
    (orig : tree (Parameter_ V)) (x : tree V) : Prop :=
  match orig with
  | TLeaf p => f p = true ∧ x = TLeaf (value p)
  | _ => unwrap_filter f orig = inl x
  end.

(** [unwraps f t]: [unwrap_filter] returns on [t], when [t] is a dict
    of dicts and parameters, and the leaves of what it returns are
    the kept leaves. *)
Definition unwraps (f : Parameter_ V → bool)
    (t : tree (Parameter_ V)) : Prop :=
  dicts_and_leaves t = true →
  match t with
  | TLeaf _ => True
  | _ => ∃ r, unwrap_filter f t = inl r ∧
              Paths.leaf_paths r
                = omap (kept_pair f) (Paths.leaf_paths t)
  end.
End unwrap.
End Unwrap.

(** ** [lower_snake_case]

    A [str] of ASCII characters is a [string]; class names are. *)

Module SnakeCase.
Import Stdlib.Strings.Ascii.

(** [[A-Z]] *)
Definition is_upper (c : ascii) : bool :=
  let n := N_of_ascii c in (65 <=? n)%N && (n <=? 90)%N.

(** One character of [s.lower()], for an ASCII character. *)
Definition lower_char (c : ascii) : ascii :=
  if is_upper c then ascii_of_N (N_of_ascii c + 32) else c.

Definition is_ascii (c : ascii) : bool := (N_of_ascii c <? 128)%N.

Fixpoint all_chars (P : ascii → bool) (s : string) : bool :=
  match s with
  | EmptyString => true
  | String c s' => P c && all_chars P s'
  end.

(** [re.sub(r"(?<!^)(?=[A-Z])", "_", s)]: an underscore goes before
    every capital letter that is not the first character. *)
Fixpoint insert_underscores (at_start : bool) (s : string) : string :=
  match s with
  | EmptyString => EmptyString
  | String c s' =>
      if negb at_start && is_upper c
      then String "_" (String c (insert_underscores false s'))
      else String c (insert_underscores false s')
  end.

(** [s.lower()] *)
Fixpoint lower (s : string) : string :=
  match s with
  | EmptyString => EmptyString
  | String c s' => String (lower_char c) (lower s')
  end.

(** [s.split("_")] *)
Fixpoint split (s : string) : list string :=
  match s with
  | EmptyString => [EmptyString]
  | String c s' =>
      if decide (c = "_"%char) then EmptyString :: split s'
      else match split s' with
           | part :: parts => String c part :: parts
           | [] => [String c EmptyString]
           end
  end.

(** [output_parts[-1] += part]. The loop reaches it after its first
    round only, which appends: [output_parts] is not empty then. *)
Fixpoint add_to_last (output_parts : list string) (part : string)
    : list string :=
  match output_parts with
  | [] => []
  | [x] => [x +:+ part]
  | x :: rest => x :: add_to_last rest part
  end.

(** The loop over [range(len(parts))], at [parts[i:]]; [prev] is
    [parts[i - 1]], and [None] when [i == 0]. *)
Fixpoint merge_short (prev : option string) (parts : list string)
    (output_parts : list string) : list string :=
  match parts with
  | [] => output_parts
  | part :: rest =>
      merge_short (Some part) rest
        (match prev with
         | None => output_parts ++ [part]
         | Some q =>
             if decide (1 < String.length q)
             then output_parts ++ [part]
             else add_to_last output_parts part
         end)
  end.

Definition lower_snake_case (s : string) : string :=
  let s := lower (insert_underscores true s) in
  let parts := split s in
  String.concat "_" (merge_short None parts []).

(** What the properties of [lower_snake_case] are stated with. *)
Definition not_upper (c : ascii) : bool := negb (is_upper c).
Definition not_underscore (c : ascii) : bool :=
  bool_decide (c ≠ "_"%char).
Definition long (s : string) : Prop := 1 < String.length s.

(** The state of the loop: all the parts of [output_parts] but the
    last are long, and the last is long when the previous part is. *)
Definition loop_state (P : ascii → bool) (prev : option string)
    (out : list string) : Prop :=
  Forall (λ part, all_chars P part = true) out ∧
  match prev with
  | None => out = []
  | Some q => ∃ init x, out = init ++ [x] ∧ Forall long init ∧
                         (long q → long x)
  end.
End SnakeCase.

(** * Properties *)

(** ** The unique-name allocator *)

Section unique_name_facts.
Import UniqueName.

Global Instance suffixed_inj name : Inj (=) (=) (suffixed name).
Proof.
  intros i j Hij. unfold suffixed in Hij.
  apply (inj (String.app name)) in Hij.
  apply (inj (String.app "_")) in Hij.
  by apply (inj pretty) in Hij.
Qed.

(** What the loop returns: the first index from [i] on whose suffixed
    name is free. *)
Lemma while_taken_Some fuel names name i j :
  while_taken fuel names name i = Some j →
  i ≤ j ∧ (suffixed name j ∉ names) ∧
  ∀ k, i ≤ k < j → suffixed name k ∈ names.
Proof.
  revert i. induction fuel as [|fuel IH]; intros i Hw; simpl in Hw.
  - discriminate.
  - destruct (decide (suffixed name i ∈ names)) as [Hin|Hout].
    + destruct (IH _ Hw) as (Hle & Hfree & Hbelow).
      split; [lia|]. split; [done|].
      intros k Hk. destruct (decide (k = i)) as [->|Hne]; [done|].
      apply Hbelow. lia.
    + injection Hw as <-. split; [lia|]. split; [done|].
      intros k Hk. lia.
Qed.

(** When the loop gives up, every name it tested is taken. *)
Lemma while_taken_None fuel names name i :
  while_taken fuel names name i = None →
  ∀ k, k ∈ seq i fuel → suffixed name k ∈ names.
Proof.
  revert i. induction fuel as [|fuel IH]; intros i Hw k Hk; simpl in *.
  - by apply elem_of_nil in Hk.
  - destruct (decide (suffixed name i ∈ names)) as [Hin|Hout]; [|done].
    apply elem_of_cons in Hk as [->|Hk]; [done|]. by apply (IH (S i)).
Qed.

(** The loop ends within [S (size names)] tests: the suffixed names are
    pairwise distinct, so they cannot all lie in [names]. *)
Lemma while_taken_enough fuel names name i :
  size names < fuel → is_Some (while_taken fuel names name i).
Proof.
  intros Hfuel.
  destruct (while_taken fuel names name i) as [j|] eqn:Hw; [by eexists|].
  exfalso.
  pose proof (while_taken_None _ _ _ _ Hw) as Hall.
  set (tested := suffixed name <$> seq i fuel).
  assert (Hsub : (list_to_set tested : gset string) ⊆ names).
  { intros s Hs. apply elem_of_list_to_set in Hs.
    apply list_elem_of_fmap in Hs as (k & -> & Hk). by apply Hall. }
  apply subseteq_size in Hsub.
  rewrite size_list_to_set in Hsub.
  - unfold tested in Hsub. rewrite length_fmap, length_seq in Hsub. lia.
  - apply NoDup_fmap_2; [apply _|apply NoDup_seq].
Qed.

End unique_name_facts.

(** C4.  [get_unique_name] always returns; it returns the candidate itself
    when the candidate is unused, and otherwise the candidate with the
    smallest suffix [_1], [_2], ... that is not in the set; the returned
    name was free and is added to the set; and the candidates
    ["a"; "a"; "a"] fed in turn to one initially empty set come back as
    ["a"; "a_1"; "a_2"]. *)
Theorem get_unique_name_spec :
  (∀ (names : gset string) (name : string),
     ∃ r, UniqueName.get_unique_name names name = Some ({[r]} ∪ names, r) ∧
          (r ∉ names) ∧
          (((name ∉ names) ∧ r = name) ∨
           (name ∈ names ∧
            ∃ i, 1 ≤ i ∧ r = UniqueName.suffixed name i ∧
                 ∀ k, 1 ≤ k < i → UniqueName.suffixed name k ∈ names))) ∧
  snd <$> UniqueName.feed ∅ ["a"; "a"; "a"] = Some ["a"; "a_1"; "a_2"].
Proof.
  split; [|vm_compute; reflexivity].
  intros names name. unfold UniqueName.get_unique_name.
  destruct (decide (name ∈ names)) as [Hin|Hout].
  - destruct (while_taken_enough (S (size names)) names name 1) as [i Hi];
      [lia|].
    rewrite Hi. simpl.
    apply while_taken_Some in Hi as (Hle & Hfree & Hbelow).
    exists (UniqueName.suffixed name i). split; [done|]. split; [done|].
    right. split; [done|]. by exists i.
  - exists name. split; [done|]. split; [done|]. by left.
Qed.

(** ** Induction on nested structures *)

Lemma tree_ind {V} (P : tree V → Prop) :
  (∀ v, P (TLeaf v)) →
  (∀ l, Forall P l → P (TList l)) →
  (∀ l, Forall P l → P (TTuple l)) →
  (∀ d, Forall (λ item, P item.2) d → P (TDict d)) →
  ∀ t, P t.
Proof.
  intros Hleaf Hlist Htuple Hdict.
  fix IH 1. intros [v|l|l|d].
  - apply Hleaf.
  - apply Hlist. induction l as [|x l IHl]; constructor; [apply IH|apply IHl].
  - apply Htuple. induction l as [|x l IHl]; constructor; [apply IH|apply IHl].
  - apply Hdict.
    induction d as [|[k x] d IHd]; constructor; [apply IH|apply IHd].
Qed.

(** ** get_path_params *)

Section path_params_facts.
Context {V : Type} (leaf_getitem : V → segment → pyres V).

Import PathParams.
Abbreviation getitem := (PathParams.getitem leaf_getitem).
Abbreviation get_path_params := (PathParams.get_path_params leaf_getitem).
Abbreviation reaches := (PathParams.reaches leaf_getitem).
Abbreviation fails_at := (PathParams.fails_at leaf_getitem).

Lemma get_path_params_reaches path params x :
  reaches params path x → get_path_params path params = Ok (Some x).
Proof.
  induction 1 as [t|t key t' path x Hget _ IH]; simpl; [done|].
  by rewrite Hget.
Qed.

Lemma get_path_params_fails path params :
  fails_at params path → get_path_params path params = Ok None.
Proof.
  intros (before & key & after & t & e & -> & Hreach & Hfail).
  induction Hreach as [t|t k t' path x Hget _ IH]; simpl.
  - by rewrite Hfail.
  - rewrite Hget. by apply IH.
Qed.

Lemma reaches_or_fails path params :
  (∃ x, reaches params path x) ∨ fails_at params path.
Proof.
  revert params. induction path as [|key path IH]; intros params.
  - left. exists params. constructor.
  - destruct (getitem params key) as [t'|e] eqn:Hget.
    + destruct (IH t') as [[x Hx]|Hf].
      * left. exists x. by econstructor.
      * right. destruct Hf as (before & k & after & t & e & -> & Hr & Hf).
        exists (key :: before), k, after, t, e.
        split; [done|]. split; [by econstructor|done].
    + right. exists [], key, path, params, e.
      split; [done|]. split; [constructor|done].
Qed.
End path_params_facts.

(** C10.  [get_path_params] never raises: for every path and every
    structure it returns; the result is the value reached by indexing
    with each segment in order when every lookup succeeds, and [None] as
    soon as a segment fails to index (whatever the exception), and one of
    the two is always the case. *)
Theorem get_path_params_total {V} (leaf_getitem : V → segment → pyres V)
    (path : Path) (params : tree V) :
  (∃ r, PathParams.get_path_params leaf_getitem path params = Ok r) ∧
  (∀ x, PathParams.reaches leaf_getitem params path x →
        PathParams.get_path_params leaf_getitem path params = Ok (Some x)) ∧
  (PathParams.fails_at leaf_getitem params path →
        PathParams.get_path_params leaf_getitem path params = Ok None) ∧
  ((∃ x, PathParams.reaches leaf_getitem params path x) ∨
   PathParams.fails_at leaf_getitem params path).
Proof.
  pose proof (reaches_or_fails leaf_getitem path params) as Hcases.
  split; [|split; [|split]].
  - destruct Hcases as [[x Hx]|Hf].
    + exists (Some x). by apply get_path_params_reaches.
    + exists None. by apply get_path_params_fails.
  - intros x. apply get_path_params_reaches.
  - apply get_path_params_fails.
  - exact Hcases.
Qed.

(** ** Paths of leaves *)

Section flat_map_facts.
Context {A B : Type}.

Lemma flat_mapi_ext (f g : nat → A → list B) i l :
  Forall (λ x, ∀ j, f j x = g j x) l →
  flat_mapi f i l = flat_mapi g i l.
Proof.
  intros Hall. revert i.
  induction Hall as [|x l Hx _ IH]; intros i; simpl; [done|].
  by rewrite Hx, IH.
Qed.

Lemma flat_map_ext_Forall (f g : A → list B) l :
  Forall (λ x, f x = g x) l → flat_map f l = flat_map g l.
Proof.
  induction 1 as [|x l Hx _ IH]; simpl; [done|]. by rewrite Hx, IH.
Qed.

Lemma elem_of_flat_mapi (f : nat → A → list B) i l y :
  y ∈ flat_mapi f i l ↔ ∃ j x, l !! j = Some x ∧ y ∈ f (i + j) x.
Proof.
  revert i. induction l as [|x l IH]; intros i; simpl.
  - split; [by intros ?%elem_of_nil|by intros (j & x & ? & _)].
  - rewrite elem_of_app, IH. split.
    + intros [Hy|(j & x' & Hj & Hy)].
      * exists 0, x. by rewrite Nat.add_0_r.
      * exists (S j), x'. split; [done|].
        by replace (i + S j) with (S i + j) by lia.
    + intros ([|j] & x' & Hj & Hy); simpl in Hj.
      * injection Hj as <-. left. by rewrite Nat.add_0_r in Hy.
      * right. exists j, x'. split; [done|].
        by replace (S i + j) with (i + S j) by lia.
Qed.

Lemma elem_of_flat_map (f : A → list B) l y :
  y ∈ flat_map f l ↔ ∃ x, x ∈ l ∧ y ∈ f x.
Proof.
  rewrite list_elem_of_In, in_flat_map.
  by setoid_rewrite list_elem_of_In.
Qed.
Lemma fmap_flat_mapi {C} (h : B → C) (f : nat → A → list B) i l :
  h <$> flat_mapi f i l = flat_mapi (λ j x, h <$> f j x) i l.
Proof.
  revert i. induction l as [|x l IH]; intros i; simpl; [done|].
  by rewrite fmap_app, IH.
Qed.

Lemma fmap_flat_map {C} (h : B → C) (f : A → list B) l :
  h <$> flat_map f l = flat_map (λ x, h <$> f x) l.
Proof.
  induction l as [|x l IH]; simpl; [done|]. by rewrite fmap_app, IH.
Qed.
End flat_map_facts.

Section leaf_paths_facts.
Context {V : Type}.
Import Paths.
Implicit Types (t : tree V) (p : Path) (v : V).
Implicit Types (l : list (tree V)) (d : list (segment * tree V)).

Lemma under_nil (ps : list (Path * V)) : under [] <$> ps = ps.
Proof.
  induction ps as [|[p v] ps IH]; [done|]. by rewrite fmap_cons, IH.
Qed.

Lemma under_app pre pre' (ps : list (Path * V)) :
  under (pre ++ pre') <$> ps = under pre <$> (under pre' <$> ps).
Proof.
  rewrite <- list_fmap_compose. apply list_fmap_ext.
  intros _ [p v] _. unfold under. simpl. by rewrite app_assoc.
Qed.

(** The path handed down by the caller is a prefix of every path
    yielded. *)
Lemma _leaf_paths_under pre t :
  _leaf_paths pre t = under pre <$> leaf_paths t.
Proof.
  unfold leaf_paths. revert pre.
  induction t as [v|l IH|l IH|d IH] using tree_ind; intros pre; simpl.
  - unfold under. simpl. by rewrite app_nil_r.
  - rewrite fmap_flat_mapi. apply flat_mapi_ext.
    eapply Forall_impl; [exact IH|]. intros x Hx j. simpl in Hx.
    rewrite (Hx (pre ++ _)), (Hx [SInt _]). apply under_app.
  - rewrite fmap_flat_mapi. apply flat_mapi_ext.
    eapply Forall_impl; [exact IH|]. intros x Hx j. simpl in Hx.
    rewrite (Hx (pre ++ _)), (Hx [SInt _]). apply under_app.
  - rewrite fmap_flat_map. apply flat_map_ext_Forall.
    eapply Forall_impl; [exact IH|]. intros [k x] Hx. simpl in *.
    rewrite (Hx (pre ++ _)), (Hx [k]). apply under_app.
Qed.

Lemma leaf_paths_list l :
  leaf_paths (TList l) =
  flat_mapi (λ i x, under [SInt (Z.of_nat i)] <$> leaf_paths x) 0 l.
Proof.
  unfold leaf_paths at 1. simpl. apply flat_mapi_ext, Forall_forall.
  intros x _ j. apply _leaf_paths_under.
Qed.

Lemma leaf_paths_tuple l : leaf_paths (TTuple l) = leaf_paths (TList l).
Proof. done. Qed.

Lemma leaf_paths_dict d :
  leaf_paths (TDict d) =
  flat_map (λ item, under [item.1] <$> leaf_paths item.2) d.
Proof.
  unfold leaf_paths at 1. simpl. apply flat_map_ext_Forall, Forall_forall.
  intros [k x] _. apply _leaf_paths_under.
Qed.

(** The pairs of [leaf_paths] are the leaves, each with one segment per
    level above it. *)
Lemma elem_of_leaf_paths t p v :
  (p, v) ∈ leaf_paths t ↔
  ∃ levels, leaf_at t levels v ∧ p = segment_of <$> levels.
Proof.
  revert p. induction t as [w|l IH|l IH|d IH] using tree_ind; intros p.
  - unfold leaf_paths. simpl. rewrite list_elem_of_singleton. split.
    + intros [= -> ->]. exists []. split; [constructor|done].
    + intros (levels & Hat & ->). by inversion Hat.
  - rewrite leaf_paths_list, elem_of_flat_mapi. split.
    + intros (j & x & Hj & Hin).
      apply list_elem_of_fmap in Hin as ([p' v'] & [= -> ->] & Hin).
      rewrite Forall_forall in IH.
      apply (IH x) in Hin as (levels & Hat & ->);
        [|by eapply list_elem_of_lookup_2].
      exists (AtIndex j :: levels). split; [by econstructor|done].
    + intros (levels & Hat & ->). inversion Hat as [|? i x lv ? Hi Hx| |];
        subst.
      exists i, x. split; [done|]. apply list_elem_of_fmap.
      exists (segment_of <$> lv, v). split; [done|].
      rewrite Forall_forall in IH. apply IH;
        [by eapply list_elem_of_lookup_2|by exists lv].
  - rewrite leaf_paths_tuple, leaf_paths_list, elem_of_flat_mapi. split.
    + intros (j & x & Hj & Hin).
      apply list_elem_of_fmap in Hin as ([p' v'] & [= -> ->] & Hin).
      rewrite Forall_forall in IH.
      apply (IH x) in Hin as (levels & Hat & ->);
        [|by eapply list_elem_of_lookup_2].
      exists (AtIndex j :: levels). split; [by econstructor|done].
    + intros (levels & Hat & ->). inversion Hat as [| |? i x lv ? Hi Hx|];
        subst.
      exists i, x. split; [done|]. apply list_elem_of_fmap.
      exists (segment_of <$> lv, v). split; [done|].
      rewrite Forall_forall in IH. apply IH;
        [by eapply list_elem_of_lookup_2|by exists lv].
  - rewrite leaf_paths_dict, elem_of_flat_map. split.
    + intros ([k x] & Hkx & Hin). simpl in Hin.
      apply list_elem_of_fmap in Hin as ([p' v'] & [= -> ->] & Hin).
      rewrite Forall_forall in IH.
      apply (IH (k, x)) in Hin as (levels & Hat & ->); [|done].
      exists (AtKey k :: levels). split; [by econstructor|done].
    + intros (levels & Hat & ->). inversion Hat as [| | |? k x lv ? Hkx Hx];
        subst.
      exists (k, x). split; [done|]. apply list_elem_of_fmap.
      exists (segment_of <$> lv, v). split; [done|].
      rewrite Forall_forall in IH. apply (IH (k, x)); [done|by exists lv].
Qed.
End leaf_paths_facts.

Section flatten_names_facts.
Context {V : Type}.
Import Paths.
Implicit Types (t : tree V) (p : Path) (v : V).
Implicit Types (l : list (tree V)) (d : list (segment * tree V)).

Lemma _flatten_names_under pre t :
  _flatten_names pre t = under pre <$> name_paths t.
Proof.
  unfold name_paths. revert pre.
  induction t as [v|l IH|l IH|d IH] using tree_ind; intros pre; simpl.
  - unfold under. simpl. by rewrite app_nil_r.
  - rewrite fmap_flat_mapi. apply flat_mapi_ext.
    eapply Forall_impl; [exact IH|]. intros x Hx j. simpl in Hx.
    rewrite (Hx pre), (Hx []). by rewrite under_nil.
  - rewrite fmap_flat_mapi. apply flat_mapi_ext.
    eapply Forall_impl; [exact IH|]. intros x Hx j. simpl in Hx.
    rewrite (Hx pre), (Hx []). by rewrite under_nil.
  - rewrite fmap_flat_map. apply flat_map_ext_Forall.
    eapply Forall_impl; [exact IH|]. intros [k x] Hx. simpl in *.
    rewrite (Hx (pre ++ _)), (Hx [k]). apply under_app.
Qed.

Lemma name_paths_dict d :
  name_paths (TDict d) =
  flat_map (λ item, under [item.1] <$> name_paths item.2) d.
Proof.
  unfold name_paths at 1. simpl. apply flat_map_ext_Forall, Forall_forall.
  intros [k x] _. apply _flatten_names_under.
Qed.

(** The pairs of [_flatten_names] are the leaves, each with the dict
    keys above it: a list or tuple level leaves no segment. *)
Lemma elem_of_name_paths t p v :
  (p, v) ∈ name_paths t ↔
  ∃ levels, leaf_at t levels v ∧ p = omap key_of levels.
Proof.
  revert p. induction t as [w|l IH|l IH|d IH] using tree_ind; intros p.
  - unfold name_paths. simpl. rewrite list_elem_of_singleton. split.
    + intros [= -> ->]. exists []. split; [constructor|done].
    + intros (levels & Hat & ->). by inversion Hat.
  - unfold name_paths. simpl. rewrite elem_of_flat_mapi.
    rewrite Forall_forall in IH. split.
    + intros (j & x & Hj & Hin).
      apply (IH x) in Hin as (levels & Hat & ->);
        [|by eapply list_elem_of_lookup_2].
      exists (AtIndex j :: levels). split; [by econstructor|done].
    + intros (levels & Hat & ->). inversion Hat as [|? i x lv ? Hi Hx| |];
        subst.
      exists i, x. split; [done|]. simpl.
      apply IH; [by eapply list_elem_of_lookup_2|by exists lv].
  - unfold name_paths. simpl. rewrite elem_of_flat_mapi.
    rewrite Forall_forall in IH. split.
    + intros (j & x & Hj & Hin).
      apply (IH x) in Hin as (levels & Hat & ->);
        [|by eapply list_elem_of_lookup_2].
      exists (AtIndex j :: levels). split; [by econstructor|done].
    + intros (levels & Hat & ->). inversion Hat as [| |? i x lv ? Hi Hx|];
        subst.
      exists i, x. split; [done|]. simpl.
      apply IH; [by eapply list_elem_of_lookup_2|by exists lv].
  - rewrite name_paths_dict, elem_of_flat_map.
    rewrite Forall_forall in IH. split.
    + intros ([k x] & Hkx & Hin). simpl in Hin.
      apply list_elem_of_fmap in Hin as ([p' v'] & [= -> ->] & Hin).
      apply (IH (k, x)) in Hin as (levels & Hat & ->); [|done].
      exists (AtKey k :: levels). split; [by econstructor|done].
    + intros (levels & Hat & ->). inversion Hat as [| | |? k x lv ? Hkx Hx];
        subst.
      exists (k, x). split; [done|]. apply list_elem_of_fmap.
      exists (omap key_of lv, v). split; [done|].
      apply (IH (k, x)); [done|by exists lv].
Qed.

Lemma elem_of_flatten_names t (s : string) v :
  (s, v) ∈ flatten_names t ↔
  ∃ levels, leaf_at t levels v ∧ s = join_path (omap key_of levels).
Proof.
  unfold flatten_names. rewrite list_elem_of_fmap. split.
  - intros ([p v'] & [= -> ->] & Hin).
    apply elem_of_name_paths in Hin as (levels & Hat & ->). by exists levels.
  - intros (levels & Hat & ->). exists (omap key_of levels, v).
    split; [done|]. apply elem_of_name_paths. by exists levels.
Qed.
End flatten_names_facts.

(** C3, as the code has it.  In [leaf_paths] every leaf comes with one
    segment per level of nesting, the integer index for a list or tuple
    element and the key for a dict entry.  In [flatten_names], the
    display form, the segments joined with ["/"] are the dict keys only:
    a list or tuple level contributes no segment. *)
Theorem path_segments_spec {V} (t : tree V) (v : V) :
  (∀ p : Path,
     (p, v) ∈ Paths.leaf_paths t ↔
     ∃ levels, Paths.leaf_at t levels v ∧ p = Paths.segment_of <$> levels) ∧
  (∀ s : string,
     (s, v) ∈ Paths.flatten_names t ↔
     ∃ levels, Paths.leaf_at t levels v ∧
               s = Paths.join_path (omap Paths.key_of levels)).
Proof.
  split; intros ?; [apply elem_of_leaf_paths|apply elem_of_flatten_names].
Qed.

(** C3 as stated fails on [flatten_names]: for the list [[7]] the leaf's
    path is [(0,)], which joins to ["0"], and the display form is the
    empty string. *)
Lemma flatten_names_skips_index :
  Paths.leaf_paths (TList [TLeaf 7%nat]) = [([SInt 0], 7%nat)] ∧
  Paths.flatten_names (TList [TLeaf 7%nat]) = [("", 7%nat)] ∧
  Paths.flatten_names (TList [TLeaf 7%nat]) ≠
    (λ pv, (Paths.join_path pv.1, pv.2))
      <$> Paths.leaf_paths (TList [TLeaf 7%nat]).
Proof. by vm_compute. Qed.

(** ** Flattening and unflattening *)

Section dict_facts.
Context {K : Type} `{EqDecision K} {A : Type}.
Implicit Types (d : PyDict.t K A) (k : K).

Lemma keys_app d d' : PyDict.keys (d ++ d') = PyDict.keys d ++ PyDict.keys d'.
Proof. apply fmap_app. Qed.

Lemma get_None d k : PyDict.get k d = None ↔ k ∉ PyDict.keys d.
Proof.
  induction d as [|[k' v] d IH]; simpl.
  - split; [intros _; apply not_elem_of_nil|done].
  - rewrite not_elem_of_cons. destruct (decide (k = k')) as [->|Hne].
    + split; [done|by intros [? _]].
    + rewrite IH. tauto.
Qed.

Lemma get_Some_elem_of d k x : PyDict.get k d = Some x → (k, x) ∈ d.
Proof.
  induction d as [|[k' v] d IH]; simpl; [done|].
  destruct (decide (k = k')) as [->|Hne].
  - intros [= ->]. apply list_elem_of_here.
  - intros Hget. apply list_elem_of_further. by apply IH.
Qed.

Lemma elem_of_get d k x : PyDict.wf d → (k, x) ∈ d → PyDict.get k d = Some x.
Proof.
  unfold PyDict.wf. induction d as [|[k' v] d IH]; simpl.
  - by intros _ ?%elem_of_nil.
  - rewrite NoDup_cons. intros [Hk' Hnd] Hin.
    apply elem_of_cons in Hin as [[= -> ->]|Hin].
    + by rewrite decide_True.
    + rewrite decide_False; [by apply IH|].
      intros ->. apply Hk'. apply list_elem_of_fmap. by exists (k', x).
Qed.

Lemma get_app_last d k x :
  k ∉ PyDict.keys d → PyDict.get k (d ++ [(k, x)]) = Some x.
Proof.
  induction d as [|[k' v] d IH]; simpl.
  - intros _. by rewrite decide_True.
  - rewrite not_elem_of_cons. intros [Hne Hk].
    rewrite decide_False by done. by apply IH.
Qed.

Lemma set_fresh d k x :
  k ∉ PyDict.keys d → PyDict.set k x d = d ++ [(k, x)].
Proof.
  induction d as [|[k' v] d IH]; simpl; [done|].
  rewrite not_elem_of_cons. intros [Hne Hk].
  rewrite decide_False by done. by rewrite IH.
Qed.

Lemma set_app_last d k x y :
  k ∉ PyDict.keys d → PyDict.set k y (d ++ [(k, x)]) = d ++ [(k, y)].
Proof.
  induction d as [|[k' v] d IH]; simpl.
  - intros _. by rewrite decide_True.
  - rewrite not_elem_of_cons. intros [Hne Hk].
    rewrite decide_False by done. by rewrite IH.
Qed.
End dict_facts.

Section unflatten_facts.
Context {V : Type}.
Import Paths.
Implicit Types (t : tree V) (p : Path) (v : V) (k : segment).
Implicit Types (l : list (tree V)) (d : list (segment * tree V)).
Implicit Types (ps : list (Path * V)).

Lemma unflatten_into_app t ps ps' :
  unflatten_into t (ps ++ ps') = unflatten_into (unflatten_into t ps) ps'.
Proof. apply foldl_app. Qed.

(** Pairs under the key [k] keep rewriting the item of [k], once it is
    the last item of the dict. *)
Lemma unflatten_into_last k d t ps :
  k ∉ PyDict.keys d →
  unflatten_into (TDict (d ++ [(k, t)])) (under [k] <$> ps) =
  TDict (d ++ [(k, unflatten_into t ps)]).
Proof.
  intros Hk. revert t. induction ps as [|[p v] ps IH]; intros t; [done|].
  rewrite fmap_cons. unfold unflatten_into at 1. simpl.
  rewrite get_app_last, set_app_last by done. simpl. apply IH.
Qed.

(** The first pair under a key the dict does not have appends the key. *)
Lemma unflatten_into_fresh k d ps :
  ps ≠ [] → k ∉ PyDict.keys d →
  unflatten_into (TDict d) (under [k] <$> ps) =
  TDict (d ++ [(k, unflatten ps)]).
Proof.
  intros Hne Hk. destruct ps as [|[p v] ps]; [done|].
  rewrite fmap_cons. unfold unflatten_into at 1. simpl.
  apply get_None in Hk as Hget. rewrite Hget, set_fresh by done. simpl.
  apply (unflatten_into_last k d _ ps Hk).
Qed.

Lemma unflatten_into_dict acc d :
  NoDup (PyDict.keys acc ++ PyDict.keys d) →
  unflatten_into (TDict acc) (leaf_paths (TDict d)) =
  TDict (acc ++ rebuilt d).
Proof.
  rewrite leaf_paths_dict. revert acc.
  induction d as [|[k x] d IH]; intros acc Hnd; simpl.
  - by rewrite app_nil_r.
  - rewrite unflatten_into_app.
    assert (Hk : k ∉ PyDict.keys acc).
    { apply NoDup_app in Hnd as (_ & Hdis & _). intros Hin.
      apply (Hdis k Hin). apply list_elem_of_here. }
    destruct (leaf_paths x) as [|pv ps] eqn:Hx.
    + simpl. apply IH.
      rewrite NoDup_app in Hnd |- *. destruct Hnd as (Ha & Hdis & Hd).
      split; [done|]. split.
      * intros k' Hin Hin'. apply (Hdis k' Hin). by apply list_elem_of_further.
      * by apply NoDup_cons in Hd as [_ ?].
    + rewrite unflatten_into_fresh by done.
      rewrite IH; [by rewrite <- app_assoc|].
      rewrite keys_app. simpl. rewrite <- app_assoc. exact Hnd.
Qed.

Lemma unflatten_dict d :
  NoDup (PyDict.keys d) →
  unflatten (leaf_paths (TDict d)) = TDict (rebuilt d).
Proof. intros Hnd. by apply (unflatten_into_dict [] d). Qed.

Lemma leaf_paths_rebuilt d :
  Forall (λ item, leaf_paths (unflatten (leaf_paths item.2))
                  = leaf_paths item.2) d →
  leaf_paths (TDict (rebuilt d)) = leaf_paths (TDict d).
Proof.
  rewrite !leaf_paths_dict.
  induction 1 as [|[k x] d Hx _ IH]; [done|]. simpl in *.
  rewrite flat_map_app, IH. f_equal.
  destruct (leaf_paths x) as [|pv ps] eqn:Hlp; [done|].
  simpl. by rewrite Hx, app_nil_r.
Qed.

(** A list or tuple has the pairs of the dict of its positions. *)
Lemma leaf_paths_enumerate l :
  leaf_paths (TList l) = leaf_paths (TDict (enumerate 0 l)).
Proof.
  rewrite leaf_paths_list, leaf_paths_dict. generalize 0.
  induction l as [|x l IH]; intros i; simpl; [done|]. by rewrite IH.
Qed.

Lemma keys_enumerate i l :
  PyDict.keys (enumerate i l) = (λ j, SInt (Z.of_nat j)) <$> seq i (length l).
Proof.
  revert i. induction l as [|x l IH]; intros i; simpl; [done|].
  f_equal. apply IH.
Qed.

Lemma NoDup_keys_enumerate i l : NoDup (PyDict.keys (enumerate i l)).
Proof.
  rewrite keys_enumerate. apply NoDup_fmap_2; [|apply NoDup_seq].
  intros j j' [= Hj]. lia.
Qed.

Lemma Forall_enumerate (P : tree V → Prop) i l :
  Forall P l → Forall (λ item, P item.2) (enumerate i l).
Proof.
  intros Hall. revert i.
  induction Hall as [|x l Hx _ IH]; intros i; simpl; constructor; auto.
Qed.

Lemma flatten_unflatten_flatten t :
  well_formed t = true →
  leaf_paths (unflatten (leaf_paths t)) = leaf_paths t.
Proof.
  induction t as [v|l IH|l IH|d IH] using tree_ind; simpl; intros Hwf.
  - done.
  - rewrite leaf_paths_enumerate.
    rewrite unflatten_dict by apply NoDup_keys_enumerate.
    apply leaf_paths_rebuilt.
    apply (Forall_enumerate
      (λ x, leaf_paths (unflatten (leaf_paths x)) = leaf_paths x)).
    rewrite forallb_forall in Hwf. rewrite Forall_forall in IH |- *.
    intros x Hx. apply IH; [done|]. by apply Hwf, list_elem_of_In.
  - rewrite leaf_paths_tuple, leaf_paths_enumerate.
    rewrite unflatten_dict by apply NoDup_keys_enumerate.
    apply leaf_paths_rebuilt.
    apply (Forall_enumerate
      (λ x, leaf_paths (unflatten (leaf_paths x)) = leaf_paths x)).
    rewrite forallb_forall in Hwf. rewrite Forall_forall in IH |- *.
    intros x Hx. apply IH; [done|]. by apply Hwf, list_elem_of_In.
  - apply andb_prop in Hwf as [Hnd Hwf]. apply bool_decide_eq_true in Hnd.
    rewrite unflatten_dict by done. apply leaf_paths_rebuilt.
    rewrite forallb_forall in Hwf. rewrite Forall_forall in IH |- *.
    intros item Hitem. apply IH; [done|]. by apply Hwf, list_elem_of_In.
Qed.

Lemma dicts_only_has_leaf t : dicts_only t = true → leaf_paths t ≠ [].
Proof.
  induction t as [v|l IH|l IH|d IH] using tree_ind; simpl; try done.
  intros Hd. apply andb_prop in Hd as [Hne Hd].
  apply bool_decide_eq_true in Hne.
  destruct d as [|[k x] d]; [done|]. simpl in Hd.
  apply andb_prop in Hd as [Hx _]. apply Forall_cons in IH as [IHx _].
  rewrite leaf_paths_dict. simpl. intros Happ.
  apply app_eq_nil in Happ as [Hnil _]. apply fmap_nil_inv in Hnil.
  by apply (IHx Hx).
Qed.

Lemma rebuilt_id d :
  Forall (λ item, leaf_paths item.2 ≠ [] ∧
                  unflatten (leaf_paths item.2) = item.2) d →
  rebuilt d = d.
Proof.
  induction 1 as [|[k x] d [Hne Hx] _ IH]; [done|]. simpl in Hne, Hx.
  change (rebuilt ((k, x) :: d)) with
    (match leaf_paths x with
     | [] => []
     | ps => [(k, unflatten ps)]
     end ++ rebuilt d).
  rewrite IH. destruct (leaf_paths x) as [|pv ps] eqn:Hlp; [done|].
  by rewrite Hx.
Qed.

Lemma unflatten_flatten_dicts_only t :
  well_formed t = true → dicts_only t = true →
  unflatten (leaf_paths t) = t.
Proof.
  induction t as [v|l IH|l IH|d IH] using tree_ind; simpl; try done.
  intros Hwf Hd.
  apply andb_prop in Hwf as [Hnd Hwf]. apply bool_decide_eq_true in Hnd.
  apply andb_prop in Hd as [_ Hd].
  rewrite unflatten_dict by done. f_equal. apply rebuilt_id.
  rewrite forallb_forall in Hwf, Hd. rewrite Forall_forall in IH |- *.
  intros item Hitem. apply list_elem_of_In in Hitem as Hin. split.
  - by apply dicts_only_has_leaf, Hd.
  - apply IH; [done|by apply Hwf|by apply Hd].
Qed.
End unflatten_facts.

(** C2, as the code has it.  For every nested structure of dicts (with
    pairwise distinct keys), lists and tuples, flattening what
    [unflatten] rebuilds from the structure's pairs gives the same pairs
    in the same order; and [unflatten] rebuilds the structure itself
    from its pairs when the structure is the empty dict or is made of
    leaves and non-empty dicts only. *)
Theorem flatten_unflatten_roundtrip {V} (t : tree V) :
  Paths.well_formed t = true →
  Paths.leaf_paths (Paths.unflatten (Paths.leaf_paths t))
    = Paths.leaf_paths t ∧
  (Paths.dicts_only t = true ∨ t = TDict [] →
   Paths.unflatten (Paths.leaf_paths t) = t).
Proof.
  intros Hwf. split.
  - by apply flatten_unflatten_flatten.
  - intros [Hd| ->]; [by apply unflatten_flatten_dicts_only|done].
Qed.

Lemma flatten_unflatten_roundtrip_witness :
  let t : tree nat :=
    TDict [(SStr "a", TList [TLeaf 1; TTuple []; TLeaf 2]);
           (SStr "b", TDict [(SInt 0, TLeaf 3)])] in
  Paths.well_formed t = true ∧
  Paths.leaf_paths (Paths.unflatten (Paths.leaf_paths t))
    = Paths.leaf_paths t.
Proof.
  split; [by vm_compute|].
  apply (flatten_unflatten_roundtrip
    (TDict [(SStr "a", TList [TLeaf 1; TTuple []; TLeaf 2]);
            (SStr "b", TDict [(SInt 0, TLeaf 3)])])).
  by vm_compute.
Defined.

(** C2 as stated fails: a list and a tuple of the same items have the
    same pairs, so no function whatever rebuilds every structure from
    its pairs. *)
Lemma leaf_paths_forgets_structure :
  ¬ ∃ rebuild : list (Path * nat) → tree nat,
      ∀ t, rebuild (Paths.leaf_paths t) = t.
Proof.
  intros [rebuild Hre].
  pose proof (Hre (TList [TLeaf 1])) as Hl.
  pose proof (Hre (TTuple [TLeaf 1])) as Ht.
  rewrite leaf_paths_tuple, Hl in Ht. discriminate.
Qed.

(** ** merge_params *)

Section merge_facts.
Context {V : Type}.
Import Merge.
Implicit Types (a b m : tree V) (p : Path) (k : segment).
Implicit Types (la lb lm : list (tree V)).
Implicit Types (da db dm : list (segment * tree V)).

Lemma raises_Raise {A} (e : exn) : raises (@Raise A e).
Proof. by exists e. Qed.

Lemma not_raises_Ok {A} (x : A) : ¬ raises (Ok x).
Proof. by intros [e ?]. Qed.

Lemma zip_settled la lb :
  Forall (λ a, ∀ b, settled a b) la →
  length la = length lb →
  (raises (zip_with_raising merge_params la lb) ∧
   ∃ i x y p, la !! i = Some x ∧ lb !! i = Some y ∧ conflict_at p x y) ∨
  (∃ lm, zip_with_raising merge_params la lb = Ok lm ∧
         Forall3 merged la lb lm ∧
         ∀ i x y p, la !! i = Some x → lb !! i = Some y →
                    ¬ conflict_at p x y).
Proof.
  intros Hall. revert lb.
  induction Hall as [|a la Ha _ IH]; intros [|b lb] Hlen; try done.
  - right. exists []. split; [done|]. split; [constructor|].
    by intros i x y p ?.
  - simpl. injection Hlen as Hlen.
    destruct (Ha b) as [[[e He] (p & Hp)]|(m & Hm & Hmerged & Hfree)].
    { left. rewrite He. split; [apply raises_Raise|].
      by exists 0, a, b, p. }
    rewrite Hm. simpl.
    destruct (IH lb Hlen)
      as [[[e He] (i & x & y & p & Hx & Hy & Hp)]
         |(lm & Hlm & Hall3 & Hfree')].
    { left. rewrite He. split; [apply raises_Raise|].
      by exists (S i), x, y, p. }
    right. rewrite Hlm. exists (m :: lm). split; [done|].
    split; [by constructor|].
    intros [|i] x y p Hx Hy; simpl in Hx, Hy.
    + injection Hx as <-. injection Hy as <-. apply Hfree.
    + by eapply Hfree'.
Qed.

Lemma items_settled db da :
  Forall (λ item, ∀ b, settled item.2 b) da →
  (raises (merge_items merge_params db da) ∧
   ∃ k x y p, (k, x) ∈ da ∧ PyDict.get k db = Some y ∧
              conflict_at p x y) ∨
  (∃ dm, merge_items merge_params db da = Ok dm ∧
         Forall2 (item_merged db) da dm).
Proof.
  induction 1 as [|[k x] da Hx _ IH]; simpl.
  - right. exists []. by split; [|constructor].
  - simpl in Hx.
    assert (Hhead :
      (raises (match PyDict.get k db with
               | None => Ok x
               | Some vb => merge_params x vb
               end) ∧
       ∃ y p, PyDict.get k db = Some y ∧ conflict_at p x y) ∨
      (∃ z, match PyDict.get k db with
            | None => Ok x
            | Some vb => merge_params x vb
            end = Ok z ∧ item_merged db (k, x) (k, z))).
    { unfold item_merged. simpl. destruct (PyDict.get k db) as [y|].
      - destruct (Hx y) as [[Hr (p & Hp)]|(m & Hm & Hmerged & Hfree)].
        + left. split; [done|]. by exists y, p.
        + right. by exists m.
      - right. by exists x. }
    destruct Hhead as [[[e He] (y & p & Hy & Hp)]|(z & Hz & Hitem)].
    { left. rewrite He. split; [apply raises_Raise|].
      exists k, x, y, p. split; [apply list_elem_of_here|done]. }
    rewrite Hz. simpl.
    destruct IH as [[[e He] (k' & x' & y & p & Hin & Hy & Hp)]
                   |(dm & Hdm & Hall2)].
    { left. rewrite He. split; [apply raises_Raise|].
      exists k', x', y, p. split; [by apply list_elem_of_further|done]. }
    right. rewrite Hdm. exists ((k, z) :: dm). split; [done|].
    by constructor.
Qed.

(** Lookups in [da] and in the items made from it go in step. *)
Lemma get_items_merged db da dm k :
  Forall2 (item_merged db) da dm →
  match PyDict.get k da with
  | None => PyDict.get k dm = None
  | Some x => ∃ z, PyDict.get k dm = Some z ∧ item_merged db (k, x) (k, z)
  end.
Proof.
  induction 1 as [|[k1 x] [k2 z] da dm [Hk Hitem] _ IH]; simpl; [done|].
  simpl in Hk, Hitem. subst k2.
  destruct (decide (k = k1)) as [->|Hne]; [|done].
  exists z. by split.
Qed.

Lemma get_app da db k :
  PyDict.get k (da ++ db) =
  match PyDict.get k da with
  | Some x => Some x
  | None => PyDict.get k db
  end.
Proof.
  induction da as [|[k' x] da IH]; simpl; [done|].
  by destruct (decide (k = k')).
Qed.

Lemma get_filter_not_in (ks : list segment) db k :
  PyDict.get k (filter (λ item, item.1 ∉ ks) db) =
  if decide (k ∈ ks) then None else PyDict.get k db.
Proof.
  induction db as [|[k' y] db IH]; simpl.
  - by destruct (decide (k ∈ ks)).
  - rewrite filter_cons. simpl.
    destruct (decide (k' ∉ ks)) as [Hout|Hin]; simpl.
    + destruct (decide (k = k')) as [->|Hne]; [|done].
      by rewrite decide_False.
    + rewrite IH. destruct (decide (k = k')) as [->|Hne]; [|done].
      apply dec_stable in Hin. by repeat case_decide.
Qed.
Lemma merge_params_settled a :
  Paths.well_formed a = true → ∀ b, settled a b.
Proof.
  induction a as [v|la IH|la IH|da IH] using tree_ind; intros Hwf b.
  - left. split; [destruct b; apply raises_Raise|].
    exists []. constructor. by destruct b.
  - simpl in Hwf. destruct b as [w|lb|lb|db];
      try (left; split; [apply raises_Raise|];
           exists []; by constructor).
    unfold settled. simpl.
    destruct (decide (length la ≠ length lb)) as [Hlen|Hlen].
    { left. split; [apply raises_Raise|]. exists []. by constructor. }
    apply dec_stable in Hlen.
    destruct (zip_settled la lb)
      as [[[e He] (i & x & y & p & Hx & Hy & Hp)]
         |(lm & Hlm & Hall3 & Hfree)]; [|done| |].
    { rewrite forallb_forall in Hwf. rewrite Forall_forall in IH |- *.
      intros x Hx. apply IH; [done|]. by apply Hwf, list_elem_of_In. }
    + left. rewrite He. split; [apply raises_Raise|].
      exists (SInt (Z.of_nat i) :: p). by econstructor.
    + right. rewrite Hlm. exists (TList lm). split; [done|].
      split; [by constructor|].
      intros p Hp. inversion Hp as [?? Hinc| |i ? ? ? x y Hx Hy Hxy|];
        subst; [done|]. by eapply Hfree.
  - simpl in Hwf. destruct b as [w|lb|lb|db];
      try (left; split; [apply raises_Raise|];
           exists []; by constructor).
    unfold settled. simpl.
    destruct (decide (length la ≠ length lb)) as [Hlen|Hlen].
    { left. split; [apply raises_Raise|]. exists []. by constructor. }
    apply dec_stable in Hlen.
    destruct (zip_settled la lb)
      as [[[e He] (i & x & y & p & Hx & Hy & Hp)]
         |(lm & Hlm & Hall3 & Hfree)]; [|done| |].
    { rewrite forallb_forall in Hwf. rewrite Forall_forall in IH |- *.
      intros x Hx. apply IH; [done|]. by apply Hwf, list_elem_of_In. }
    + left. rewrite He. split; [apply raises_Raise|].
      exists (SInt (Z.of_nat i) :: p). by econstructor.
    + right. rewrite Hlm. exists (TTuple lm). split; [done|].
      split; [by constructor|].
      intros p Hp. inversion Hp as [?? Hinc| | |i ? ? ? x y Hx Hy Hxy];
        subst; [done|]. by eapply Hfree.
  - simpl in Hwf. apply andb_prop in Hwf as [Hnd Hwf].
    apply bool_decide_eq_true in Hnd.
    destruct b as [w|lb|lb|db];
      try (left; split; [apply raises_Raise|];
           exists []; by constructor).
    unfold settled. simpl.
    destruct (items_settled db da)
      as [[[e He] (k & x & y & p & Hin & Hy & Hp)]|(dm & Hdm & Hall2)].
    { rewrite forallb_forall in Hwf. rewrite Forall_forall in IH |- *.
      intros item Hitem. apply IH; [done|]. by apply Hwf, list_elem_of_In. }
    + left. rewrite He. split; [apply raises_Raise|].
      exists (k :: p). econstructor; [|done..]. by apply elem_of_get.
    + right. rewrite Hdm. simpl. eexists. split; [done|].
      assert (Hget : ∀ k,
        PyDict.get k (dm ++ filter (λ item, item.1 ∉ PyDict.keys da) db) =
        match PyDict.get k dm with
        | Some z => Some z
        | None => if decide (k ∈ PyDict.keys da) then None
                  else PyDict.get k db
        end).
      { intros k. by rewrite get_app, get_filter_not_in. }
      split.
      * constructor.
        -- intros k x Hx Hy. rewrite Hget.
           pose proof (get_items_merged db da dm k Hall2) as Hk.
           rewrite Hx in Hk. destruct Hk as (z & -> & _ & Hz).
           simpl in Hz. rewrite Hy in Hz. by rewrite Hz.
        -- intros k y Hx Hy. rewrite Hget.
           pose proof (get_items_merged db da dm k Hall2) as Hk.
           rewrite Hx in Hk. rewrite Hk. apply get_None in Hx.
           by rewrite decide_False.
        -- intros k x y Hx Hy. rewrite Hget.
           pose proof (get_items_merged db da dm k Hall2) as Hk.
           rewrite Hx in Hk. destruct Hk as (z & -> & _ & Hz).
           simpl in Hz. rewrite Hy in Hz. exists z. by destruct Hz.
        -- intros k Hx Hy. rewrite Hget.
           pose proof (get_items_merged db da dm k Hall2) as Hk.
           rewrite Hx in Hk. rewrite Hk. by case_decide.
      * intros p Hp. inversion Hp as [?? Hinc|k ? ? ? x y Hx Hy Hxy| |];
          subst; [done|].
        pose proof (get_items_merged db da dm k Hall2) as Hk.
        rewrite Hx in Hk. destruct Hk as (z & _ & _ & Hz).
        simpl in Hz. rewrite Hy in Hz. destruct Hz as [_ Hfree].
        by eapply Hfree.
Qed.
End merge_facts.

(** C6.  For a tree [a] whose dicts have distinct keys and any tree [b],
    [merge_params a b] raises exactly when the two are incompatible at
    some shared path: two lists or two tuples of different lengths, or
    two values that fit none of the rules dict with dict, list with list,
    tuple with tuple.  Otherwise it returns a merged tree: it has every
    key of both, what only one tree has is taken from it, what both have
    is merged in the same way. *)
Theorem merge_params_spec {V} (a b : tree V) :
  Paths.well_formed a = true →
  (raises (Merge.merge_params a b) ↔ ∃ p, Merge.conflict_at p a b) ∧
  ((¬ ∃ p, Merge.conflict_at p a b) →
   ∃ m, Merge.merge_params a b = Ok m ∧ Merge.merged a b m).
Proof.
  intros Hwf.
  destruct (merge_params_settled a Hwf b)
    as [[Hr Hc]|(m & Hm & Hmerged & Hfree)].
  - split; [done|]. by intros [].
  - split.
    + split.
      * rewrite Hm. by intros ?%not_raises_Ok.
      * intros [p Hp]. by destruct (Hfree p).
    + intros _. by exists m.
Qed.

Lemma merge_params_spec_witness :
  let a : tree nat :=
    TDict [(SStr "x", TDict [(SStr "a", TLeaf 1)]); (SStr "l", TList [])] in
  let b : tree nat :=
    TDict [(SStr "x", TDict [(SStr "a", TLeaf 2)]); (SStr "y", TLeaf 3)] in
  Paths.well_formed a = true ∧
  (raises (Merge.merge_params a b) ↔ ∃ p, Merge.conflict_at p a b).
Proof.
  split; [by vm_compute|].
  apply (merge_params_spec
    (TDict [(SStr "x", TDict [(SStr "a", TLeaf 1)]); (SStr "l", TList [])])
    (TDict [(SStr "x", TDict [(SStr "a", TLeaf 2)]); (SStr "y", TLeaf 3)])).
  by vm_compute.
Defined.

(** Two dicts that share the key [x] without a conflict under it.  The
    keys of the result stand in the order of the model; in Python the
    result is this dict up to the order of its keys. *)
Example merge_params_disjoint :
  Merge.merge_params
    (TDict [(SStr "x", TDict [(SStr "a", TLeaf 1%nat)]); (SStr "l", TList [])])
    (TDict [(SStr "x", TDict [(SStr "b", TLeaf 2%nat)]); (SStr "y", TLeaf 3%nat)])
  = Ok (TDict [(SStr "x", TDict [(SStr "a", TLeaf 1%nat);
                                 (SStr "b", TLeaf 2%nat)]);
               (SStr "l", TList []); (SStr "y", TLeaf 3%nat)]).
Proof. by vm_compute. Qed.

Example merge_params_same_leaf :
  Merge.merge_params (TDict [(SStr "w", TLeaf 1%nat)])
                     (TDict [(SStr "w", TLeaf 1%nat)])
  = Raise (ValueError "Cannot merge structs").
Proof. by vm_compute. Qed.


(** ** merge_with_unique_names *)

Section merge_names_facts.
Context {A : Type}.
Import MergeNames.
Implicit Types (d da db : PyDict.t string A) (h : store A).
Implicit Types (names : gset string).

Lemma get_unique_name_unused names (name : string) :
  name ∉ names →
  UniqueName.get_unique_name names name = Some ({[name]} ∪ names, name).
Proof.
  intros Hout. unfold UniqueName.get_unique_name. by rewrite decide_False.
Qed.

(** With keys that are pairwise distinct and unused so far, no name is
    suffixed: the loop is [output.update(b)]. *)
Lemma assign_unique_update (output : ref) db names h d :
  h !! output = Some d →
  PyDict.wf db →
  (∀ k, k ∈ PyDict.keys db → k ∉ names) →
  ∃ names',
    assign_unique output db names h =
    Some (names', <[output := PyDict.update d db]> h).
Proof.
  unfold PyDict.wf. revert names h d.
  induction db as [|[name value] db IH]; intros names h d Hout Hnd Hfree.
  - exists names. unfold PyDict.update. simpl. by rewrite list_insert_id.
  - simpl in Hnd. apply NoDup_cons in Hnd as [Hname Hnd].
    cbn [assign_unique]. rewrite get_unique_name_unused
      by (apply Hfree, list_elem_of_here).
    simpl. rewrite Hout. simpl.
    assert (Hlen : output < length h) by by eapply lookup_lt_Some.
    destruct (IH ({[name]} ∪ names)
                 (<[output := PyDict.set name value d]> h)
                 (PyDict.set name value d)) as [names' ->].
    + by apply list_lookup_insert_eq.
    + done.
    + intros k Hk. apply not_elem_of_union. split.
      * apply not_elem_of_singleton. by intros ->.
      * apply Hfree. by apply list_elem_of_further.
    + exists names'. by rewrite list_insert_insert_eq.
Qed.

Lemma _merge_with_unique_names_update (a b : ref) h da db :
  h !! a = Some da → h !! b = Some db → PyDict.wf db →
  _merge_with_unique_names a b h =
  Some (length h, h ++ [PyDict.update da db]).
Proof.
  intros Ha Hb Hwf. unfold _merge_with_unique_names, new_dict.
  rewrite Ha. simpl.
  rewrite (lookup_app_l_Some _ _ _ _ Hb). simpl.
  destruct (assign_unique_update (length h) db ∅ (h ++ [da]) da)
    as [names' ->]; [|done| |].
  - by rewrite lookup_app_r, Nat.sub_diag.
  - intros k _. apply not_elem_of_empty.
  - simpl. do 2 f_equal.
    rewrite insert_app_r_alt, Nat.sub_diag by done. done.
Qed.

(** The references of [rest] are read in the store as it was at the
    call; the dicts made on the way come after them. *)
Lemma merge_rest_update (rest : list ref) (dbs : list (PyDict.t string A))
    h0 extra (a : ref) da :
  Forall2 (λ b db, h0 !! b = Some db) rest dbs →
  Forall PyDict.wf dbs →
  (h0 ++ extra) !! a = Some da →
  ∃ out extra',
    merge_rest a rest (h0 ++ extra) = Some (out, h0 ++ extra') ∧
    (h0 ++ extra') !! out = Some (foldl PyDict.update da dbs) ∧
    (length h0 ≤ a → length h0 ≤ out).
Proof.
  intros Hrest. revert extra a da.
  induction Hrest as [|b db rest dbs Hb _ IH]; intros extra a da Hwf Ha.
  - exists a, extra. by simpl.
  - apply Forall_cons in Hwf as [Hdb Hwf]. simpl.
    rewrite (_merge_with_unique_names_update a b _ da db);
      [|done|by apply lookup_app_l_Some|done].
    simpl. rewrite <- app_assoc.
    destruct (IH (extra ++ [PyDict.update da db]) (length (h0 ++ extra))
                 (PyDict.update da db) Hwf)
        as (out & extra' & -> & Hout & Hle).
    + rewrite app_assoc. by rewrite lookup_app_r, Nat.sub_diag.
    + exists out, extra'. split; [done|]. split; [done|].
      intros _. apply Hle. rewrite length_app. lia.
Qed.
End merge_names_facts.

(** C9.  When every dict of [rest] has pairwise distinct keys, as every
    dict has, [merge_with_unique_names(a, *rest)] returns a new dict that
    is [a] updated with the dicts of [rest] from left to right, so that a
    later value replaces an earlier one under the same key and no name is
    suffixed; the dicts that were in the store at the call, the
    arguments among them, are as they were. *)
Theorem merge_with_unique_names_is_update {A}
    (h : MergeNames.store A) (a : MergeNames.ref) (rest : list MergeNames.ref)
    (da : PyDict.t string A) (dbs : list (PyDict.t string A)) :
  h !! a = Some da →
  Forall2 (λ b db, h !! b = Some db) rest dbs →
  Forall PyDict.wf dbs →
  ∃ out h',
    MergeNames.merge_with_unique_names a rest h = Some (out, h') ∧
    h' !! out = Some (foldl PyDict.update da dbs) ∧
    length h ≤ out ∧
    ∀ r d, h !! r = Some d → h' !! r = Some d.
Proof.
  intros Ha Hrest Hwf. unfold MergeNames.merge_with_unique_names.
  rewrite Ha. simpl.
  destruct (merge_rest_update rest dbs h [da] (length h) da Hrest Hwf)
    as (out & extra' & Hm & Hout & Hle).
  { by rewrite lookup_app_r, Nat.sub_diag. }
  exists out, (h ++ extra'). split; [done|]. split; [done|].
  split; [by apply Hle|].
  intros r d Hr. by apply lookup_app_l_Some.
Qed.

Lemma merge_with_unique_names_is_update_witness :
  ∃ out h',
    MergeNames.merge_with_unique_names 0 [1]
      [[("x", 1); ("y", 2)]; [("x", 3); ("z", 4)]] = Some (out, h') ∧
    h' !! out = Some (foldl PyDict.update [("x", 1); ("y", 2)]
                                          [[("x", 3); ("z", 4)]]) ∧
    length [[("x", 1); ("y", 2)]; [("x", 3); ("z", 4)]] ≤ out ∧
    ∀ r d, [[("x", 1); ("y", 2)]; [("x", 3); ("z", 4)]] !! r = Some d →
           h' !! r = Some d.
Proof.
  apply (merge_with_unique_names_is_update
    [[("x", 1); ("y", 2)]; [("x", 3); ("z", 4)]] 0 [1]
    [("x", 1); ("y", 2)] [[("x", 3); ("z", 4)]]).
  - reflexivity.
  - repeat constructor.
  - repeat constructor; apply (bool_decide_unpack _); by vm_compute.
Defined.

(** A later dict's value takes the place of an earlier one under the same
    key, where the key stands; nothing is renamed. *)
Example merge_with_unique_names_overwrites :
  MergeNames.merge_with_unique_names 0 [1]
    [[("x", 1); ("y", 2)]; [("x", 3); ("z", 4)]]
  = Some (3, [[("x", 1); ("y", 2)]; [("x", 3); ("z", 4)];
              [("x", 1); ("y", 2)]; [("x", 3); ("y", 2); ("z", 4)]]).
Proof. by vm_compute. Qed.

(** ** inject_dependencies *)

Section inject_facts.
Context {A R : Type}.
Import Inject.
Implicit Types (kwargs acc : PyDict.t string A) (k : string).
Implicit Types (f : callable A R) (arg_names kwarg_names : list string).

Lemma get_set {K} `{EqDecision K} {B} (d : PyDict.t K B) (k k' : K) v :
  PyDict.get k (PyDict.set k' v d) =
  if decide (k = k') then Some v else PyDict.get k d.
Proof.
  induction d as [|[k1 v1] d IH]; simpl.
  - by destruct (decide (k = k')).
  - destruct (decide (k' = k1)) as [->|Hne]; simpl.
    + by destruct (decide (k = k1)).
    + rewrite IH. destruct (decide (k = k1)) as [->|]; [|done].
      by rewrite decide_False.
Qed.

Lemma get_remove {K} `{EqDecision K} {B} (d : PyDict.t K B) (k k' : K) :
  PyDict.wf d →
  PyDict.get k (PyDict.remove k' d) =
  if decide (k = k') then None else PyDict.get k d.
Proof.
  unfold PyDict.wf. induction d as [|[k1 v1] d IH]; simpl; intros Hnd.
  - by destruct (decide (k = k')).
  - apply NoDup_cons in Hnd as [Hk1 Hnd].
    destruct (decide (k' = k1)) as [->|Hne]; simpl.
    + destruct (decide (k = k1)) as [->|]; [|done]. by apply get_None.
    + rewrite IH by done. destruct (decide (k = k1)) as [->|]; [|done].
      by rewrite decide_False.
Qed.

(** The comprehension keeps, under each name that is declared past the
    positional arguments, what [kwargs] has under it. *)
Lemma get_declared_only_into arg_names kwarg_names kwargs acc k :
  PyDict.get k (PyDict.update acc
    (omap (λ arg,
       if decide (arg ∉ arg_names)
       then (λ v, (arg, v)) <$> PyDict.get arg kwargs
       else None) kwarg_names)) =
  if decide (k ∈ kwarg_names ∧ k ∉ arg_names)
  then match PyDict.get k kwargs with
       | Some v => Some v
       | None => PyDict.get k acc
       end
  else PyDict.get k acc.
Proof.
  revert acc. induction kwarg_names as [|n names IH]; intros acc.
  - cbn [omap list_omap]. rewrite decide_False; [done|].
    intros [Hin _]. by apply elem_of_nil in Hin.
  - cbn [omap list_omap]. destruct (decide (n ∉ arg_names)) as [Hn|Hn].
    + destruct (PyDict.get n kwargs) as [v|] eqn:Hget; cbn [fmap option_fmap option_map].
      * unfold PyDict.update in *. cbn [foldl fst snd]. rewrite IH, get_set.
        destruct (decide (k = n)) as [->|Hne].
        -- rewrite Hget. rewrite (decide_True (P := n ∈ n :: names ∧ _));
             [|split; [apply list_elem_of_here|done]].
           by destruct (decide (n ∈ names ∧ n ∉ arg_names)).
        -- destruct (decide (k ∈ names ∧ k ∉ arg_names)) as [[? ?]|Hno].
           ++ rewrite decide_True; [done|].
              split; [by apply list_elem_of_further|done].
           ++ rewrite decide_False; [done|]. intros [Hin ?]. apply Hno.
              apply elem_of_cons in Hin as [?|?]; [done|by split].
      * rewrite IH.
        destruct (decide (k ∈ names ∧ k ∉ arg_names)) as [[? ?]|Hno].
        -- rewrite decide_True; [done|].
           split; [by apply list_elem_of_further|done].
        -- destruct (decide (k ∈ n :: names ∧ k ∉ arg_names))
             as [[Hin ?]|]; [|done].
           apply elem_of_cons in Hin as [->|?]; [by rewrite Hget|].
           by destruct Hno.
    + rewrite IH.
      destruct (decide (k ∈ names ∧ k ∉ arg_names)) as [[? ?]|Hno].
      * rewrite decide_True; [done|].
        split; [by apply list_elem_of_further|done].
      * rewrite decide_False; [done|]. intros [Hin ?].
        apply elem_of_cons in Hin as [->|?]; [done|]. by apply Hno.
Qed.

Lemma get_declared_only arg_names kwarg_names kwargs k :
  PyDict.get k (declared_only arg_names kwarg_names kwargs) =
  if decide (k ∈ kwarg_names ∧ k ∉ arg_names)
  then PyDict.get k kwargs
  else None.
Proof.
  unfold declared_only, PyDict.of_items.
  rewrite get_declared_only_into. cbn [PyDict.get].
  case_decide; [|done]. by destruct (PyDict.get k kwargs).
Qed.

(** One renaming [{old: new}]: the value moves from [old] to [new]. *)
Lemma get_rename_one (old new : string) kwargs k :
  PyDict.wf kwargs →
  PyDict.get k (rename_kwargs [(old, new)] kwargs) =
  match PyDict.get old kwargs with
  | Some v => if decide (k = new) then Some v
              else if decide (k = old) then None
              else PyDict.get k kwargs
  | None => PyDict.get k kwargs
  end.
Proof.
  intros Hwf. unfold rename_kwargs. simpl.
  destruct (PyDict.get old kwargs) as [v|]; [|done].
  rewrite get_set. case_decide; [done|]. by apply get_remove.
Qed.






(** Induction along the [_signature_f] attribute. *)
Lemma callable_ind' (P : callable A R → Prop) :
  (∀ ps c, P (Callable ps c None)) →
  (∀ ps c g, P g → P (Callable ps c (Some g))) →
  ∀ f, P f.
Proof.
  intros Hnone Hsome. fix IH 1. intros [ps c [g|]].
  - apply Hsome, IH.
  - apply Hnone.
Qed.





End inject_facts.



(** The target [def f(x, y)], called through the adapter with one
    positional argument and the keywords [a], [z]; [a] is renamed to [y],
    [z] is not declared and is dropped. *)
Example inject_dependencies_drops_undeclared :
  let f : Inject.callable nat (list nat * PyDict.t string nat) :=
    Inject.Callable
      [ {| Inject.name := "x"; Inject.kind := Inject.POSITIONAL_OR_KEYWORD |};
        {| Inject.name := "y"; Inject.kind := Inject.POSITIONAL_OR_KEYWORD |} ]
      (λ args kwargs, (args, kwargs)) None in
  Inject.call (Inject.inject_dependencies f None (Some [("a", "y")]))
    [10] [("a", 1); ("z", 2)]
  = ([10], [("y", 1)]).
Proof. by vm_compute. Qed.

(** The target [def f( *args, y)], called with two positional arguments
    and the keyword [y]: the first two parameters are [args] and [y], so
    [y] counts among the names of the positional arguments and is not
    forwarded. *)
Example inject_dependencies_after_var_positional :
  let f : Inject.callable nat (list nat * PyDict.t string nat) :=
    Inject.Callable
      [ {| Inject.name := "args"; Inject.kind := Inject.VAR_POSITIONAL |};
        {| Inject.name := "y"; Inject.kind := Inject.KEYWORD_ONLY |} ]
      (λ args kwargs, (args, kwargs)) None in
  Inject.call (Inject.inject_dependencies f None None) [1; 2] [("y", 3)]
  = ([1; 2], []).
Proof. by vm_compute. Qed.

(** The target [def f(x, **kw)]: every keyword is forwarded. *)
Example inject_dependencies_var_keyword :
  let f : Inject.callable nat (list nat * PyDict.t string nat) :=
    Inject.Callable
      [ {| Inject.name := "x"; Inject.kind := Inject.POSITIONAL_OR_KEYWORD |};
        {| Inject.name := "kw"; Inject.kind := Inject.VAR_KEYWORD |} ]
      (λ args kwargs, (args, kwargs)) None in
  Inject.call (Inject.inject_dependencies f None None)
    [10] [("x", 1); ("z", 2)]
  = ([10], [("x", 1); ("z", 2)]).
Proof. by vm_compute. Qed.

(** ** Sizes in the summary *)

(** *** Conversions and quotients of sizes, to half a unit of the last place *)

Section rounding_facts.
Local Open Scope Z_scope.
Import Rounding.

Lemma digits2_pos_size p : digits2_pos p = Pos.size p.
Proof. induction p as [p IH|p IH|]; simpl; by rewrite ?IH. Qed.

Lemma pos_lt_pow_digits p : Z.pos p < 2 ^ Z.pos (digits2_pos p).
Proof.
  rewrite digits2_pos_size. pose proof (Pos.size_gt p) as H.
  apply Pos2Z.pos_lt_pos in H. by rewrite Pos2Z.inj_pow in H.
Qed.

Lemma pow_digits_le p : 2 ^ (Z.pos (digits2_pos p) - 1) ≤ Z.pos p.
Proof.
  rewrite digits2_pos_size. pose proof (Pos.size_le p) as H.
  apply Pos2Z.pos_le_pos in H. rewrite Pos2Z.inj_pow in H.
  replace (Z.pos (Pos.size p)) with (Z.pos (Pos.size p) - 1 + 1) in H
    by lia.
  rewrite Z.pow_add_r in H by lia. lia.
Qed.

Lemma Zdigits2_unique m D :
  2 ^ (D - 1) ≤ m < 2 ^ D → 0 < D → Zdigits2 m = D.
Proof.
  intros [Hlo Hhi] HD.
  assert (0 < m) by (pose proof (Z.pow_pos_nonneg 2 (D - 1)); lia).
  destruct m as [|p|p]; try lia. simpl.
  pose proof (pos_lt_pow_digits p) as Hlt.
  pose proof (pow_digits_le p) as Hle.
  set (d := Z.pos (digits2_pos p)) in *.
  destruct (Z.lt_trichotomy d D) as [Hd|[Hd|Hd]]; [|done|].
  - assert (2 ^ d ≤ 2 ^ (D - 1)) by (apply Z.pow_le_mono_r; lia). lia.
  - assert (2 ^ D ≤ 2 ^ (d - 1)) by (apply Z.pow_le_mono_r; lia). lia.
Qed.

Lemma Zdigits2_bounds m :
  0 < m → 2 ^ (Zdigits2 m - 1) ≤ m < 2 ^ Zdigits2 m.
Proof.
  intros Hm. destruct m as [|p|p]; try lia. simpl.
  split; [apply pow_digits_le|apply pos_lt_pow_digits].
Qed.

Lemma half_cases P Q :
  0 ≤ P → 0 < Q →
  (2 * (P `mod` Q) < Q ∧ (2 * P) `div` Q = 2 * (P `div` Q) ∧
   (2 * P) `mod` Q = 2 * (P `mod` Q)) ∨
  (Q ≤ 2 * (P `mod` Q) ∧ (2 * P) `div` Q = 2 * (P `div` Q) + 1 ∧
   (2 * P) `mod` Q = 2 * (P `mod` Q) - Q).
Proof.
  intros HP HQ.
  pose proof (Z.div_mod P Q ltac:(lia)) as Hdm.
  pose proof (Z.mod_pos_bound P Q HQ) as Hb.
  set (m := P `div` Q) in *. set (r := P `mod` Q) in *.
  destruct (Z_lt_le_dec (2 * r) Q) as [Hlt|Hge].
  - left. split; [done|]. split.
    + symmetry. apply (Z.div_unique_pos _ _ _ (2 * r)); lia.
    + symmetry. apply (Z.mod_unique_pos _ _ (2 * m)); lia.
  - right. split; [done|]. split.
    + symmetry. apply (Z.div_unique_pos _ _ _ (2 * r - Q)); lia.
    + symmetry. apply (Z.mod_unique_pos _ _ (2 * m + 1)); lia.
Qed.

Lemma shr_1_eq m r s :
  0 ≤ m →
  shr_1 {| shr_m := m; shr_r := r; shr_s := s |} =
  {| shr_m := m `div` 2; shr_r := Z.odd m; shr_s := r || s |}.
Proof.
  intros Hm. rewrite <- Z.div2_div.
  destruct m as [|[p|p|]|p]; done.
Qed.

Lemma shr_1_stands_for P Q mrs :
  0 ≤ P → 0 < Q →
  stands_for P Q mrs → stands_for P (2 * Q) (shr_1 mrs).
Proof.
  intros HP HQ. destruct mrs as [m r s]. intros (Hm & Hr & Hs).
  simpl in Hm, Hr, Hs. subst m r s. unfold stands_for.
  rewrite shr_1_eq by (apply Z.div_pos; lia). cbn [shr_m shr_r shr_s].
  rewrite Z.div_mul_cancel_l by lia.
  rewrite Z.mul_mod_distr_l by lia.
  split; [by rewrite Z.div_div by lia; rewrite (Z.mul_comm Q 2)|].
  split; [done|].
  destruct (half_cases P Q HP HQ) as [(Hlt & Hd & Hm)|(Hge & Hd & Hm)];
    rewrite Hd, Hm.
  - rewrite Z.odd_mul. simpl.
    destruct (Z.eqb_spec (P `mod` Q) 0) as [->|Hne]; [done|].
    destruct (Z.eqb_spec (2 * (P `mod` Q)) 0); [lia|].
    by destruct (Z.eqb_spec (2 * (P `mod` Q)) 0); [lia|].
  - rewrite Z.odd_add, Z.odd_mul. simpl.
    destruct (Z.eqb_spec (2 * (P `mod` Q)) 0); [lia|done].
Qed.

Lemma iter_shr_1_stands_for n :
  ∀ P Q mrs, 0 ≤ P → 0 < Q →
    stands_for P Q mrs →
    stands_for P (Q * 2 ^ Z.pos n) (SpecFloat.iter_pos shr_1 n mrs).
Proof.
  induction n as [n IH|n IH|]; intros P Q mrs HP HQ Hrep;
    cbn [SpecFloat.iter_pos].
  - assert (0 < 2 ^ Z.pos n) by (apply Z.pow_pos_nonneg; lia).
    replace (Q * 2 ^ Z.pos n~1) with (2 * Q * 2 ^ Z.pos n * 2 ^ Z.pos n).
    { apply IH; [done|nia|]. apply IH; [done|lia|].
      by apply shr_1_stands_for. }
    rewrite (Pos2Z.inj_xI n).
    replace (2 * Z.pos n + 1) with (1 + Z.pos n + Z.pos n) by lia.
    rewrite !Z.pow_add_r by lia. change (2 ^ 1) with 2. ring.
  - assert (0 < 2 ^ Z.pos n) by (apply Z.pow_pos_nonneg; lia).
    replace (Q * 2 ^ Z.pos n~0) with (Q * 2 ^ Z.pos n * 2 ^ Z.pos n).
    { apply IH; [done|nia|]. by apply IH. }
    rewrite (Pos2Z.inj_xO n).
    replace (2 * Z.pos n) with (Z.pos n + Z.pos n) by lia.
    rewrite !Z.pow_add_r by lia. ring.
  - change (2 ^ 1) with 2. rewrite Z.mul_comm.
    by apply shr_1_stands_for.
Qed.

Lemma shr_stands_for P Q mrs e n :
  0 ≤ P → 0 < Q → 0 ≤ n →
  stands_for P Q mrs →
  ∃ mrs', shr mrs e n = (mrs', e + n) ∧ stands_for P (Q * 2 ^ n) mrs'.
Proof.
  intros HP HQ Hn Hrep. destruct n as [|p|p]; [| |lia].
  - exists mrs. simpl. rewrite Z.add_0_r, Z.mul_1_r. done.
  - eexists. split; [done|]. by apply iter_shr_1_stands_for.
Qed.

Lemma located_stands_for P Q m l :
  0 ≤ P → 0 < Q →
  located P Q m l → stands_for P Q (shr_record_of_loc m l).
Proof.
  intros HP HQ [-> ->]. unfold stands_for.
  pose proof (Z.mod_pos_bound P Q HQ) as Hb.
  destruct (half_cases P Q HP HQ) as [(Hlt & Hd & Hm)|(Hge & Hd & Hm)];
    rewrite Hd, Hm.
  - rewrite Z.odd_mul. simpl.
    destruct (Z.eqb_spec (P `mod` Q) 0) as [Hz|Hne].
    + rewrite Hz. done.
    + rewrite (proj2 (Z.compare_lt_iff _ _) Hlt). simpl.
      split; [done|]. split; [done|].
      by destruct (Z.eqb_spec (2 * (P `mod` Q)) 0); [lia|].
  - rewrite Z.odd_add, Z.odd_mul. simpl.
    destruct (Z.eqb_spec (P `mod` Q) 0) as [Hz|Hne]; [lia|].
    destruct (Z.compare_spec (2 * (P `mod` Q)) Q) as [Heq|Hlt|Hgt];
      [|lia|]; simpl; (split; [done|]); (split; [done|]).
    + rewrite Heq, Z.sub_diag. done.
    + by destruct (Z.eqb_spec (2 * (P `mod` Q) - Q) 0); [lia|].
Qed.

Lemma round_nearest_even_correct P Q mrs :
  0 ≤ P → 0 < Q →
  stands_for P Q mrs →
  let z := round_nearest_even (shr_m mrs) (loc_of_shr_record mrs) in
  P `div` Q ≤ z ≤ P `div` Q + 1 ∧ 2 * Z.abs (z * Q - P) ≤ Q.
Proof.
  intros HP HQ. destruct mrs as [m r s]. unfold stands_for. simpl.
  intros (-> & -> & ->).
  pose proof (Z.div_mod P Q ltac:(lia)) as Hdm.
  pose proof (Z.mod_pos_bound P Q HQ) as Hb.
  destruct (half_cases P Q HP HQ) as [(Hlt & Hd & Hm)|(Hge & Hd & Hm)];
    rewrite Hd, Hm.
  - rewrite Z.odd_mul. simpl.
    destruct (Z.eqb_spec (2 * (P `mod` Q)) 0); simpl; lia.
  - rewrite Z.odd_add, Z.odd_mul. simpl.
    destruct (Z.eqb_spec (2 * (P `mod` Q) - Q) 0); simpl.
    + destruct (Z.even (P `div` Q)); lia.
    + lia.
Qed.

Lemma fexp_eq e : fexp 53 1024 e = Z.max (e - 53) (-1074).
Proof. reflexivity. Qed.

Lemma shr_m_of_loc m l : shr_m (shr_record_of_loc m l) = m.
Proof. by destruct l as [|[]]. Qed.

(** Rounding a located rational of at least 53 digits, in the range of
    the normal numbers: the result has a mantissa of 53 digits and is
    within half a unit of its last place. *)
Lemma binary_round_aux_correct sx P Q mx ex lx :
  0 ≤ P → 0 < Q → located P Q mx lx →
  53 ≤ Zdigits2 mx → -1074 ≤ Zdigits2 mx + ex - 53 →
  ∃ m e,
    binary_round_aux 53 1024 sx mx ex lx =
      (if e <=? 971 then S754_finite sx m e else S754_infinity sx) ∧
    2 ^ 52 ≤ Z.pos m < 2 ^ 53 ∧
    (e = Zdigits2 mx + ex - 53 ∨ e = Zdigits2 mx + ex - 52) ∧
    2 * Z.abs (Z.pos m * 2 ^ (e - ex) * Q - P) ≤ 2 ^ (e - ex) * Q.
Proof.
  intros HP HQ Hloc HD Hmin.
  pose proof (proj1 Hloc) as Hmx.
  assert (Hmx0 : 0 < mx).
  { rewrite Hmx in HD |- *.
    assert (0 ≤ P `div` Q) by (apply Z.div_pos; lia).
    destruct (P `div` Q) as [|p|p]; [simpl in HD|..]; lia. }
  set (D := Zdigits2 mx) in *. set (n := D - 53).
  pose proof (Zdigits2_bounds mx Hmx0) as Hdig. fold D in Hdig.
  assert (Hn : 0 ≤ n) by lia.
  assert (Hpn : 0 < 2 ^ n) by (apply Z.pow_pos_nonneg; lia).
  unfold binary_round_aux, shr_fexp. fold D. rewrite fexp_eq.
  replace (Z.max (D + ex - 53) (-1074) - ex) with n by lia.
  destruct (shr_stands_for P Q (shr_record_of_loc mx lx) ex n)
    as (mrs' & Hshr & Hrep'); [done|done|done|by apply located_stands_for|].
  rewrite Hshr.
  pose proof (round_nearest_even_correct P (Q * 2 ^ n) mrs' HP
                ltac:(nia) Hrep') as [Hz Herr].
  set (z := round_nearest_even (shr_m mrs') (loc_of_shr_record mrs')) in *.
  assert (Hm' : 2 ^ 52 ≤ P `div` (Q * 2 ^ n) < 2 ^ 53).
  { rewrite <- Z.div_div by lia. rewrite <- Hmx.
    assert (Hlo : 2 ^ (D - 1) = 2 ^ 52 * 2 ^ n).
    { rewrite <- Z.pow_add_r by lia. f_equal. lia. }
    assert (Hhi : 2 ^ D = 2 ^ 53 * 2 ^ n).
    { rewrite <- Z.pow_add_r by lia. f_equal. lia. }
    split.
    - apply Z.div_le_lower_bound; lia.
    - apply Z.div_lt_upper_bound; lia. }
  rewrite fexp_eq.
  destruct (Z_lt_le_dec z (2 ^ 53)) as [Hlt|Hge].
  - assert (Hdz : Zdigits2 z = 53) by (apply Zdigits2_unique; lia).
    rewrite Hdz.
    replace (Z.max (53 + (ex + n) - 53) (-1074) - (ex + n)) with 0 by lia.
    cbn [shr]. rewrite shr_m_of_loc.
    destruct z as [|m|m] eqn:Hzm; [lia| |lia].
    exists m, (ex + n). change (1024 - 53) with 971.
    split; [done|]. split; [lia|]. split; [left; lia|].
    replace (ex + n - ex) with n by lia.
    rewrite <- Z.mul_assoc, (Z.mul_comm (2 ^ n) Q). done.
  - assert (Hz53 : z = 2 ^ 53) by lia.
    rewrite Hz53 in *.
    change (Zdigits2 (2 ^ 53)) with 54.
    replace (Z.max (54 + (ex + n) - 53) (-1074) - (ex + n)) with 1 by lia.
    exists 4503599627370496%positive, (ex + n + 1).
    change (1024 - 53) with 971. split; [done|]. split; [done|].
    split; [right; lia|].
    replace (ex + n + 1 - ex) with (n + 1) by lia.
    rewrite Z.pow_add_r by lia. change (2 ^ 1) with 2.
    change (Z.pos 4503599627370496) with (2 ^ 52).
    replace (2 ^ 52 * (2 ^ n * 2) * Q) with (2 ^ 53 * (Q * 2 ^ n))
      by (change (2 ^ 53) with (2 ^ 52 * 2); ring).
    lia.
Qed.

Lemma scale_abs A B C K :
  0 < K → 2 * Z.abs (A - B) ≤ C →
  2 * Z.abs (A * K - B * K) ≤ C * K.
Proof.
  intros HK H. replace (A * K - B * K) with ((A - B) * K) by ring.
  rewrite Z.abs_mul, (Z.abs_eq K) by lia. nia.
Qed.

Lemma pos_iter_xO mx d : Z.pos (Pos.iter xO mx d) = Z.pos mx * 2 ^ Z.pos d.
Proof.
  induction d as [|d IH] using Pos.peano_ind.
  - simpl. lia.
  - rewrite Pos.iter_succ, Pos2Z.inj_xO, IH, Pos2Z.inj_succ, Z.pow_succ_r; lia.
Qed.

(** [float(size)] is within half a unit of its last place of [size];
    it is infinite for sizes from [2 ^ 1023] on only. *)
Lemma binary_normalize_int_correct size :
  0 < size →
  ∃ m e,
    binary_normalize 53 1024 size 0 false =
      (if e <=? 971 then S754_finite false m e
       else S754_infinity false) ∧
    2 ^ 52 ≤ Z.pos m < 2 ^ 53 ∧ -52 ≤ e ∧
    (size < 2 ^ 1023 → e ≤ 971) ∧
    2 * Z.abs (Z.pos m * 2 ^ (e + 100) - size * 2 ^ 100) ≤ 2 ^ (e + 100).
Proof.
  intros Hpos. destruct size as [|p|p]; try lia.
  unfold binary_normalize, binary_round.
  pose proof (Zdigits2_bounds (Z.pos p) Hpos) as Hdig. simpl in Hdig.
  set (d := Z.pos (digits2_pos p)) in *.
  assert (Hd : 1 ≤ d) by (subst d; lia).
  assert (Hd' : Z.pos p < 2 ^ 1023 → d ≤ 1023).
  { intros Hsize. destruct (Z_lt_le_dec 1023 d) as [Hgt|]; [|done].
    assert (2 ^ 1023 ≤ 2 ^ (d - 1)) by (apply Z.pow_le_mono_r; lia).
    lia. }
  rewrite fexp_eq. unfold shl_align.
  destruct (Z.max (d + 0 - 53) (-1074) - 0) as [|q|q] eqn:Hq.
  - destruct (binary_round_aux_correct false (Z.pos p) 1 (Z.pos p) 0
                loc_Exact) as (m & e & Hres & Hm & He & Herr);
      [lia|lia| |simpl; fold d; lia|simpl; fold d; lia|].
    { split; [by rewrite Z.div_1_r|]. by rewrite Z.mod_1_r. }
    simpl in He. fold d in He.
    exists m, e. rewrite Hres.
    split; [done|]. split; [done|]. split; [lia|].
    split; [intros Hsize; specialize (Hd' Hsize); lia|].
    rewrite Z.sub_0_r, !Z.mul_1_r in Herr.
    rewrite Z.pow_add_r by lia. rewrite Z.mul_assoc.
    apply scale_abs; [lia|done].
  - destruct (binary_round_aux_correct false (Z.pos p) 1 (Z.pos p) 0
                loc_Exact) as (m & e & Hres & Hm & He & Herr);
      [lia|lia| |simpl; fold d; lia|simpl; fold d; lia|].
    { split; [by rewrite Z.div_1_r|]. by rewrite Z.mod_1_r. }
    simpl in He. fold d in He.
    exists m, e. rewrite Hres.
    split; [done|]. split; [done|]. split; [lia|].
    split; [intros Hsize; specialize (Hd' Hsize); lia|].
    rewrite Z.sub_0_r, !Z.mul_1_r in Herr.
    rewrite Z.pow_add_r by lia. rewrite Z.mul_assoc.
    apply scale_abs; [lia|done].
  - assert (Hqd : Z.pos q = 53 - d) by lia.
    assert (Hpq : 0 < 2 ^ Z.pos q) by (apply Z.pow_pos_nonneg; lia).
    assert (Hmz : 2 ^ 52 ≤ Z.pos (Pos.iter xO p q) < 2 ^ 53).
    { rewrite pos_iter_xO.
      assert (Hlo : 2 ^ 52 = 2 ^ (d - 1) * 2 ^ Z.pos q).
      { rewrite <- Z.pow_add_r by lia. f_equal. lia. }
      assert (Hhi : 2 ^ 53 = 2 ^ d * 2 ^ Z.pos q).
      { rewrite <- Z.pow_add_r by lia. f_equal. lia. }
      rewrite Hlo, Hhi. nia. }
    assert (Hdz : Zdigits2 (Z.pos (Pos.iter xO p q)) = 53)
      by (apply Zdigits2_unique; lia).
    set (ez := Z.max (d + 0 - 53) (-1074)) in *.
    destruct (binary_round_aux_correct false (Z.pos (Pos.iter xO p q)) 1
                (Z.pos (Pos.iter xO p q)) ez loc_Exact)
      as (m & e & Hres & Hm & He & Herr);
      [lia|lia| |rewrite Hdz; lia|rewrite Hdz; lia|].
    { split; [by rewrite Z.div_1_r|]. by rewrite Z.mod_1_r. }
    rewrite Hdz in He.
    exists m, e. rewrite Hres.
    split; [done|]. split; [done|]. split; [lia|]. split; [lia|].
    rewrite !Z.mul_1_r in Herr. rewrite pos_iter_xO in Herr.
    apply (scale_abs _ _ _ (2 ^ (ez + 100))) in Herr;
      [|apply Z.pow_pos_nonneg; lia].
    rewrite <- !Z.mul_assoc, <- !Z.pow_add_r in Herr by lia.
    replace (e - ez + (ez + 100)) with (e + 100) in Herr by lia.
    replace (Z.pos q + (ez + 100)) with 100 in Herr by lia.
    done.
Qed.

Lemma div_eucl_div_mod a b : Z.div_eucl a b = (a `div` b, a `mod` b).
Proof. unfold Z.div, Z.modulo. by destruct (Z.div_eucl a b). Qed.

(** The quotient of two normal floats is within half a unit of its
    last place of the quotient of their values. *)
Lemma SFdiv_correct m e m2 e2 :
  2 ^ 52 ≤ Z.pos m < 2 ^ 53 → 2 ^ 52 ≤ Z.pos m2 < 2 ^ 53 →
  Z.even (Z.pos m2) = true →
  -1021 ≤ e - e2 → e - e2 ≤ 1022 →
  ∃ m3 e3,
    SFdiv 53 1024 (S754_finite false m e) (S754_finite false m2 e2)
      = S754_finite false m3 e3 ∧
    2 ^ 52 ≤ Z.pos m3 < 2 ^ 53 ∧
    e - e2 - 53 ≤ e3 ≤ e - e2 - 51 ∧
    2 * Z.abs (Z.pos m3 * 2 ^ (e3 - (e - e2 - 53)) * Z.pos m2
               - Z.pos m * 2 ^ 53)
      ≤ 2 ^ (e3 - (e - e2 - 53)) * Z.pos m2.
Proof.
  intros Hm Hm2 Heven Hlo Hhi. unfold SFdiv, SFdiv_core_binary.
  rewrite (Zdigits2_unique (Z.pos m) 53) by lia.
  rewrite (Zdigits2_unique (Z.pos m2) 53) by lia.
  rewrite fexp_eq.
  replace (Z.min (Z.max (53 + e - (53 + e2) - 53) (-1074)) (e - e2))
    with (e - e2 - 53) by lia.
  replace (e - e2 - (e - e2 - 53)) with 53 by lia.
  rewrite Z.shiftl_mul_pow2 by lia.
  rewrite div_eucl_div_mod.
  set (P := Z.pos m * 2 ^ 53). set (Q := Z.pos m2).
  assert (Hq : 2 ^ 52 ≤ P `div` Q < 2 ^ 54).
  { subst P Q. split.
    - apply Z.div_le_lower_bound; lia.
    - apply Z.div_lt_upper_bound; lia. }
  assert (HD : 53 ≤ Zdigits2 (P `div` Q) ≤ 54).
  { pose proof (Zdigits2_bounds (P `div` Q) ltac:(lia)) as [Hl Hu].
    set (D := Zdigits2 (P `div` Q)) in *. split.
    - destruct (Z_lt_le_dec D 53) as [Hlt|]; [|done].
      assert (2 ^ D ≤ 2 ^ 52) by (apply Z.pow_le_mono_r; lia). lia.
    - destruct (Z_lt_le_dec 54 D) as [Hgt|]; [|done].
      assert (2 ^ 54 ≤ 2 ^ (D - 1)) by (apply Z.pow_le_mono_r; lia). lia. }
  destruct (binary_round_aux_correct (xorb false false) P Q (P `div` Q)
              (e - e2 - 53) (new_location Q (P `mod` Q)))
    as (m3 & e3 & Hres & Hm3 & He3 & Herr);
    [subst P; lia|subst Q; lia| |lia|lia|].
  { split; [done|]. unfold new_location. subst Q. rewrite Heven.
    done. }
  exists m3, e3. rewrite Hres.
  rewrite (proj2 (Z.leb_le e3 971)) by lia.
  split; [done|]. split; [done|]. split; [lia|done].
Qed.

(** The tenths shown for a float are within half a tenth of it. *)
Lemma tenths_correct m e :
  -100 ≤ e →
  2 * Z.abs (Z.of_N (Float64.tenths m e) * 2 ^ 100
             - 10 * Z.pos m * 2 ^ (e + 100)) ≤ 2 ^ 100.
Proof.
  intros He. unfold Float64.tenths.
  destruct e as [|k|k].
  - rewrite N.mul_1_r. change (0 + 100) with 100.
    rewrite N2Z.inj_mul. simpl Z.of_N.
    replace (10 * Z.pos m * 2 ^ 100 - 10 * Z.pos m * 2 ^ 100) with 0
      by ring. done.
  - rewrite !N2Z.inj_mul, N2Z.inj_pow. simpl Z.of_N.
    rewrite Z.pow_add_r by lia.
    replace (10 * Z.pos m * 2 ^ Z.pos k * 2 ^ 100
             - 10 * Z.pos m * (2 ^ Z.pos k * 2 ^ 100)) with 0 by ring.
    done.
  - set (num := (10 * N.pos m)%N). set (den := (2 ^ N.pos k)%N).
    assert (Hden : Z.of_N den = 2 ^ Z.pos k).
    { subst den. by rewrite N2Z.inj_pow. }
    assert (Hden0 : (0 < den)%N).
    { apply N2Z.inj_lt. rewrite Hden. simpl.
      apply Z.pow_pos_nonneg; lia. }
    pose proof (N.div_mod num den ltac:(lia)) as Hdm.
    pose proof (N.mod_lt num den ltac:(lia)) as Hr.
    set (q := (num `div` den)%N) in *. set (r := (num `mod` den)%N) in *.
    assert (Hpow : 2 ^ 100 = Z.of_N den * 2 ^ (Z.neg k + 100)).
    { rewrite Hden, <- Z.pow_add_r by lia. f_equal. lia. }
    assert (Hk : 0 < 2 ^ (Z.neg k + 100))
      by (apply Z.pow_pos_nonneg; lia).
    assert (Hnum : Z.of_N num = 10 * Z.pos m) by (subst num; lia).
    rewrite Hpow. rewrite <- Hnum.
    set (K := 2 ^ (Z.neg k + 100)) in *.
    assert (Hgoal : ∀ t : N,
      2 * Z.abs (Z.of_N t * Z.of_N den - Z.of_N num) ≤ Z.of_N den →
      2 * Z.abs (Z.of_N t * (Z.of_N den * K) - Z.of_N num * K)
        ≤ Z.of_N den * K).
    { intros t Ht. rewrite Z.mul_assoc. by apply scale_abs. }
    apply Hgoal.
    destruct (N.compare_spec (2 * r) den) as [Heq|Hlt|Hgt].
    + destruct (N.even q); lia.
    + lia.
    + lia.
Qed.

(** [size / T] for a power of ten [T], and the tenths shown for it:
    they are [10 * size / T] up to half a tenth and the rounding of
    the two float operations.  The quotient overflows for sizes from
    [2 ^ 1023] on only. *)
Lemma int_truediv_tenths size T c m2 :
  0 < size → 0 < T → 23 ≤ c ≤ 43 →
  Z.pos m2 = T * 2 ^ c → 2 ^ 52 ≤ Z.pos m2 < 2 ^ 53 →
  match Float64.int_truediv size (S754_finite false m2 (- c)) with
  | Ok q =>
      ∃ m3 e3, q = S754_finite false m3 e3 ∧
               Format.shows (Z.of_N (Float64.tenths m3 e3)) size T
  | Raise err => err = OverflowError ∧ 2 ^ 1023 ≤ size
  end.
Proof.
  intros Hsize HT Hc Hm2eq Hm2.
  assert (Heven : Z.even (Z.pos m2) = true).
  { rewrite Hm2eq.
    replace c with (1 + (c - 1)) by lia.
    rewrite Z.pow_add_r by lia. change (2 ^ 1) with 2.
    rewrite Z.mul_assoc, (Z.mul_comm T 2), <- Z.mul_assoc.
    by rewrite Z.even_mul. }
  unfold Float64.int_truediv, Float64.of_int.
  change Float64.prec with 53. change Float64.emax with 1024.
  destruct (binary_normalize_int_correct size Hsize)
    as (m & e & Hx & Hm & He & Hfin & Herr1).
  rewrite Hx. destruct (Z.leb_spec e 971) as [He971|He971]; cbn [pybind].
  2: { split; [done|]. destruct (Z_lt_le_dec size (2 ^ 1023)); [|done].
       specialize (Hfin ltac:(done)). lia. }
  destruct (SFdiv_correct m e m2 (- c) Hm Hm2 Heven)
    as (m3 & e3 & Hq & Hm3 & He3 & Herr2); [lia|lia|].
  rewrite Hq. exists m3, e3. split; [done|]. unfold Format.shows.
  pose proof (tenths_correct m3 e3 ltac:(lia)) as Herr3.
  set (t := Z.of_N (Float64.tenths m3 e3)) in *.
  set (U := 2 ^ (e + 100)) in *. set (W := 2 ^ (e3 + 100)) in *.
  assert (HU : 0 < U) by (apply Z.pow_pos_nonneg; lia).
  assert (HW : 0 < W) by (apply Z.pow_pos_nonneg; lia).
  set (e' := e - - c - 53) in *.
  assert (EQ1 : 2 ^ (e3 - e') * Z.pos m2 * U = W * T * 2 ^ 53).
  { rewrite Hm2eq. subst U W.
    replace (2 ^ (e3 - e') * (T * 2 ^ c) * 2 ^ (e + 100))
      with (T * (2 ^ (e3 - e') * 2 ^ c * 2 ^ (e + 100))) by ring.
    rewrite <- !Z.pow_add_r by lia.
    replace (e3 - e' + c + (e + 100)) with (e3 + 100 + 53) by lia.
    rewrite Z.pow_add_r by lia. ring. }
  assert (F4 : 2 * Z.abs (Z.pos m3 * W * T - Z.pos m * U) ≤ W * T).
  { apply (scale_abs _ _ _ U) in Herr2; [|done].
    replace (Z.pos m3 * 2 ^ (e3 - e') * Z.pos m2 * U)
      with (Z.pos m3 * (2 ^ (e3 - e') * Z.pos m2 * U)) in Herr2 by ring.
    rewrite EQ1 in Herr2.
    replace (Z.pos m3 * (W * T * 2 ^ 53))
      with (Z.pos m3 * W * T * 2 ^ 53) in Herr2 by ring.
    replace (Z.pos m * 2 ^ 53 * U)
      with (Z.pos m * U * 2 ^ 53) in Herr2 by ring.
    set (X := Z.pos m3 * W * T) in *. set (Y := Z.pos m * U) in *.
    set (Z0 := W * T) in *. lia. }
  assert (F5 : 2 * Z.abs (t * T * 2 ^ 100 - 10 * (Z.pos m3 * W * T))
               ≤ 2 ^ 100 * T).
  { apply (scale_abs _ _ _ T) in Herr3; [|done].
    replace (t * 2 ^ 100 * T) with (t * T * 2 ^ 100) in Herr3 by ring.
    replace (10 * Z.pos m3 * W * T)
      with (10 * (Z.pos m3 * W * T)) in Herr3 by ring.
    done. }
  assert (F1 : 2 ^ 52 * U ≤ Z.pos m * U)
    by (apply Z.mul_le_mono_nonneg_r; lia).
  assert (F3 : 2 ^ 52 * (W * T) ≤ Z.pos m3 * W * T).
  { rewrite <- Z.mul_assoc. apply Z.mul_le_mono_nonneg_r; [|lia].
    apply Z.mul_nonneg_nonneg; lia. }
  assert (HWT : 0 < W * T) by (apply Z.mul_pos_pos; lia).
  set (A := Z.pos m * U) in *. set (BT := Z.pos m3 * W * T) in *.
  set (WT := W * T) in *. set (tT := t * T) in *.
  clearbody A BT WT tT U W. lia.
Qed.
End rounding_facts.

(** *** What the formatted strings say *)

Section format_facts.
Import Stdlib.Strings.Ascii Format.

Lemma is_digit_pretty_N_char x : is_digit (pretty_N_char x) = true.
Proof. unfold pretty_N_char. by repeat case_match. Qed.

Lemma digits_only_pretty_N_go x :
  ∀ s, digits_only s = true → digits_only (pretty_N_go x s) = true.
Proof.
  induction (N.lt_wf_0 x) as [x _ IH]; intros s Hs.
  assert (x = 0 ∨ 0 < x)%N as [->|Hx] by lia.
  - by rewrite pretty_N_go_0.
  - rewrite pretty_N_go_step by done. apply IH; [by apply N.div_lt|].
    simpl. by rewrite is_digit_pretty_N_char.
Qed.

Lemma digits_only_pretty_N (n : N) : digits_only (pretty n) = true.
Proof.
  unfold pretty, pretty_N. case_decide; [done|].
  by apply digits_only_pretty_N_go.
Qed.

Lemma without_commas_commas s :
  digits_only s = true → without_commas (commas s) = s.
Proof.
  induction s as [|c s IH]; [done|]. cbn [digits_only commas].
  intros [Hc Hs]%andb_prop. cbn [without_commas].
  destruct (decide (c = ","%char)) as [->|Hne]; [done|].
  f_equal. case_bool_decide; [|by apply IH].
  change ("," +:+ commas s) with (String ","%char (commas s)).
  cbn [without_commas]. rewrite decide_True by done. by apply IH.
Qed.

Lemma without_commas_format_int (size : Z) :
  without_commas (format_int size) = pretty size.
Proof.
  destruct size as [|p|p]; unfold format_int.
  - done.
  - rewrite without_commas_commas by apply digits_only_pretty_N. done.
  - change ("-" +:+ commas (pretty (N.pos p)))
      with (String "-"%char (commas (pretty (N.pos p)))).
    cbn [without_commas]. rewrite decide_False by done.
    rewrite without_commas_commas by apply digits_only_pretty_N. done.
Qed.

(** One of the three branches of [format_size] that divide. *)
Lemma format_size_quotient (size T c : Z) m2 (units : string) :
  (0 < size)%Z → (0 < T)%Z → (23 ≤ c ≤ 43)%Z →
  (Z.pos m2 = T * 2 ^ c)%Z → (2 ^ 52 ≤ Z.pos m2 < 2 ^ 53)%Z →
  match
    pybind
      (pybind (Float64.int_truediv size (S754_finite false m2 (- c)))
         (λ q, Ok (format_float_1 q, units)))
      (λ '(count, units),
         Ok ("[dim]" +:+ count +:+ " " +:+ units +:+ "[/dim]"))
  with
  | Ok s =>
      ∃ count,
        s = "[dim]" +:+ count +:+ " " +:+ units +:+ "[/dim]" ∧
        ∃ (whole : string) (w d : N),
          count = whole +:+ "." +:+ pretty d ∧
          without_commas whole = pretty w ∧ (d < 10)%N ∧
          shows (Z.of_N (10 * w + d)) size T
  | Raise e => e = OverflowError ∧ (2 ^ 1023 ≤ size)%Z
  end.
Proof.
  intros Hsize HT Hc Hm2eq Hm2.
  pose proof (int_truediv_tenths size T c m2 Hsize HT Hc Hm2eq Hm2) as Hq.
  destruct (Float64.int_truediv size (S754_finite false m2 (- c)))
    as [q|err]; cbn [pybind]; [|done].
  destruct Hq as (m3 & e3 & -> & Hshows).
  eexists. split; [done|]. cbn [format_float_1 sign String.append].
  set (t := Float64.tenths m3 e3) in *.
  exists (commas (pretty (t `div` 10)%N)), (t `div` 10)%N, (t `mod` 10)%N.
  split; [done|].
  split; [by apply without_commas_commas, digits_only_pretty_N|].
  split; [by apply N.mod_lt|].
  by rewrite <- (N.div_mod t 10).
Qed.
End format_facts.

Example format_size_examples :
  Format.format_size 20 = Ok "[dim]20 B[/dim]" ∧
  Format.format_size 1000 = Ok "[dim]1,000 B[/dim]" ∧
  Format.format_size 1001 = Ok "[dim]1.0 KB[/dim]" ∧
  Format.format_size 1050 = Ok "[dim]1.1 KB[/dim]" ∧
  Format.format_size 1150 = Ok "[dim]1.1 KB[/dim]" ∧
  Format.format_size 1250 = Ok "[dim]1.2 KB[/dim]" ∧
  Format.format_size 6000 = Ok "[dim]6.0 KB[/dim]" ∧
  Format.format_size 1000000 = Ok "[dim]1,000.0 KB[/dim]" ∧
  Format.format_size 1234567 = Ok "[dim]1.2 MB[/dim]" ∧
  Format.format_size 1000000001 = Ok "[dim]1.0 GB[/dim]" ∧
  Format.format_size 2500000000000 = Ok "[dim]2,500.0 GB[/dim]" ∧
  Format.format_size (-1234) = Ok "[dim]-1,234 B[/dim]".
Proof. vm_compute. repeat split. Qed.


(** ** The generalized module adapters *)

(** C7.  The module that reads the state [n] (initially 0) and the
    parameter [w] (initially 2.0), sets [n] to [n + 1] and returns
    [x * w]: under the imperative adapter and under the declarative
    adapter alike, [init] called with [x = 3.0] (and a keyword [y] the
    module does not declare) gives the output 6.0, the parameter
    [w = 2.0] and the state [n = 0]; [apply] with [w] set to 10.0 and the
    states of [init] gives the output 30.0, [w = 10.0] and the state
    [n = 1]. *)
Theorem basic_scenario_both_styles :
  let hk := Adapters.HaikuModule Adapters.hk_f in
  let hk_kwargs :=
    [("x", Adapters.float 3); ("y", Adapters.VInt 1);
     ("rng", Adapters.VNone); ("initializing", Adapters.VBool true)] in
  let ln_kwargs := [("x", Adapters.float 3); ("y", Adapters.VInt 1)] in
  let under_m (k : string) (v : Adapters.value) :=
    TDict [(SStr "m", TDict [(SStr k, TLeaf v)])] in
  let batch_stats (v : Adapters.value) :=
    TDict [(SStr "batch_stats", TDict [(SStr "n", TLeaf v)])] in
  let w (v : Adapters.value) := TDict [(SStr "w", TLeaf v)] in
  Adapters.init hk [] hk_kwargs =
    Ok (Adapters.float 6, under_m "w" (Adapters.float 2),
        under_m "n" (Adapters.VInt 0)) ∧
  Adapters.apply hk (under_m "w" (Adapters.float 10))
      (under_m "n" (Adapters.VInt 0)) [] hk_kwargs =
    Ok (Adapters.float 30, under_m "w" (Adapters.float 10),
        under_m "n" (Adapters.VInt 1)) ∧
  ∃ ln,
    Adapters.generalize
      {| Adapters.as_generalized := None;
         Adapters.as_hk_function := None;
         Adapters.as_linen_module := Some Adapters.linen_M |} = Ok ln ∧
    Adapters.init ln [] ln_kwargs =
      Ok (Adapters.float 6, w (Adapters.float 2),
          batch_stats (Adapters.VInt 0)) ∧
    Adapters.apply ln (w (Adapters.float 10))
        (batch_stats (Adapters.VInt 0)) [] ln_kwargs =
      Ok (Adapters.float 30, w (Adapters.float 10),
          batch_stats (Adapters.VInt 1)).
Proof.
  cbv zeta. split; [by vm_compute|]. split; [by vm_compute|].
  eexists. split; [reflexivity|]. split; by vm_compute.
Qed.

(** Without the call adapter of [inject_dependencies] the keyword [y]
    reaches the function, which refuses it. *)
Example undeclared_keyword_refused :
  Inject.call Adapters.hk_f []
    [("x", Adapters.float 3); ("y", Adapters.VInt 1);
     ("rng", Adapters.VNone); ("initializing", Adapters.VBool true)]
    {| Adapters.hk_scope := []; Adapters.hk_params := TDict [];
       Adapters.hk_initial := TDict []; Adapters.hk_current := TDict [];
       Adapters.hk_recording := true |}
  = Raise TypeError.
Proof. by vm_compute. Qed.

(** C5.  [format_size] returns [[dim]COUNT UNITS[/dim]] where the units
    are [GB] for a size strictly greater than 1e9, else [MB] when
    greater than 1e6, else [KB] when greater than 1e3, else [B].  For
    [GB], [MB] and [KB] the count has one decimal place and shows the
    size divided by 1e9, 1e6 or 1e3, rounded to that place; for [B] it
    is the integer size.  The count is read without its thousands
    separators.  Nothing is raised but [OverflowError], for sizes from
    [2 ^ 1023] on, which are no floats.  A block of 5 [int32] elements
    is reported with the count [5] and the size [20 B], a block of 1,500
    of them with [6.0 KB]. *)
Theorem format_size_spec (size : Z) :
  match Format.format_size size with
  | Ok s =>
      ∃ count,
        s = "[dim]" +:+ count +:+ " " +:+
            (if decide (size > 10 ^ 9)%Z then "GB"
             else if decide (size > 10 ^ 6)%Z then "MB"
             else if decide (size > 10 ^ 3)%Z then "KB"
             else "B") +:+ "[/dim]" ∧
        if decide (size > 10 ^ 3)%Z
        then
          ∃ (whole : string) (w d : N),
            count = whole +:+ "." +:+ pretty d ∧
            Format.without_commas whole = pretty w ∧ (d < 10)%N ∧
            Format.shows (Z.of_N (10 * w + d)) size
              (if decide (size > 10 ^ 9)%Z then 10 ^ 9
               else if decide (size > 10 ^ 6)%Z then 10 ^ 6
               else 10 ^ 3)%Z
        else Format.without_commas count = pretty size
  | Raise e => e = OverflowError ∧ (2 ^ 1023 ≤ size)%Z
  end ∧
  Format.format_count_and_size
    (TDict [(SStr "w", TLeaf {| Format.size := 5; Format.itemsize := 4 |})])
    true
  = Ok "[green]5[/]{pad}    [dim]20 B[/dim]" ∧
  Format.format_count_and_size
    (TDict [(SStr "w", TLeaf {| Format.size := 1500; Format.itemsize := 4 |})])
    true
  = Ok "[green]1,500[/]{pad}    [dim]6.0 KB[/dim]".
Proof.
  split; [|split; by vm_compute].
  unfold Format.format_size.
  destruct (decide (size > 10 ^ 9)%Z) as [H9|H9];
    [|destruct (decide (size > 10 ^ 6)%Z) as [H6|H6];
      [|destruct (decide (size > 10 ^ 3)%Z) as [H3|H3]]].
  - destruct (decide (size > 10 ^ 3)%Z) as [H3|H3]; [|lia].
    apply (format_size_quotient size (10 ^ 9) 23 8388608000000000 "GB");
      lia.
  - destruct (decide (size > 10 ^ 3)%Z) as [H3|H3]; [|lia].
    apply (format_size_quotient size (10 ^ 6) 33 8589934592000000 "MB");
      lia.
  - apply (format_size_quotient size (10 ^ 3) 43 8796093022208000 "KB");
      lia.
  - cbn [pybind]. exists (Format.format_int size). split; [done|].
    apply without_commas_format_int.
Qed.

(** ** The functions on small inputs *)

Example leaf_paths_nested :
  Paths.leaf_paths
    (TDict [(SStr "a", TList [TLeaf 1%nat; TTuple [TLeaf 2%nat]]);
            (SStr "b", TDict []);
            (SInt 3, TLeaf 4%nat)])
  = [([SStr "a"; SInt 0], 1%nat);
     ([SStr "a"; SInt 1; SInt 0], 2%nat);
     ([SInt 3], 4%nat)].
Proof. by vm_compute. Qed.

Example flatten_names_nested :
  Paths.flatten_names
    (TDict [(SStr "a", TList [TLeaf 1%nat; TTuple [TLeaf 2%nat]]);
            (SStr "b", TDict [(SInt 3, TLeaf 4%nat)])])
  = [("a", 1%nat); ("a", 2%nat); ("b/3", 4%nat)].
Proof. by vm_compute. Qed.

Example unflatten_list_as_dict :
  Paths.unflatten (Paths.leaf_paths (TList [TLeaf 1%nat; TList []; TLeaf 2%nat]))
  = TDict [(SInt 0, TLeaf 1%nat); (SInt 2, TLeaf 2%nat)].
Proof. by vm_compute. Qed.

Example get_path_params_examples :
  let params : tree nat :=
    TDict [(SStr "a", TList [TLeaf 1; TLeaf 2; TLeaf 3])] in
  let no_getitem : nat → segment → pyres nat := λ _ _, Raise TypeError in
  PathParams.get_path_params no_getitem [SStr "a"; SInt 0] params
    = Ok (Some (TLeaf 1)) ∧
  PathParams.get_path_params no_getitem [SStr "a"; SInt (-1)] params
    = Ok (Some (TLeaf 3)) ∧
  PathParams.get_path_params no_getitem [SStr "a"; SInt 3] params
    = Ok None ∧
  PathParams.get_path_params no_getitem [SStr "b"; SInt 0] params
    = Ok None ∧
  PathParams.get_path_params no_getitem [SStr "a"; SInt 0; SInt 0] params
    = Ok None ∧
  PathParams.get_path_params no_getitem [] params = Ok (Some params).
Proof. by vm_compute. Qed.

Example get_unique_name_skips_taken :
  UniqueName.get_unique_name {["a"; "a_1"; "a_3"]} "a"
  = Some ({["a_2"; "a"; "a_1"; "a_3"]}, "a_2").
Proof. by vm_compute. Qed.

(** * Further properties of the utilities *)

(** ** The unique-name allocator on a sequence of candidates *)

Section unique_name_sequences.
Import UniqueName.

(** A call returns a name that was free and adds it; the name is the
    candidate or the candidate with a suffix. *)
Lemma get_unique_name_fresh (names : gset string) (name : string) :
  ∃ r, get_unique_name names name = Some ({[r]} ∪ names, r) ∧
       (r ∉ names) ∧
       (r = name ∨ ∃ i, r = suffixed name i).
Proof.
  unfold get_unique_name.
  destruct (decide (name ∈ names)) as [Hin|Hout].
  - destruct (while_taken_enough (S (size names)) names name 1) as [i Hi];
      [lia|].
    rewrite Hi. simpl.
    apply while_taken_Some in Hi as (_ & Hfree & _).
    exists (suffixed name i). split; [done|]. split; [done|].
    right. by exists i.
  - exists name. split; [done|]. split; [done|]. by left.
Qed.
End unique_name_sequences.

(** X1.  Whatever the candidates and the names already used, feeding the
    candidates one after the other to [get_unique_name] always returns,
    one name per candidate; the names returned are pairwise distinct,
    none of them was used before, each is its candidate or its candidate
    with a numeric suffix, and the set ends up with exactly the old names
    and the new ones. *)
Theorem feed_names_distinct (names : gset string) (cands : list string) :
  ∃ names' rs,
    UniqueName.feed names cands = Some (names', rs) ∧
    NoDup rs ∧
    (∀ r, r ∈ rs → r ∉ names) ∧
    Forall2 (λ c r, r = c ∨ ∃ i, r = UniqueName.suffixed c i) cands rs ∧
    names' = list_to_set rs ∪ names.
Proof.
  revert names. induction cands as [|c cands IH]; intros names.
  - exists names, []. simpl. split; [done|]. split; [constructor|].
    split; [by intros r ?%elem_of_nil|]. split; [constructor|].
    set_solver.
  - destruct (get_unique_name_fresh names c) as (r & Hr & Hfresh & Hshape).
    destruct (IH ({[r]} ∪ names)) as (names' & rs & Hfeed & Hnd & Hout & Hall & ->).
    exists (list_to_set rs ∪ ({[r]} ∪ names)), (r :: rs).
    simpl. rewrite Hr. simpl. rewrite Hfeed. simpl.
    split; [done|]. split.
    { constructor; [|done]. intros Hin. apply (Hout r Hin). set_solver. }
    split.
    { intros r' [->|Hin]%elem_of_cons; [done|].
      specialize (Hout r' Hin). set_solver. }
    split; [by constructor|].
    set_solver.
Qed.

(** ** Paths and lookups *)

Section path_roundtrip_facts.
Context {V : Type}.
Import Paths.
Implicit Types (t : tree V) (p : Path) (v : V) (k : segment).
Implicit Types (l : list (tree V)) (d : list (segment * tree V)).

Lemma fmap_fst_under pre (ps : list (Path * V)) :
  (under pre <$> ps).*1 = (pre ++.) <$> ps.*1.
Proof. rewrite <- !list_fmap_compose. by apply list_fmap_ext. Qed.

Lemma fmap_snd_under pre (ps : list (Path * V)) :
  (under pre <$> ps).*2 = ps.*2.
Proof. rewrite <- !list_fmap_compose. by apply list_fmap_ext. Qed.

Lemma elem_of_leaf_paths_dict d p v :
  (p, v) ∈ leaf_paths (TDict d) ↔
  ∃ k x p', (k, x) ∈ d ∧ p = k :: p' ∧ (p', v) ∈ leaf_paths x.
Proof.
  rewrite leaf_paths_dict, elem_of_flat_map. split.
  - intros ([k x] & Hin & Hp). simpl in Hp.
    apply list_elem_of_fmap in Hp as ([p' v'] & [= -> ->] & Hp).
    by exists k, x, p'.
  - intros (k & x & p' & Hin & -> & Hp). exists (k, x). split; [done|].
    simpl. apply list_elem_of_fmap. by exists (p', v).
Qed.

Lemma elem_of_leaf_paths_list l p v :
  (p, v) ∈ leaf_paths (TList l) ↔
  ∃ i x p', l !! i = Some x ∧ p = SInt (Z.of_nat i) :: p' ∧
            (p', v) ∈ leaf_paths x.
Proof.
  rewrite leaf_paths_list, elem_of_flat_mapi. split.
  - intros (i & x & Hi & Hp).
    apply list_elem_of_fmap in Hp as ([p' v'] & [= -> ->] & Hp).
    by exists i, x, p'.
  - intros (i & x & p' & Hi & -> & Hp). exists i, x. split; [done|].
    apply list_elem_of_fmap. by exists (p', v).
Qed.

(** The paths under the items of a dict with distinct keys are
    distinct when they are so under each item. *)
Lemma NoDup_paths_dict d :
  NoDup (PyDict.keys d) →
  Forall (λ item, NoDup (leaf_paths item.2).*1) d →
  NoDup (leaf_paths (TDict d)).*1.
Proof.
  rewrite leaf_paths_dict. intros Hnd Hall.
  induction Hall as [|[k x] d Hx _ IH]; simpl; [constructor|].
  simpl in Hnd, Hx. apply NoDup_cons in Hnd as [Hk Hnd].
  rewrite fmap_app, fmap_fst_under. apply NoDup_app. split; [|split].
  - apply NoDup_fmap_2; [|done]. by intros p p' [= ->].
  - intros p Hp Hp'.
    apply list_elem_of_fmap in Hp as (p' & -> & _).
    apply list_elem_of_fmap in Hp' as ([q v] & Hq & Hin). simpl in Hq.
    apply elem_of_flat_map in Hin as ([k' x'] & Hin' & Hqv). simpl in Hqv.
    apply list_elem_of_fmap in Hqv as ([q' v'] & [= -> ->] & _).
    injection Hq as -> _. apply Hk.
    apply list_elem_of_fmap. by exists (k', x').
  - by apply IH.
Qed.

Lemma NoDup_leaf_paths t :
  well_formed t = true → NoDup (leaf_paths t).*1.
Proof.
  induction t as [v|l IH|l IH|d IH] using tree_ind; simpl; intros Hwf.
  - apply NoDup_singleton.
  - rewrite leaf_paths_enumerate.
    apply NoDup_paths_dict; [apply NoDup_keys_enumerate|].
    apply (Forall_enumerate (λ x, NoDup (leaf_paths x).*1)).
    rewrite forallb_forall in Hwf. rewrite Forall_forall in IH |- *.
    intros x Hx. apply IH; [done|]. by apply Hwf, list_elem_of_In.
  - rewrite leaf_paths_tuple, leaf_paths_enumerate.
    apply NoDup_paths_dict; [apply NoDup_keys_enumerate|].
    apply (Forall_enumerate (λ x, NoDup (leaf_paths x).*1)).
    rewrite forallb_forall in Hwf. rewrite Forall_forall in IH |- *.
    intros x Hx. apply IH; [done|]. by apply Hwf, list_elem_of_In.
  - apply andb_prop in Hwf as [Hnd Hwf]. apply bool_decide_eq_true in Hnd.
    apply NoDup_paths_dict; [done|].
    rewrite forallb_forall in Hwf. rewrite Forall_forall in IH |- *.
    intros item Hitem. apply IH; [done|]. by apply Hwf, list_elem_of_In.
Qed.
End path_roundtrip_facts.

(** X2.  In a structure whose dicts have pairwise distinct keys, no two
    leaves have the same path: the paths of [leaf_paths] can be used as
    the keys of a dictionary. *)
Theorem leaf_paths_distinct {V} (t : tree V) :
  Paths.well_formed t = true → NoDup (Paths.leaf_paths t).*1.
Proof. apply NoDup_leaf_paths. Qed.

Lemma leaf_paths_distinct_witness :
  let t : tree nat :=
    TDict [(SStr "a", TList [TLeaf 1; TLeaf 1]); (SStr "b", TLeaf 1)] in
  Paths.well_formed t = true ∧ NoDup (Paths.leaf_paths t).*1.
Proof.
  split; [by vm_compute|].
  apply (leaf_paths_distinct
    (TDict [(SStr "a", TList [TLeaf 1; TLeaf 1]); (SStr "b", TLeaf 1)])).
  by vm_compute.
Defined.

Section lookup_leaf_facts.
Context {V : Type} (leaf_getitem : V → segment → pyres V).
Import Paths.
Implicit Types (t : tree V) (p : Path) (v : V) (k : segment).
Implicit Types (l : list (tree V)) (d : list (segment * tree V)).

Lemma well_formed_lookup l i x :
  forallb well_formed l = true → l !! i = Some x → well_formed x = true.
Proof.
  rewrite forallb_forall. intros Hall Hi. apply Hall, list_elem_of_In.
  by eapply list_elem_of_lookup_2.
Qed.

Lemma well_formed_item d k x :
  forallb (λ item : segment * tree V, well_formed item.2) d = true →
  (k, x) ∈ d → well_formed x = true.
Proof.
  rewrite forallb_forall. intros Hall Hin.
  by apply (Hall (k, x)), list_elem_of_In.
Qed.

Lemma seq_getitem_index l i x :
  l !! i = Some x →
  PathParams.seq_getitem l (SInt (Z.of_nat i)) = Ok x.
Proof.
  intros Hi. unfold PathParams.seq_getitem.
  apply lookup_lt_Some in Hi as Hlt.
  destruct (decide (Z.of_nat i < 0)%Z) as [|_]; [lia|].
  destruct (decide (0 ≤ Z.of_nat i < Z.of_nat (length l))%Z) as [_|];
    [|lia].
  by rewrite Nat2Z.id, Hi.
Qed.

Lemma leaf_at_reaches t levels v :
  well_formed t = true → leaf_at t levels v →
  PathParams.reaches leaf_getitem t (segment_of <$> levels) (TLeaf v).
Proof.
  intros Hwf Hat. induction Hat as
    [v|l i x levels v Hi _ IH|l i x levels v Hi _ IH
    |d k x levels v Hin _ IH]; simpl in Hwf.
  - constructor.
  - econstructor; [by apply seq_getitem_index|].
    apply IH. by eapply well_formed_lookup.
  - econstructor; [by apply seq_getitem_index|].
    apply IH. by eapply well_formed_lookup.
  - apply andb_prop in Hwf as [Hnd Hwf]. apply bool_decide_eq_true in Hnd.
    econstructor.
    + simpl. by rewrite (elem_of_get d k x Hnd Hin).
    + apply IH. by eapply well_formed_item.
Qed.

Lemma get_path_params_app p q t :
  PathParams.get_path_params leaf_getitem (p ++ q) t =
  match PathParams.get_path_params leaf_getitem p t with
  | Ok (Some t') => PathParams.get_path_params leaf_getitem q t'
  | r => r
  end.
Proof.
  revert t. induction p as [|key p IH]; intros t; simpl; [done|].
  destruct (PathParams.getitem leaf_getitem t key); [apply IH|done].
Qed.

Lemma leaves_flatten_names t : (name_paths t).*2 = (leaf_paths t).*2.
Proof.
  induction t as [v|l IH|l IH|d IH] using tree_ind.
  - done.
  - rewrite leaf_paths_list. unfold name_paths. simpl.
    rewrite !fmap_flat_mapi. apply flat_mapi_ext.
    eapply Forall_impl; [exact IH|]. intros x Hx j. simpl in Hx.
    by rewrite fmap_snd_under.
  - rewrite leaf_paths_tuple, leaf_paths_list. unfold name_paths. simpl.
    rewrite !fmap_flat_mapi. apply flat_mapi_ext.
    eapply Forall_impl; [exact IH|]. intros x Hx j. simpl in Hx.
    by rewrite fmap_snd_under.
  - rewrite leaf_paths_dict, name_paths_dict.
    rewrite !fmap_flat_map. apply flat_map_ext_Forall.
    eapply Forall_impl; [exact IH|]. intros [k x] Hx. simpl in *.
    by rewrite !fmap_snd_under.
Qed.
End lookup_leaf_facts.

(** X3.  In a structure whose dicts have pairwise distinct keys, looking
    up the path of a pair of [leaf_paths] with [get_path_params] gives the
    leaf of that pair. *)
Theorem get_path_params_leaf_paths {V}
    (leaf_getitem : V → segment → pyres V) (t : tree V) (p : Path) (v : V) :
  Paths.well_formed t = true →
  (p, v) ∈ Paths.leaf_paths t →
  PathParams.get_path_params leaf_getitem p t = Ok (Some (TLeaf v)).
Proof.
  intros Hwf Hin. apply elem_of_leaf_paths in Hin as (levels & Hat & ->).
  by apply get_path_params_reaches, leaf_at_reaches.
Qed.

Lemma get_path_params_leaf_paths_witness :
  PathParams.get_path_params (λ (_ : nat) _, Raise TypeError)
    [SStr "a"; SInt 1]
    (TDict [(SStr "a", TList [TLeaf 1; TLeaf 2]); (SStr "b", TLeaf 3)])
  = Ok (Some (TLeaf 2)).
Proof.
  apply (get_path_params_leaf_paths (λ (_ : nat) _, Raise TypeError)
    (TDict [(SStr "a", TList [TLeaf 1; TLeaf 2]); (SStr "b", TLeaf 3)])
    [SStr "a"; SInt 1] 2).
  - by vm_compute.
  - apply (bool_decide_unpack _). by vm_compute.
Defined.

(** X4.  [flatten_names] yields the same leaves as [leaf_paths], in the
    same order; only the first components differ. *)
Theorem flatten_names_same_leaves {V} (t : tree V) :
  (Paths.flatten_names t).*2 = (Paths.leaf_paths t).*2.
Proof.
  unfold Paths.flatten_names. rewrite <- list_fmap_compose.
  rewrite <- (leaves_flatten_names t). by apply list_fmap_ext.
Qed.

(** X5.  Looking up a path made of two parts is looking up the first
    part and then, in what was reached, the second; when the first part
    fails, the whole lookup is [None]. *)
Theorem get_path_params_concat {V} (leaf_getitem : V → segment → pyres V)
    (p q : Path) (t : tree V) :
  PathParams.get_path_params leaf_getitem (p ++ q) t =
  match PathParams.get_path_params leaf_getitem p t with
  | Ok (Some t') => PathParams.get_path_params leaf_getitem q t'
  | r => r
  end.
Proof. apply get_path_params_app. Qed.

(** ** What a successful merge keeps *)

Section merge_result_facts.
Context {V : Type}.
Import Paths Merge MergeKept.
Implicit Types (a b m : tree V) (p : Path) (v : V) (k : segment).
Implicit Types (la lb lm : list (tree V)).
Implicit Types (da db dm : list (segment * tree V)).

(** What [merge_items] returned, read back item by item. *)
Lemma merge_items_Ok db da dm :
  merge_items merge_params db da = Ok dm →
  Forall2 (λ item item',
    item'.1 = item.1 ∧
    match PyDict.get item.1 db with
    | None => item'.2 = item.2
    | Some y => merge_params item.2 y = Ok item'.2
    end) da dm.
Proof.
  revert dm. induction da as [|[k x] da IH]; intros dm; simpl.
  - intros [= <-]. constructor.
  - destruct (match PyDict.get k db with
              | None => Ok x
              | Some vb => merge_params x vb
              end) as [z|e] eqn:Hz; [|done]. simpl.
    destruct (merge_items merge_params db da) as [rest|e]; [|done]. simpl.
    intros [= <-]. constructor; [|by apply IH]. simpl. split; [done|].
    destruct (PyDict.get k db); [done|]. by injection Hz as ->.
Qed.

Lemma zip_with_raising_Ok {A B C} (f : A → B → pyres C) xs ys zs :
  length xs = length ys →
  zip_with_raising f xs ys = Ok zs →
  Forall3 (λ x y z, f x y = Ok z) xs ys zs.
Proof.
  revert ys zs. induction xs as [|x xs IH]; intros [|y ys] zs Hlen;
    simpl in *; try done.
  - intros [= <-]. constructor.
  - destruct (f x y) as [z|e] eqn:Hz; [|done]. simpl.
    destruct (zip_with_raising f xs ys) as [rest|e] eqn:Hrest; [|done].
    simpl. intros [= <-]. constructor; [done|]. apply IH; [lia|done].
Qed.

Lemma keys_filter_not_in (ks : list segment) db :
  PyDict.keys (filter (λ item, item.1 ∉ ks) db) =
  filter (λ k, k ∉ ks) (PyDict.keys db).
Proof.
  induction db as [|[k y] db IH]; [done|].
  rewrite filter_cons. simpl. rewrite filter_cons.
  destruct (decide (k ∉ ks)); simpl; by rewrite IH.
Qed.

Lemma keys_merge_items da dm (R : segment * tree V → segment * tree V → Prop) :
  Forall2 (λ item item', item'.1 = item.1 ∧ R item item') da dm →
  PyDict.keys dm = PyDict.keys da.
Proof.
  unfold PyDict.keys.
  induction 1 as [|item item' da' dm' [Hk _] _ IH]; [done|].
  by rewrite !fmap_cons, Hk, IH.
Qed.

Lemma zip_kept la lb lm :
  Forall kept la →
  forallb well_formed la = true → forallb well_formed lb = true →
  Forall3 (λ a b m, merge_params a b = Ok m) la lb lm →
  forallb well_formed lm = true ∧
  ∀ p v, (p, v) ∈ leaf_paths (TList lm) ↔
         (p, v) ∈ leaf_paths (TList la) ∨ (p, v) ∈ leaf_paths (TList lb).
Proof.
  intros Hkept Hwa Hwb Hall3.
  assert (Hi : ∀ i m, lm !! i = Some m →
    ∃ a b, la !! i = Some a ∧ lb !! i = Some b ∧ well_formed m = true ∧
      ∀ p v, (p, v) ∈ leaf_paths m ↔
             (p, v) ∈ leaf_paths a ∨ (p, v) ∈ leaf_paths b).
  { intros i m Hm.
    destruct (Forall3_lookup_r _ _ _ _ _ _ Hall3 Hm)
      as (a & b & Ha & Hb & Hab).
    exists a, b. split; [done|]. split; [done|].
    rewrite Forall_forall in Hkept.
    apply (Hkept a); [by eapply list_elem_of_lookup_2| | |done].
    - by eapply (well_formed_lookup la).
    - by eapply (well_formed_lookup lb). }
  split.
  - apply forallb_forall. intros m Hm%list_elem_of_In.
    apply list_elem_of_lookup in Hm as [i Hm].
    by destruct (Hi i m Hm) as (a & b & _ & _ & Hw & _).
  - intros p v. rewrite !elem_of_leaf_paths_list. split.
    + intros (i & m & p' & Hm & -> & Hp).
      destruct (Hi i m Hm) as (a & b & Ha & Hb & _ & Hleaves).
      destruct (proj1 (Hleaves p' v) Hp) as [Hp'|Hp'].
      * left. by exists i, a, p'.
      * right. by exists i, b, p'.
    + intros [(i & a & p' & Ha & -> & Hp)|(i & b & p' & Hb & -> & Hp)].
      * destruct (Forall3_lookup_l _ _ _ _ _ _ Hall3 Ha)
          as (b & m & Hb & Hm & _).
        destruct (Hi i m Hm) as (a' & b' & Ha' & Hb' & _ & Hleaves).
        exists i, m, p'. split; [done|]. split; [done|].
        apply Hleaves. left. congruence.
      * destruct (Forall3_lookup_m _ _ _ _ _ _ Hall3 Hb)
          as (a & m & Ha & Hm & _).
        destruct (Hi i m Hm) as (a' & b' & Ha' & Hb' & _ & Hleaves).
        exists i, m, p'. split; [done|]. split; [done|].
        apply Hleaves. right. congruence.
Qed.
Lemma items_kept da db dm :
  Forall (λ item, kept item.2) da →
  forallb (λ item : segment * tree V, well_formed item.2) da = true →
  forallb (λ item : segment * tree V, well_formed item.2) db = true →
  merge_items merge_params db da = Ok dm →
  Forall2 (λ item item',
    item'.1 = item.1 ∧ well_formed item'.2 = true ∧
    ∀ p v, (p, v) ∈ leaf_paths item'.2 ↔
           (p, v) ∈ leaf_paths item.2 ∨
           ∃ y, PyDict.get item.1 db = Some y ∧ (p, v) ∈ leaf_paths y)
    da dm.
Proof.
  intros Hkept Hwa Hwb Hdm. apply merge_items_Ok in Hdm.
  induction Hdm as [|[k x] [k' z] da dm [Hk Hz] _ IH]; [constructor|].
  simpl in Hk, Hz, Hwa. subst k'.
  apply Forall_cons in Hkept as [Hx Hkept].
  apply andb_prop in Hwa as [Hwx Hwa]. simpl in Hx.
  constructor; [|by apply IH]. simpl. split; [done|].
  destruct (PyDict.get k db) as [y|] eqn:Hy.
  - assert (Hwy : well_formed y = true).
    { eapply well_formed_item; [exact Hwb|]. by apply get_Some_elem_of. }
    destruct (Hx y z Hwx Hwy Hz) as [Hwz Hleaves]. split; [done|].
    intros p v. rewrite Hleaves. split.
    + intros [?|?]; [by left|]. right. by exists y.
    + intros [?|(y' & [= <-] & ?)]; [by left|by right].
  - subst z. split; [done|]. intros p v. split; [by left|].
    by intros [?|(y & ? & _)].
Qed.

Lemma dict_kept da db dm :
  Forall (λ item, kept item.2) da →
  well_formed (TDict da) = true → well_formed (TDict db) = true →
  merge_items merge_params db da = Ok dm →
  well_formed
    (TDict (dm ++ filter (λ item, item.1 ∉ PyDict.keys da) db)) = true ∧
  ∀ p v,
    (p, v) ∈ leaf_paths
      (TDict (dm ++ filter (λ item, item.1 ∉ PyDict.keys da) db)) ↔
    (p, v) ∈ leaf_paths (TDict da) ∨ (p, v) ∈ leaf_paths (TDict db).
Proof.
  intros Hkept Hwa Hwb Hdm. simpl in Hwa, Hwb.
  apply andb_prop in Hwa as [Hnda Hwa]. apply bool_decide_eq_true in Hnda.
  apply andb_prop in Hwb as [Hndb Hwb]. apply bool_decide_eq_true in Hndb.
  pose proof (items_kept da db dm Hkept Hwa Hwb Hdm) as Hall2.
  assert (Hkeys : PyDict.keys dm = PyDict.keys da).
  { eapply (keys_merge_items da dm). exact Hall2. }
  set (rest := filter (λ item, item.1 ∉ PyDict.keys da) db).
  split.
  - simpl. apply andb_true_intro. split.
    + apply bool_decide_eq_true. rewrite keys_app, Hkeys.
      unfold rest. rewrite keys_filter_not_in.
      apply NoDup_app. split; [done|]. split.
      * intros k Hk Hk'. by apply list_elem_of_filter in Hk' as [? _].
      * by apply NoDup_filter.
    + apply forallb_forall. intros [k z] Hin%list_elem_of_In. simpl.
      apply elem_of_app in Hin as [Hin|Hin].
      * apply list_elem_of_lookup in Hin as [i Hi].
        destruct (Forall2_lookup_r _ _ _ _ _ Hall2 Hi)
          as (item & _ & _ & Hw & _). done.
      * apply list_elem_of_filter in Hin as [_ Hin].
        by eapply well_formed_item.
  - intros p v. rewrite !elem_of_leaf_paths_dict. split.
    + intros (k & z & p' & Hin & -> & Hp).
      apply elem_of_app in Hin as [Hin|Hin].
      * apply list_elem_of_lookup in Hin as [i Hi].
        destruct (Forall2_lookup_r _ _ _ _ _ Hall2 Hi)
          as ([k' x] & Hix & Hk & _ & Hleaves).
        simpl in Hk, Hleaves. subst k'.
        destruct (proj1 (Hleaves p' v) Hp) as [Hp'|(y & Hy & Hp')].
        -- left. exists k, x, p'. split; [|done].
           by eapply list_elem_of_lookup_2.
        -- right. exists k, y, p'. split; [|done].
           by apply get_Some_elem_of.
      * apply list_elem_of_filter in Hin as [_ Hin].
        right. by exists k, z, p'.
    + intros [(k & x & p' & Hin & -> & Hp)|(k & y & p' & Hin & -> & Hp)].
      * apply list_elem_of_lookup in Hin as [i Hi].
        destruct (Forall2_lookup_l _ _ _ _ _ Hall2 Hi)
          as ([k' z] & Hiz & Hk & _ & Hleaves).
        simpl in Hk, Hleaves. subst k'.
        exists k, z, p'. split; [|split; [done|]].
        -- apply elem_of_app. left. by eapply list_elem_of_lookup_2.
        -- apply Hleaves. by left.
      * destruct (decide (k ∈ PyDict.keys da)) as [Hk|Hk].
        -- apply list_elem_of_fmap in Hk as ([k' x] & Hk & Hx).
           simpl in Hk. subst k'.
           apply list_elem_of_lookup in Hx as [i Hi].
           destruct (Forall2_lookup_l _ _ _ _ _ Hall2 Hi)
             as ([k' z] & Hiz & Hk & _ & Hleaves).
           simpl in Hk, Hleaves. subst k'.
           exists k, z, p'. split; [|split; [done|]].
           ++ apply elem_of_app. left. by eapply list_elem_of_lookup_2.
           ++ apply Hleaves. right. exists y. split; [|done].
              by apply elem_of_get.
        -- exists k, y, p'. split; [|done].
           apply elem_of_app. right. by apply list_elem_of_filter.
Qed.

Lemma merge_params_kept a : kept a.
Proof.
  induction a as [w|la IH|la IH|da IH] using tree_ind;
    intros b m Hwa Hwb Hm.
  - by destruct b.
  - destruct b as [w|lb|lb|db]; try done. simpl in Hm, Hwa, Hwb.
    destruct (decide (length la ≠ length lb)) as [|Hlen]; [done|].
    apply dec_stable in Hlen.
    destruct (zip_with_raising merge_params la lb) as [lm|] eqn:Hzip;
      [|done].
    injection Hm as <-. apply zip_with_raising_Ok in Hzip; [|done].
    by apply zip_kept.
  - destruct b as [w|lb|lb|db]; try done. simpl in Hm, Hwa, Hwb.
    destruct (decide (length la ≠ length lb)) as [|Hlen]; [done|].
    apply dec_stable in Hlen.
    destruct (zip_with_raising merge_params la lb) as [lm|] eqn:Hzip;
      [|done].
    injection Hm as <-. apply zip_with_raising_Ok in Hzip; [|done].
    rewrite !leaf_paths_tuple. by apply zip_kept.
  - destruct b as [w|lb|lb|db]; try done.
    change (merge_params (TDict da) (TDict db)) with
      (pybind (merge_items merge_params db da) (λ items,
         Ok (TDict (items ++
           filter (λ item, item.1 ∉ PyDict.keys da) db)))) in Hm.
    destruct (merge_items merge_params db da) as [dm|] eqn:Hdm; [|done].
    injection Hm as <-. by apply dict_kept.
Qed.
End merge_result_facts.

(** X6.  Merging two trees whose dicts have pairwise distinct keys, when
    it succeeds, gives a tree whose dicts have pairwise distinct keys. *)
Theorem merge_params_well_formed {V} (a b m : tree V) :
  Paths.well_formed a = true → Paths.well_formed b = true →
  Merge.merge_params a b = Ok m →
  Paths.well_formed m = true.
Proof. intros Hwa Hwb Hm. by apply (merge_params_kept a b m). Qed.

Lemma merge_params_well_formed_witness :
  Paths.well_formed
    (TDict [(SStr "x", TDict [(SStr "a", TLeaf 1%nat); (SStr "b", TLeaf 2%nat)]);
            (SStr "y", TLeaf 3%nat)]) = true.
Proof.
  apply (merge_params_well_formed
    (TDict [(SStr "x", TDict [(SStr "a", TLeaf 1%nat)])])
    (TDict [(SStr "x", TDict [(SStr "b", TLeaf 2%nat)]);
            (SStr "y", TLeaf 3%nat)])); by vm_compute.
Defined.

(** X7.  When two trees whose dicts have pairwise distinct keys merge,
    no leaf is lost, changed or invented: the pairs of [leaf_paths] of
    the result are those of the first tree and those of the second. *)
Theorem merge_params_keeps_leaves {V} (a b m : tree V) (p : Path) (v : V) :
  Paths.well_formed a = true → Paths.well_formed b = true →
  Merge.merge_params a b = Ok m →
  (p, v) ∈ Paths.leaf_paths m ↔
  (p, v) ∈ Paths.leaf_paths a ∨ (p, v) ∈ Paths.leaf_paths b.
Proof. intros Hwa Hwb Hm. by apply (merge_params_kept a b m). Qed.

Lemma merge_params_keeps_leaves_witness :
  ([SStr "x"; SStr "b"], 2%nat) ∈ Paths.leaf_paths
    (TDict [(SStr "x", TDict [(SStr "a", TLeaf 1%nat); (SStr "b", TLeaf 2%nat)]);
            (SStr "y", TLeaf 3%nat)]).
Proof.
  apply (merge_params_keeps_leaves
    (TDict [(SStr "x", TDict [(SStr "a", TLeaf 1%nat)])])
    (TDict [(SStr "x", TDict [(SStr "b", TLeaf 2%nat)]);
            (SStr "y", TLeaf 3%nat)])); [by vm_compute..|].
  right. apply (bool_decide_unpack _). by vm_compute.
Defined.

Section merge_edge_facts.
Context {V : Type}.
Import Paths Merge.
Implicit Types (a b m : tree V) (p : Path).
Implicit Types (da db : list (segment * tree V)).

Lemma merge_items_empty da :
  merge_items (@merge_params V) [] da = Ok da.
Proof.
  induction da as [|[k x] da IH]; simpl; [done|]. by rewrite IH.
Qed.

Lemma filter_not_in_nil db :
  filter (λ item : segment * tree V, item.1 ∉ @nil segment) db = db.
Proof.
  induction db as [|[k y] db IH]; [done|].
  rewrite filter_cons.
  destruct (decide _) as [_|Hin]; [by rewrite IH|].
  exfalso. apply Hin, not_elem_of_nil.
Qed.

Lemma incompatible_sym a b : incompatible a b → incompatible b a.
Proof. destruct a, b; simpl; try done; intros H; congruence. Qed.

Lemma conflict_at_sym p a b : conflict_at p a b → conflict_at p b a.
Proof.
  induction 1; [constructor; by apply incompatible_sym|by econstructor..].
Qed.

Lemma raises_conflict a b :
  well_formed a = true →
  raises (merge_params a b) ↔ ∃ p, conflict_at p a b.
Proof.
  intros Hwf.
  destruct (merge_params_settled a Hwf b)
    as [[Hr Hc]|(m & Hm & _ & Hfree)]; [done|].
  rewrite Hm. split; [by intros ?%not_raises_Ok|].
  intros [p Hp]. by destruct (Hfree p).
Qed.
End merge_edge_facts.

(** X8.  The empty dict is neutral for [merge_params]: merging a dict
    with the empty dict, on either side, gives a dict with the same
    items, that is an equal dict; the order of its keys is left open. *)
Theorem merge_params_empty_dict {V} (d : list (segment * tree V)) :
  (∃ m, Merge.merge_params (TDict d) (TDict []) = Ok (TDict m) ∧ m ≡ₚ d) ∧
  (∃ m, Merge.merge_params (TDict []) (TDict d) = Ok (TDict m) ∧ m ≡ₚ d).
Proof.
  split; exists d; (split; [|done]).
  - simpl. rewrite merge_items_empty. simpl.
    by rewrite filter_nil, app_nil_r.
  - cbn [Merge.merge_params Merge.merge_items pybind app].
    change (PyDict.keys (@nil (segment * tree V))) with (@nil segment).
    by rewrite filter_not_in_nil.
Qed.

(** X9.  Whether two trees (dict keys pairwise distinct) can be merged
    does not depend on their order: [merge_params(a, b)] raises exactly
    when [merge_params(b, a)] does. *)
Theorem merge_params_raises_sym {V} (a b : tree V) :
  Paths.well_formed a = true → Paths.well_formed b = true →
  raises (Merge.merge_params a b) ↔ raises (Merge.merge_params b a).
Proof.
  intros Hwa Hwb. rewrite !raises_conflict by done.
  split; intros [p Hp]; exists p; by apply conflict_at_sym.
Qed.

Lemma merge_params_raises_sym_witness :
  raises (Merge.merge_params
            (TDict [(SStr "w", TLeaf 1%nat)])
            (TDict [(SStr "w", TList []); (SStr "v", TLeaf 2%nat)])) ↔
  raises (Merge.merge_params
            (TDict [(SStr "w", TList []); (SStr "v", TLeaf 2%nat)])
            (TDict [(SStr "w", TLeaf 1%nat)])).
Proof.
  apply (merge_params_raises_sym
    (TDict [(SStr "w", TLeaf 1%nat)])
    (TDict [(SStr "w", TList []); (SStr "v", TLeaf 2%nat)]));
    by vm_compute.
Defined.

(** ** More on inject_dependencies *)

Section inject_more_facts.
Context {A R : Type}.
Import Inject.
Implicit Types (kwargs : PyDict.t string A) (k : string).
Implicit Types (f : callable A R) (arg_names kwarg_names : list string).

Lemma omap_ext_elem_of {X Y} (g h : X → option Y) (l : list X) :
  (∀ x, x ∈ l → g x = h x) → omap g l = omap h l.
Proof.
  induction l as [|x l IH]; intros Hgh; [done|].
  change (omap g (x :: l)) with
    (match g x with Some y => y :: omap g l | None => omap g l end).
  change (omap h (x :: l)) with
    (match h x with Some y => y :: omap h l | None => omap h l end).
  rewrite (Hgh x) by apply list_elem_of_here.
  rewrite IH; [done|]. intros y Hy. by apply Hgh, list_elem_of_further.
Qed.

(** Filtering what was filtered changes nothing. *)
Lemma declared_only_idem arg_names kwarg_names kwargs :
  declared_only arg_names kwarg_names
    (declared_only arg_names kwarg_names kwargs)
  = declared_only arg_names kwarg_names kwargs.
Proof.
  unfold declared_only at 1 3. f_equal. apply omap_ext_elem_of.
  intros arg Harg. destruct (decide (arg ∉ arg_names)) as [Hout|]; [|done].
  rewrite get_declared_only. by rewrite decide_True.
Qed.

Lemma get_signature_f_recursive_end f :
  ∃ ps c, get_signature_f_recursive f = Callable ps c None.
Proof.
  induction f as [ps c|ps c g IH] using callable_ind'; simpl; [|done].
  by exists ps, c.
Qed.
End inject_more_facts.

(** X10.  Wrapping a call adapter again, with or without a renaming,
    is wrapping the target once with that renaming: the second adapter
    reports the same parameters and filters the keywords to the same
    ones. *)
Theorem inject_dependencies_twice {A R}
    (f : Inject.callable A R) (signature_f : option (Inject.callable A R))
    (rename : option (PyDict.t string string))
    (args : list A) (kwargs : PyDict.t string A) :
  let once := Inject.inject_dependencies f signature_f None in
  Inject.get_function_args (Inject.inject_dependencies once None rename)
    = Inject.get_function_args once ∧
  Inject.call (Inject.inject_dependencies once None rename) args kwargs
    = Inject.call (Inject.inject_dependencies f signature_f rename)
        args kwargs.
Proof.
  cbv zeta. split; [done|].
  unfold Inject.inject_dependencies, Inject.wrapper. simpl.
  destruct (Inject.has_var_keyword _); simpl; [done|].
  by rewrite declared_only_idem.
Qed.

(** X11.  One renaming [{old: new}] applied to keyword arguments with
    pairwise distinct names: when [old] is among them its value is found
    under [new] afterwards (in place of any value [new] had) and [old] is
    gone, the other keywords being untouched; when [old] is not among
    them nothing changes. *)
Theorem rename_kwargs_moves_value {A} (old new : string)
    (kwargs : PyDict.t string A) (k : string) :
  PyDict.wf kwargs →
  PyDict.get k (Inject.rename_kwargs [(old, new)] kwargs) =
  match PyDict.get old kwargs with
  | Some v => if decide (k = new) then Some v
              else if decide (k = old) then None
              else PyDict.get k kwargs
  | None => PyDict.get k kwargs
  end.
Proof. apply get_rename_one. Qed.

Lemma rename_kwargs_moves_value_witness :
  PyDict.get "y"
    (Inject.rename_kwargs [("a", "y")] [("a", 1%nat); ("y", 2%nat)])
  = Some 1%nat.
Proof.
  apply (rename_kwargs_moves_value "a" "y" [("a", 1%nat); ("y", 2%nat)] "y").
  apply (bool_decide_unpack _). by vm_compute.
Defined.

(** X12.  [get_signature_f_recursive] ends at a callable that has no
    [_signature_f] attribute, and applying it again returns the same
    callable. *)
Theorem get_signature_f_recursive_idem {A R} (f : Inject.callable A R) :
  (∃ ps c, Inject.get_signature_f_recursive f = Inject.Callable ps c None) ∧
  Inject.get_signature_f_recursive (Inject.get_signature_f_recursive f)
    = Inject.get_signature_f_recursive f.
Proof.
  destruct (get_signature_f_recursive_end f) as (ps & c & Hf).
  split; [by exists ps, c|]. by rewrite Hf.
Qed.

(** ** get_input_args *)

Section dict_update_facts.
Context {K : Type} `{EqDecision K} {A : Type}.
Implicit Types (d b : PyDict.t K A) (k : K).

(** After [d.update(b)] a key of [b] has the value of [b], any other
    key the value it had. *)
Lemma get_update d b k :
  PyDict.wf b →
  PyDict.get k (PyDict.update d b) =
  match PyDict.get k b with
  | Some v => Some v
  | None => PyDict.get k d
  end.
Proof.
  unfold PyDict.wf, PyDict.update. revert d.
  induction b as [|[k' v'] b IH]; intros d Hnd; [done|].
  simpl in Hnd. apply NoDup_cons in Hnd as [Hk' Hnd].
  simpl. rewrite IH by done. rewrite get_set.
  destruct (decide (k = k')) as [->|Hne]; [|done].
  apply get_None in Hk'. by rewrite Hk'.
Qed.
End dict_update_facts.

(** X13.  [get_input_args] puts a tuple input into the positional
    arguments, a dict input into the keyword arguments and any other
    input alone into the positional arguments; the keyword arguments
    always have [states], [initializing] and [training], except that an
    input dict (with distinct keys) that has one of these names replaces
    the value passed for it. *)
Theorem get_input_args_spec {A} (x : InputArgs.input A)
    (states initializing training : A) :
  match x with InputArgs.InDict d => PyDict.wf d | _ => True end →
  (InputArgs.get_input_args x states initializing training).1 =
    match x with
    | InputArgs.InTuple xs => xs
    | InputArgs.InDict _ => []
    | InputArgs.InOther x => [x]
    end ∧
  ∀ k, PyDict.get k
         (InputArgs.get_input_args x states initializing training).2 =
       match match x with
             | InputArgs.InDict d => PyDict.get k d
             | _ => None
             end with
       | Some v => Some v
       | None => PyDict.get k [("states", states);
                               ("initializing", initializing);
                               ("training", training)]
       end.
Proof.
  intros Hwf. destruct x as [xs|d|x]; simpl; (split; [done|]); try done.
  intros k. by rewrite get_update.
Qed.

Lemma get_input_args_spec_witness :
  PyDict.get "training"
    (InputArgs.get_input_args
       (InputArgs.InDict [("x", 7%nat); ("training", 0%nat)]) 1%nat 2%nat 3%nat).2
  = Some 0%nat.
Proof.
  apply (proj2 (get_input_args_spec
    (InputArgs.InDict [("x", 7%nat); ("training", 0%nat)]) 1%nat 2%nat 3%nat
    ltac:(apply (bool_decide_unpack _); by vm_compute)) "training").
Defined.

(** ** get_parameter *)

Section get_parameter_facts.
Context {V : Type}.
Import Collections.
Implicit Types (collections : @ParameterCollection V) (name c : string).

Lemma elem_of_named collections name c (v : V) :
  (c, v) ∈ named collections name ↔
  ∃ ps, (c, ps) ∈ collections ∧ PyDict.get name ps = Some v.
Proof.
  unfold named. rewrite list_elem_of_omap. split.
  - intros ([c' ps] & Hin & Hget). simpl in Hget.
    destruct (PyDict.get name ps) as [v'|] eqn:Hv; [|done].
    injection Hget as -> ->. by exists ps.
  - intros (ps & Hin & Hget). exists (c, ps). split; [done|].
    simpl. by rewrite Hget.
Qed.

Lemma NoDup_named collections name :
  PyDict.wf collections → NoDup (named collections name).*1.
Proof.
  unfold PyDict.wf, named.
  induction collections as [|[c ps] collections IH]; simpl; intros Hnd.
  - constructor.
  - apply NoDup_cons in Hnd as [Hc Hnd].
    destruct (PyDict.get name ps) as [v|]; simpl; [|by apply IH].
    constructor; [|by apply IH]. intros Hin. apply Hc.
    apply list_elem_of_fmap in Hin as ([c' v'] & -> & Hin).
    apply list_elem_of_omap in Hin as ([c'' ps'] & Hin & Hget).
    simpl in Hget. destruct (PyDict.get name ps'); [|done].
    injection Hget as -> _. apply list_elem_of_fmap. by exists (c', ps').
Qed.

Lemma get_parameter_Ok collections name c (v : V) :
  get_parameter collections name = Ok (c, v) ↔
  named collections name = [(c, v)].
Proof.
  unfold get_parameter.
  destruct (named collections name) as [|[c1 v1] [|cv2 l]]; simpl.
  - done.
  - split; congruence.
  - done.
Qed.
End get_parameter_facts.

(** X14.  With collections of distinct names, [get_parameter] returns
    the collection and the value of a parameter exactly when that
    collection has the name with that value and no other collection has
    the name; with no such collection or with several it raises. *)
Theorem get_parameter_unique {V}
    (collections : PyDict.t string (PyDict.t string V))
    (name c : string) (v : V) :
  PyDict.wf collections →
  Collections.get_parameter collections name = Ok (c, v) ↔
  (∃ ps, (c, ps) ∈ collections ∧ PyDict.get name ps = Some v) ∧
  (∀ c' ps', (c', ps') ∈ collections →
             is_Some (PyDict.get name ps') → c' = c).
Proof.
  intros Hwf. rewrite get_parameter_Ok. split.
  - intros Hl. split.
    + apply elem_of_named. rewrite Hl. apply list_elem_of_here.
    + intros c' ps' Hin [v' Hv'].
      assert (Hin' : (c', v') ∈ Collections.named collections name)
        by (apply elem_of_named; by exists ps').
      rewrite Hl in Hin'. apply list_elem_of_singleton in Hin'. congruence.
  - intros [Hex Huniq]. apply elem_of_named in Hex.
    pose proof (NoDup_named collections name Hwf) as Hnd.
    assert (Hall : ∀ c' v', (c', v') ∈ Collections.named collections name →
                            c' = c).
    { intros c' v' Hin. apply elem_of_named in Hin as (ps' & Hin & Hget).
      by apply (Huniq c' ps'). }
    destruct (Collections.named collections name) as [|[c1 v1] l].
    + by apply elem_of_nil in Hex.
    + destruct l as [|[c2 v2] l].
      * apply list_elem_of_singleton in Hex. by rewrite Hex.
      * exfalso. simpl in Hnd. apply NoDup_cons in Hnd as [Hc1 _].
        apply Hc1. rewrite (Hall c1 v1) by apply list_elem_of_here.
        rewrite <- (Hall c2 v2); [apply list_elem_of_here|].
        apply list_elem_of_further, list_elem_of_here.
Qed.

Lemma get_parameter_unique_witness :
  Collections.get_parameter
    [("parameters", [("w", 2%nat)]); ("states", [("n", 0%nat)])] "n"
  = Ok ("states", 0%nat).
Proof.
  apply (get_parameter_unique
    [("parameters", [("w", 2%nat)]); ("states", [("n", 0%nat)])]
    "n" "states" 0%nat).
  - apply (bool_decide_unpack _). by vm_compute.
  - split.
    + exists [("n", 0%nat)]. split; [|done].
      apply (bool_decide_unpack _). by vm_compute.
    + intros c' ps' Hin Hsome.
      apply elem_of_cons in Hin as [[= -> ->]|Hin].
      { by destruct Hsome. }
      apply list_elem_of_singleton in Hin. congruence.
Defined.

(** ** maybe_expand_dims *)

Lemma prod_new_last_axis (s : list nat) :
  ExpandDims.prod (s ++ [1]) = ExpandDims.prod s.
Proof.
  unfold ExpandDims.prod. induction s as [|n s IH]; simpl; [done|].
  by rewrite IH.
Qed.

(** X15.  [maybe_expand_dims] fails exactly when the two arrays differ
    in their number of elements.  Otherwise it returns both arrays with
    their elements and their number of elements unchanged, the one of
    fewer dimensions with a single new axis: the results have the same
    number of dimensions exactly when the inputs differ by at most one
    dimension. *)
Theorem maybe_expand_dims_spec {A} (a b : ExpandDims.ndarray A) :
  match ExpandDims.maybe_expand_dims a b with
  | inl (a', b') =>
      ExpandDims.prod (ExpandDims.shape a)
        = ExpandDims.prod (ExpandDims.shape b) ∧
      ExpandDims.flat a' = ExpandDims.flat a ∧
      ExpandDims.flat b' = ExpandDims.flat b ∧
      ExpandDims.prod (ExpandDims.shape a')
        = ExpandDims.prod (ExpandDims.shape a) ∧
      ExpandDims.prod (ExpandDims.shape b')
        = ExpandDims.prod (ExpandDims.shape b) ∧
      ExpandDims.ndim a' =
        (if decide (ExpandDims.ndim a < ExpandDims.ndim b)
         then S (ExpandDims.ndim a) else ExpandDims.ndim a) ∧
      ExpandDims.ndim b' =
        (if decide (ExpandDims.ndim b < ExpandDims.ndim a)
         then S (ExpandDims.ndim b) else ExpandDims.ndim b) ∧
      (ExpandDims.ndim a' = ExpandDims.ndim b' ↔
       ExpandDims.ndim a ≤ S (ExpandDims.ndim b) ∧
       ExpandDims.ndim b ≤ S (ExpandDims.ndim a))
  | inr e =>
      e = AssertionError ∧
      ExpandDims.prod (ExpandDims.shape a)
        ≠ ExpandDims.prod (ExpandDims.shape b)
  end.
Proof.
  unfold ExpandDims.maybe_expand_dims.
  destruct (decide (ExpandDims.prod (ExpandDims.shape a)
                    = ExpandDims.prod (ExpandDims.shape b))) as [Heq|Hne];
    [|done].
  split; [done|].
  destruct (decide (ExpandDims.ndim a < ExpandDims.ndim b)) as [Hab|Hab].
  - assert (Hlen : ExpandDims.ndim (ExpandDims.new_last_axis a)
                   = S (ExpandDims.ndim a)).
    { unfold ExpandDims.ndim, ExpandDims.new_last_axis. simpl.
      rewrite length_app. simpl. lia. }
    rewrite Hlen.
    destruct (decide (ExpandDims.ndim b < S (ExpandDims.ndim a)))
      as [Hba|Hba]; [lia|].
    rewrite (decide_False (P := ExpandDims.ndim b < ExpandDims.ndim a))
      by lia.
    repeat split; try done; try lia.
    simpl. apply prod_new_last_axis.
  - destruct (decide (ExpandDims.ndim b < ExpandDims.ndim a)) as [Hba|Hba].
    + assert (Hlen : ExpandDims.ndim (ExpandDims.new_last_axis b)
                     = S (ExpandDims.ndim b)).
      { unfold ExpandDims.ndim, ExpandDims.new_last_axis. simpl.
        rewrite length_app. simpl. lia. }
      rewrite Hlen. repeat split; try done; try lia.
      simpl. apply prod_new_last_axis.
    + repeat split; try done; lia.
Qed.

(** ** parameters_count and parameters_bytes *)

Lemma sum_from (l : list Z) (n : Z) :
  foldl Z.add n l = (n + Format.sum l)%Z.
Proof.
  unfold Format.sum. revert n. induction l as [|x l IH]; intros n; simpl.
  - lia.
  - rewrite (IH (n + x)%Z), (IH (0 + x)%Z). lia.
Qed.

Lemma sum_cons (x : Z) (l : list Z) :
  Format.sum (x :: l) = (x + Format.sum l)%Z.
Proof. unfold Format.sum at 1. simpl. by rewrite sum_from. Qed.

(** X16.  When every array of the parameters has elements of the same
    size in bytes, as with one dtype, [parameters_bytes] is that size
    times [parameters_count]. *)
Theorem parameters_bytes_uniform (params : tree Format.ndarray) (c : Z) :
  Forall (λ x, Format.itemsize x = c) (Format.tree_leaves params) →
  Format.parameters_bytes params = (c * Format.parameters_count params)%Z.
Proof.
  unfold Format.parameters_bytes, Format.parameters_count.
  induction 1 as [|x l Hx _ IH]; [unfold Format.sum; simpl; lia|].
  rewrite !fmap_cons, !sum_cons, IH, Hx. lia.
Qed.

Lemma parameters_bytes_uniform_witness :
  Format.parameters_bytes
    (TDict [(SStr "w", TLeaf {| Format.size := 5; Format.itemsize := 4 |});
            (SStr "b", TLeaf {| Format.size := 3; Format.itemsize := 4 |})])
  = (4 * Format.parameters_count
      (TDict [(SStr "w", TLeaf {| Format.size := 5; Format.itemsize := 4 |});
              (SStr "b", TLeaf {| Format.size := 3; Format.itemsize := 4 |})]))%Z.
Proof.
  apply (parameters_bytes_uniform
    (TDict [(SStr "w", TLeaf {| Format.size := 5; Format.itemsize := 4 |});
            (SStr "b", TLeaf {| Format.size := 3; Format.itemsize := 4 |})])
    4%Z).
  repeat constructor.
Defined.

(** ** unwrap_filter *)

Section unwrap_facts.
Context {V : Type}.
Import Paths Unwrap.
Implicit Types (f : Parameter_ V → bool) (t : tree (Parameter_ V)).
Implicit Types (d : list (segment * tree (Parameter_ V))).
Implicit Types (outs : list (segment * tree V)) (k : segment).

Lemma leaf_paths_dict_cons {X} (k : segment) (x : tree X)
    (d : list (segment * tree X)) :
  leaf_paths (TDict ((k, x) :: d)) =
  (under [k] <$> leaf_paths x) ++ leaf_paths (TDict d).
Proof. by rewrite !leaf_paths_dict. Qed.

Lemma omap_kept_under f (pre : Path) (ps : list (Path * Parameter_ V)) :
  omap (kept_pair f) (under pre <$> ps) =
  under pre <$> omap (kept_pair f) ps.
Proof.
  induction ps as [|[p prm] ps IH]; [done|].
  rewrite fmap_cons.
  change (omap (kept_pair f) (under pre (p, prm) :: (under pre <$> ps)))
    with (match kept_pair f (under pre (p, prm)) with
          | Some y => y :: omap (kept_pair f) (under pre <$> ps)
          | None => omap (kept_pair f) (under pre <$> ps)
          end).
  change (omap (kept_pair f) ((p, prm) :: ps))
    with (match kept_pair f (p, prm) with
          | Some y => y :: omap (kept_pair f) ps
          | None => omap (kept_pair f) ps
          end).
  rewrite IH. unfold kept_pair, under. simpl. by destruct (f prm).
Qed.

Lemma unwrap_items_leaves f d :
  Forall (λ item, unwraps f item.2) d →
  forallb (λ item : segment * tree (Parameter_ V),
             dicts_and_leaves item.2) d = true →
  ∃ outs, unwrap_items f (unwrap_filter f) d = inl outs ∧
          leaf_paths (TDict outs)
            = omap (kept_pair f) (leaf_paths (TDict d)).
Proof.
  induction 1 as [|[k x] d Hx _ IH]; intros Hdal.
  - by exists [].
  - simpl in Hdal, Hx. apply andb_prop in Hdal as [Hdx Hdal].
    destruct (IH Hdal) as (outs & Houts & Hleaves).
    rewrite leaf_paths_dict_cons, omap_app, omap_kept_under, <- Hleaves.
    destruct x as [prm|l|l|d'].
    + simpl. rewrite Houts. unfold kept_pair at 1. simpl.
      destruct (f prm).
      * eexists. split; [done|]. by rewrite leaf_paths_dict_cons.
      * by exists outs.
    + done.
    + done.
    + destruct (Hx Hdx) as (sub & Hsub & Hsubl).
      cbn [unwrap_items]. rewrite Hsub, Houts.
      eexists. split; [done|]. by rewrite leaf_paths_dict_cons, Hsubl.
Qed.

Lemma unwrap_filter_unwraps f t : unwraps f t.
Proof.
  induction t as [prm|l IH|l IH|d IH] using tree_ind; intros Hdal;
    try done.
  simpl in Hdal.
  destruct (unwrap_items_leaves f d IH Hdal) as (outs & Houts & Hleaves).
  exists (TDict outs). simpl. by rewrite Houts.
Qed.
End unwrap_facts.

(** X17.  On a dict made of dicts and parameters, [unwrap_filter] does
    not raise, and the pairs of [leaf_paths] of its result are, in the
    same order and under the same paths, the values of the parameters
    of which [f] holds. *)
Theorem unwrap_filter_leaves {V} (f : Unwrap.Parameter_ V → bool)
    (d : list (segment * tree (Unwrap.Parameter_ V))) :
  Unwrap.dicts_and_leaves (TDict d) = true →
  ∃ r, Unwrap.unwrap_filter f (TDict d) = inl r ∧
       Paths.leaf_paths r =
       omap (Unwrap.kept_pair f) (Paths.leaf_paths (TDict d)).
Proof. intros Hdal. by apply (unwrap_filter_unwraps f (TDict d)). Qed.

Lemma unwrap_filter_leaves_witness :
  ∃ r,
    Unwrap.unwrap_filter
      (λ p, bool_decide (Unwrap.collection p = "parameters"))
      (TDict [(SStr "m", TDict
                 [(SStr "w", TLeaf {| Unwrap.collection := "parameters";
                                      Unwrap.value := 2%nat |});
                  (SStr "n", TLeaf {| Unwrap.collection := "states";
                                      Unwrap.value := 0%nat |})])]) = inl r ∧
    Paths.leaf_paths r =
    omap (Unwrap.kept_pair
            (λ p, bool_decide (Unwrap.collection p = "parameters")))
      (Paths.leaf_paths
         (TDict [(SStr "m", TDict
                 [(SStr "w", TLeaf {| Unwrap.collection := "parameters";
                                      Unwrap.value := 2%nat |});
                  (SStr "n", TLeaf {| Unwrap.collection := "states";
                                      Unwrap.value := 0%nat |})])])).
Proof.
  apply (unwrap_filter_leaves
    (λ p, bool_decide (Unwrap.collection p = "parameters"))
    [(SStr "m", TDict
        [(SStr "w", TLeaf {| Unwrap.collection := "parameters";
                             Unwrap.value := 2%nat |});
         (SStr "n", TLeaf {| Unwrap.collection := "states";
                             Unwrap.value := 0%nat |})])]).
  by vm_compute.
Defined.

Example unwrap_filter_keeps_empty_dicts :
  Unwrap.unwrap_filter (λ _ : Unwrap.Parameter_ nat, false)
    (TDict [(SStr "m", TDict
               [(SStr "w", TLeaf {| Unwrap.collection := "parameters";
                                    Unwrap.value := 2%nat |})])])
  = inl (TDict [(SStr "m", TDict [])]).
Proof. by vm_compute. Qed.

Example unwrap_filter_list_raises :
  Unwrap.unwrap_filter (λ _ : Unwrap.Parameter_ nat, true)
    (TDict [(SStr "m", TList [])])
  = inr AttributeError.
Proof. by vm_compute. Qed.

Section unwrap_merge_facts.
Context {V : Type}.
Import Paths Unwrap Merge.
Implicit Types (f g : Parameter_ V → bool) (t : tree (Parameter_ V)).
Implicit Types (d : list (segment * tree (Parameter_ V))).
Implicit Types (outs : list (segment * tree V)) (k : segment).

Lemma elem_of_unwrap_items f d outs k (x : tree V) :
  unwrap_items f (unwrap_filter f) d = inl outs →
  (k, x) ∈ outs ↔ ∃ orig, (k, orig) ∈ d ∧ unwrapped_item f orig x.
Proof.
  revert outs. induction d as [|[k' orig'] d IH]; intros outs Houts.
  - injection Houts as <-. split; [by intros ?%elem_of_nil|].
    by intros (orig & ?%elem_of_nil & _).
  - cbn [unwrap_items] in Houts.
    assert (Hgoal : ∀ (head outs' : list (segment * tree V)),
      unwrap_items f (unwrap_filter f) d = inl outs' →
      outs = head ++ outs' →
      (∀ x', (k, x') ∈ head ↔ k = k' ∧ unwrapped_item f orig' x') →
      (k, x) ∈ outs ↔
      ∃ orig, (k, orig) ∈ (k', orig') :: d ∧ unwrapped_item f orig x).
    { intros head outs' Hrest -> Hhead.
      rewrite elem_of_app, Hhead, (IH outs' Hrest). split.
      - intros [[-> Hx]|(orig & Hin & Hx)].
        + exists orig'. split; [apply list_elem_of_here|done].
        + exists orig. split; [by apply list_elem_of_further|done].
      - intros (orig & Hin & Hx).
        apply elem_of_cons in Hin as [[= -> ->]|Hin]; [by left|].
        right. by exists orig. }
    destruct orig' as [prm|l|l|d'].
    + destruct (unwrap_items f (unwrap_filter f) d) as [outs'|e]; [|done].
      injection Houts as <-. destruct (f prm) eqn:Hf.
      * apply (Hgoal [(k', TLeaf (value prm))] outs'); [done|done|].
        intros x'. rewrite list_elem_of_singleton. simpl. split.
        -- by intros [= -> ->].
        -- by intros (-> & _ & ->).
      * apply (Hgoal [] outs'); [done|done|].
        intros x'. simpl. split; [by intros ?%elem_of_nil|].
        intros (_ & Hf' & _). congruence.
    + done.
    + done.
    + destruct (unwrap_filter f (TDict d')) as [sub|e] eqn:Hsub; [|done].
      destruct (unwrap_items f (unwrap_filter f) d) as [outs'|e]; [|done].
      injection Houts as <-. apply (Hgoal [(k', sub)] outs'); [done|done|].
      intros x'. rewrite list_elem_of_singleton.
      unfold unwrapped_item. rewrite Hsub. split.
      * by intros [= -> ->].
      * by intros (-> & [= ->]).
Qed.
Lemma unwrap_items_cons f k (orig : tree (Parameter_ V)) d outs :
  unwrap_items f (unwrap_filter f) ((k, orig) :: d) = inl outs →
  ∃ head outs',
    unwrap_items f (unwrap_filter f) d = inl outs' ∧
    outs = head ++ outs' ∧
    (head = [] ∨ ∃ x, head = [(k, x)]).
Proof.
  cbn [unwrap_items]. intros Houts. destruct orig as [prm|l|l|d'].
  - destruct (unwrap_items f (unwrap_filter f) d) as [outs'|e]; [|done].
    injection Houts as <-. destruct (f prm).
    + exists [(k, TLeaf (value prm))], outs'. split; [done|].
      split; [done|]. right. by eexists.
    + exists [], outs'. split; [done|]. split; [done|]. by left.
  - done.
  - done.
  - destruct (unwrap_filter f (TDict d')) as [sub|e]; [|done].
    destruct (unwrap_items f (unwrap_filter f) d) as [outs'|e]; [|done].
    injection Houts as <-. exists [(k, sub)], outs'. split; [done|].
    split; [done|]. right. by eexists.
Qed.

Lemma keys_unwrap_items f d outs :
  unwrap_items f (unwrap_filter f) d = inl outs →
  NoDup (PyDict.keys d) → NoDup (PyDict.keys outs).
Proof.
  revert outs. induction d as [|[k orig] d IH]; intros outs Houts Hnd.
  - injection Houts as <-. constructor.
  - simpl in Hnd. apply NoDup_cons in Hnd as [Hk Hnd].
    destruct (unwrap_items_cons f k orig d outs Houts)
      as (head & outs' & Hrest & -> & Hhead).
    specialize (IH outs' Hrest Hnd).
    destruct Hhead as [->|[x ->]]; [done|]. simpl.
    constructor; [|done]. intros Hin.
    apply list_elem_of_fmap in Hin as ([k' x'] & Hk' & Hin).
    simpl in Hk'. subst k'.
    apply (elem_of_unwrap_items f d outs' k x' Hrest) in Hin
      as (orig' & Hin & _).
    apply Hk. apply list_elem_of_fmap. by exists (k, orig').
Qed.

Lemma unwrap_filter_well_formed f t (r : tree V) :
  well_formed t = true → unwrap_filter f t = inl r →
  well_formed r = true.
Proof.
  revert r. induction t as [prm|l IH|l IH|d IH] using tree_ind;
    intros r Hwf Hr; try done.
  simpl in Hwf, Hr. apply andb_prop in Hwf as [Hnd Hwf].
  apply bool_decide_eq_true in Hnd.
  destruct (unwrap_items f (unwrap_filter f) d) as [outs|e] eqn:Houts;
    [|done].
  injection Hr as <-. simpl. apply andb_true_intro. split.
  - apply bool_decide_eq_true. by eapply keys_unwrap_items.
  - apply forallb_forall. intros [k x] Hin%list_elem_of_In. simpl.
    apply (elem_of_unwrap_items f d outs k x Houts) in Hin
      as (orig & Hin & Hx).
    rewrite Forall_forall in IH. specialize (IH (k, orig) Hin).
    pose proof (well_formed_item d k orig Hwf Hin) as Hworig.
    destruct orig as [prm|l|l|d']; simpl in Hx.
    + by destruct Hx as [_ ->].
    + done.
    + done.
    + by apply IH.
Qed.

(** What two filters that never keep the same parameter return from
    one tree never conflicts. *)
Lemma unwrap_filter_no_conflict f g t (ra rb : tree V) :
  (∀ prm, f prm = true → g prm = true → False) →
  well_formed t = true →
  unwrap_filter f t = inl ra → unwrap_filter g t = inl rb →
  ∀ p, ¬ conflict_at p ra rb.
Proof.
  intros Hfg. revert ra rb.
  induction t as [prm|l IH|l IH|d IH] using tree_ind;
    intros ra rb Hwf Hra Hrb p Hp; try done.
  simpl in Hwf, Hra, Hrb. apply andb_prop in Hwf as [Hnd Hwf].
  apply bool_decide_eq_true in Hnd.
  destruct (unwrap_items f (unwrap_filter f) d) as [oa|e] eqn:Hoa; [|done].
  destruct (unwrap_items g (unwrap_filter g) d) as [ob|e] eqn:Hob; [|done].
  injection Hra as <-. injection Hrb as <-.
  inversion Hp as [?? Hinc|k p' ? ? x y Hx Hy Hxy| |]; subst; [done|].
  apply get_Some_elem_of in Hx, Hy.
  apply (elem_of_unwrap_items f d oa k x Hoa) in Hx as (orig & Hin & Hx).
  apply (elem_of_unwrap_items g d ob k y Hob) in Hy as (orig' & Hin' & Hy).
  assert (orig' = orig) as ->.
  { apply (elem_of_get d k) in Hin, Hin'; [|done..]. congruence. }
  rewrite Forall_forall in IH. specialize (IH (k, orig) Hin).
  pose proof (well_formed_item d k orig Hwf Hin) as Hworig.
  destruct orig as [prm|l|l|d']; simpl in Hx, Hy; try done.
  - destruct Hx as [Hf _], Hy as [Hg _]. by apply (Hfg prm).
  - by apply (IH x y Hworig Hx Hy p').
Qed.
End unwrap_merge_facts.

(** X18.  Splitting a dict of dicts and parameters (keys pairwise
    distinct) with [unwrap_filter] by a predicate and by its negation,
    and merging the two parts with [merge_params], never raises, and the
    merged tree has exactly the values of all the parameters, each under
    its path. *)
Theorem unwrap_filter_split_merge {V} (f : Unwrap.Parameter_ V → bool)
    (d : list (segment * tree (Unwrap.Parameter_ V))) :
  Paths.well_formed (TDict d) = true →
  Unwrap.dicts_and_leaves (TDict d) = true →
  ∃ ra rb m,
    Unwrap.unwrap_filter f (TDict d) = inl ra ∧
    Unwrap.unwrap_filter (λ p, negb (f p)) (TDict d) = inl rb ∧
    Merge.merge_params ra rb = Ok m ∧
    ∀ p v, (p, v) ∈ Paths.leaf_paths m ↔
           ∃ prm, (p, prm) ∈ Paths.leaf_paths (TDict d) ∧
                  v = Unwrap.value prm.
Proof.
  intros Hwf Hdal.
  destruct (unwrap_filter_unwraps f (TDict d) Hdal) as (ra & Hra & Hla).
  destruct (unwrap_filter_unwraps (λ p, negb (f p)) (TDict d) Hdal)
    as (rb & Hrb & Hlb).
  pose proof (unwrap_filter_well_formed _ _ _ Hwf Hra) as Hwa.
  pose proof (unwrap_filter_well_formed _ _ _ Hwf Hrb) as Hwb.
  assert (Hfree : ∀ p, ¬ Merge.conflict_at p ra rb).
  { apply (unwrap_filter_no_conflict f (λ p, negb (f p)) (TDict d));
      [|done..].
    intros prm Hf Hnf. rewrite Hf in Hnf. done. }
  destruct (merge_params_settled ra Hwa rb)
    as [[_ [p Hp]]|(m & Hm & _ & _)]; [by destruct (Hfree p)|].
  exists ra, rb, m. split; [done|]. split; [done|]. split; [done|].
  intros p v.
  rewrite (proj2 (merge_params_kept ra rb m Hwa Hwb Hm) p v), Hla, Hlb.
  rewrite !list_elem_of_omap. unfold Unwrap.kept_pair. split.
  - intros [([p' prm] & Hin & Hk)|([p' prm] & Hin & Hk)]; simpl in Hk.
    + destruct (f prm); [|done]. injection Hk as <- <-. by exists prm.
    + destruct (negb (f prm)); [|done]. injection Hk as <- <-.
      by exists prm.
  - intros (prm & Hin & ->). destruct (f prm) eqn:Hf.
    + left. exists (p, prm). split; [done|]. simpl. by rewrite Hf.
    + right. exists (p, prm). split; [done|]. simpl. by rewrite Hf.
Qed.

Lemma unwrap_filter_split_merge_witness :
  let d : list (segment * tree (Unwrap.Parameter_ nat)) :=
    [(SStr "m", TDict
        [(SStr "w", TLeaf {| Unwrap.collection := "parameters";
                             Unwrap.value := 2%nat |});
         (SStr "n", TLeaf {| Unwrap.collection := "states";
                             Unwrap.value := 0%nat |})])] in
  Paths.well_formed (TDict d) = true ∧
  ∃ ra rb m,
    Unwrap.unwrap_filter
      (λ p, bool_decide (Unwrap.collection p = "parameters")) (TDict d)
      = inl ra ∧
    Unwrap.unwrap_filter
      (λ p, negb (bool_decide (Unwrap.collection p = "parameters")))
      (TDict d) = inl rb ∧
    Merge.merge_params ra rb = Ok m ∧
    ∀ p v, (p, v) ∈ Paths.leaf_paths m ↔
           ∃ prm, (p, prm) ∈ Paths.leaf_paths (TDict d) ∧
                  v = Unwrap.value prm.
Proof.
  split; [by vm_compute|].
  apply (unwrap_filter_split_merge
    (λ p, bool_decide (Unwrap.collection p = "parameters"))
    [(SStr "m", TDict
        [(SStr "w", TLeaf {| Unwrap.collection := "parameters";
                             Unwrap.value := 2%nat |});
         (SStr "n", TLeaf {| Unwrap.collection := "states";
                             Unwrap.value := 0%nat |})])]);
    by vm_compute.
Defined.

(** ** [lower_snake_case] *)

Section snake_facts.
Import Stdlib.Strings.Ascii SnakeCase.
Implicit Types (s part : string) (c : ascii) (P : ascii → bool).
Implicit Types (parts out : list string).

Lemma lower_char_not_upper c : is_upper (lower_char c) = false.
Proof. by destruct c as [[] [] [] [] [] [] [] []]. Qed.

Lemma lower_char_fixed c : is_upper c = false → lower_char c = c.
Proof. unfold lower_char. by intros ->. Qed.

Lemma all_chars_app P s1 s2 :
  all_chars P (s1 +:+ s2) = all_chars P s1 && all_chars P s2.
Proof.
  induction s1 as [|c s1 IH]; simpl; [done|].
  by rewrite IH, andb_assoc.
Qed.

Lemma length_app_string s1 s2 :
  String.length (s1 +:+ s2) = String.length s1 + String.length s2.
Proof. induction s1 as [|c s1 IH]; simpl; [done|]. by rewrite IH. Qed.

Lemma all_chars_lower s : all_chars not_upper (lower s) = true.
Proof.
  induction s as [|c s IH]; simpl; [done|].
  unfold not_upper at 1. by rewrite lower_char_not_upper, IH.
Qed.

Lemma lower_fixed s : all_chars not_upper s = true → lower s = s.
Proof.
  induction s as [|c s IH]; simpl; [done|].
  intros [Hc Hs]%andb_prop. rewrite IH by done.
  rewrite lower_char_fixed; [done|]. by apply negb_true_iff.
Qed.

Lemma insert_underscores_fixed b s :
  all_chars not_upper s = true → insert_underscores b s = s.
Proof.
  revert b. induction s as [|c s IH]; intros b; simpl; [done|].
  intros [Hc Hs]%andb_prop. apply negb_true_iff in Hc.
  by rewrite Hc, andb_false_r, IH.
Qed.

(** [split] *)
Lemma split_not_nil s : split s ≠ [].
Proof.
  destruct s as [|c s]; simpl; [done|].
  destruct (decide _); [done|]. by destruct (split s).
Qed.

Lemma split_all_chars P s :
  all_chars P s = true → Forall (λ part, all_chars P part = true) (split s).
Proof.
  induction s as [|c s IH]; simpl.
  - intros _. by repeat constructor.
  - intros [Hc Hs]%andb_prop. specialize (IH Hs).
    destruct (decide _); [by constructor|].
    destruct (split s) as [|part parts]; [by repeat constructor; simpl; rewrite Hc|].
    apply Forall_cons in IH as [Hpart Hparts].
    constructor; [|done]. simpl. by rewrite Hc, Hpart.
Qed.

Lemma split_no_underscore s :
  Forall (λ part, all_chars not_underscore part = true) (split s).
Proof.
  induction s as [|c s IH]; simpl; [by repeat constructor|].
  destruct (decide (c = "_"%char)) as [->|Hc]; [by constructor|].
  destruct (split s) as [|part parts].
  - repeat constructor. simpl. unfold not_underscore.
    by rewrite bool_decide_true.
  - apply Forall_cons in IH as [Hpart Hparts]. constructor; [|done].
    simpl. unfold not_underscore at 1. by rewrite bool_decide_true, Hpart.
Qed.

Lemma split_fixed s :
  all_chars not_underscore s = true → split s = [s].
Proof.
  induction s as [|c s IH]; simpl; [done|].
  intros [Hc Hs]%andb_prop. apply bool_decide_eq_true in Hc.
  rewrite decide_False by done. by rewrite IH.
Qed.

Lemma split_app_underscore s r :
  all_chars not_underscore s = true →
  split (s +:+ "_" +:+ r) = s :: split r.
Proof.
  induction s as [|c s IH]; simpl; [done|].
  intros [Hc Hs]%andb_prop. apply bool_decide_eq_true in Hc.
  rewrite decide_False by done. by rewrite IH.
Qed.

Lemma split_concat out :
  out ≠ [] →
  Forall (λ part, all_chars not_underscore part = true) out →
  split (String.concat "_" out) = out.
Proof.
  intros Hne Hall. induction Hall as [|x out Hx Hout IH]; [done|].
  destruct out as [|y out]; simpl.
  - by apply split_fixed.
  - rewrite split_app_underscore by done. f_equal. by apply IH.
Qed.

Lemma all_chars_concat P out :
  P "_"%char = true →
  Forall (λ part, all_chars P part = true) out →
  all_chars P (String.concat "_" out) = true.
Proof.
  intros HP. induction 1 as [|x out Hx Hout IH]; [done|].
  destruct out as [|y out]; simpl; [done|].
  rewrite all_chars_app, Hx. simpl. rewrite HP. by apply IH.
Qed.

(** [add_to_last] and [merge_short] *)
Lemma add_to_last_snoc init x part :
  add_to_last (init ++ [x]) part = init ++ [x +:+ part].
Proof.
  induction init as [|y init IH]; [done|].
  simpl. rewrite IH. by destruct init.
Qed.

Lemma merge_short_state P prev parts out :
  Forall (λ part, all_chars P part = true) parts →
  loop_state P prev out →
  (prev = None → parts ≠ []) →
  ∃ init x, merge_short prev parts out = init ++ [x] ∧
            Forall long init ∧
            Forall (λ part, all_chars P part = true) (init ++ [x]).
Proof.
  intros Hparts. revert prev out.
  induction Hparts as [|part parts Hpart _ IH]; intros prev out [HP Hst] Hne.
  - destruct prev as [q|]; [|by destruct Hne].
    destruct Hst as (init & x & -> & Hinit & _). simpl. by exists init, x.
  - simpl. apply IH; [|done]. destruct prev as [q|].
    + destruct Hst as (init & x & -> & Hinit & Hqx).
      destruct (decide (1 < String.length q)) as [Hq|Hq].
      * split; [apply Forall_app; split; [done|by apply Forall_singleton]|].
        exists (init ++ [x]), part. split; [done|]. split; [|done].
        apply Forall_app. split; [done|]. apply Forall_singleton.
        by apply Hqx.
      * rewrite add_to_last_snoc.
        apply Forall_app in HP as [HPinit HPx].
        rewrite Forall_singleton in HPx. split.
        { apply Forall_app. split; [done|]. apply Forall_singleton.
          by rewrite all_chars_app, HPx, Hpart. }
        exists init, (x +:+ part). split; [done|]. split; [done|].
        unfold long. rewrite length_app_string. lia.
    + subst out. split; [by repeat constructor|].
      exists [], part. by split; [|split; [constructor|]].
Qed.

Lemma merge_short_long prev init x out :
  Forall long init →
  match prev with None => True | Some q => long q end →
  merge_short prev (init ++ [x]) out = out ++ init ++ [x].
Proof.
  intros Hinit. revert prev out.
  induction Hinit as [|y init Hy _ IH]; intros prev out Hprev; simpl.
  - destruct prev as [q|]; [|done]. by rewrite decide_True.
  - rewrite IH by done.
    destruct prev as [q|]; [rewrite decide_True by done|];
      by rewrite <- app_assoc.
Qed.
End snake_facts.

(** X19. [lower_snake_case] of a string of ASCII characters has no
    capital letter. *)
Theorem lower_snake_case_no_capital (s : string) :
  SnakeCase.all_chars SnakeCase.is_ascii s = true →
  SnakeCase.all_chars SnakeCase.not_upper (SnakeCase.lower_snake_case s)
    = true.
Proof.
  intros _. unfold SnakeCase.lower_snake_case.
  set (parts := SnakeCase.split _).
  destruct (merge_short_state SnakeCase.not_upper None parts []) as (init & x & -> & _ & Hall).
  - apply split_all_chars, all_chars_lower.
  - by split.
  - intros _. apply split_not_nil.
  - by apply (all_chars_concat SnakeCase.not_upper).
Qed.

Lemma lower_snake_case_no_capital_witness :
  SnakeCase.all_chars SnakeCase.is_ascii "HaikuModule" = true ∧
  SnakeCase.all_chars SnakeCase.not_upper
    (SnakeCase.lower_snake_case "HaikuModule") = true.
Proof.
  split; [reflexivity|].
  apply (lower_snake_case_no_capital "HaikuModule"). reflexivity.
Defined.

(** X20. [lower_snake_case] is idempotent on strings of ASCII
    characters: a name it returned, it returns unchanged. *)
Theorem lower_snake_case_idempotent (s : string) :
  SnakeCase.all_chars SnakeCase.is_ascii s = true →
  SnakeCase.lower_snake_case (SnakeCase.lower_snake_case s)
    = SnakeCase.lower_snake_case s.
Proof.
  intros _. unfold SnakeCase.lower_snake_case at 2.
  set (parts := SnakeCase.split _).
  destruct (merge_short_state SnakeCase.not_upper None parts [])
    as (init & x & Hout & Hlong & Hup).
  { apply split_all_chars, all_chars_lower. }
  { by split. }
  { intros _. apply split_not_nil. }
  destruct (merge_short_state SnakeCase.not_underscore None parts [])
    as (init' & x' & Hout' & _ & Hus).
  { apply split_no_underscore. }
  { by split. }
  { intros _. apply split_not_nil. }
  rewrite Hout in Hout'. rewrite <- Hout' in Hus. rewrite Hout.
  unfold SnakeCase.lower_snake_case.
  rewrite insert_underscores_fixed by by apply (all_chars_concat SnakeCase.not_upper).
  rewrite lower_fixed by by apply (all_chars_concat SnakeCase.not_upper).
  rewrite split_concat; [|by destruct init|done].
  rewrite merge_short_long by done. fold parts. by rewrite Hout.
Qed.

Lemma lower_snake_case_idempotent_witness :
  SnakeCase.all_chars SnakeCase.is_ascii "Conv2D" = true ∧
  SnakeCase.lower_snake_case (SnakeCase.lower_snake_case "Conv2D")
    = SnakeCase.lower_snake_case "Conv2D".
Proof.
  split; [reflexivity|].
  apply (lower_snake_case_idempotent "Conv2D"). reflexivity.
Defined.
